(** * Tickets: redemption, issuance and the bulk issuance pipeline

    A shallow embedding of the ticket service (the route handlers under
    [apps/tickets/src/app/api]) and of the bulk sender
    ([scripts/send-paid-link-tickets.mjs]), with the properties of the
    redemption core, the administrative burn, the issue handler, the
    keyword resolver, the retrying fetch and the resumable ledger.

    Conventions.
    - A JavaScript string is a [string]; its characters are read as code
      units in the ASCII range.  [trim], [toLowerCase] and the NFKD
      normalisation followed by the removal of combining marks are given on
      that range, where the last two steps leave every code unit unchanged.
    - A table of the relational store is a finite map from the primary key
      to the row; [scanner_keys] is a list because the key lookup takes the
      first matching row.
    - [now()] is a parameter of every statement that calls it.
    - A handler returns its response together with what it did to the
      collaborators it talks to (the store, the QR encoder, the mailer). *)

From Stdlib Require Import ZArith String Ascii List Bool Lia.
From stdpp Require Import gmap strings list fin_maps pretty.

Local Open Scope string_scope.

(** ** Runtime strings *)

Module Js.

Definition code (c : ascii) : N := N_of_ascii c.

Definition in_range (lo hi : string) (c : ascii) : bool :=
  match lo, hi with
  | String l EmptyString, String h EmptyString =>
      (code l <=? code c)%N && (code c <=? code h)%N
  | _, _ => false
  end.

Definition is_digit (c : ascii) : bool := in_range "0" "9" c.
Definition is_lower (c : ascii) : bool := in_range "a" "z" c.
Definition is_upper (c : ascii) : bool := in_range "A" "Z" c.

(** [\w] of a regular expression without the [u] flag. *)
Definition is_word (c : ascii) : bool :=
  is_digit c || is_lower c || is_upper c || (code c =? 95)%N.

(** White space removed by [String.prototype.trim], ASCII range:
    TAB, LF, VT, FF, CR and SPACE. *)
Definition is_space (c : ascii) : bool :=
  ((9 <=? code c)%N && (code c <=? 13)%N) || (code c =? 32)%N.

Definition chars (s : string) : list ascii := list_ascii_of_string s.
Definition of_chars (l : list ascii) : string := string_of_list_ascii l.

Fixpoint drop_spaces (l : list ascii) : list ascii :=
  match l with
  | c :: r => if is_space c then drop_spaces r else l
  | [] => []
  end.

Definition trim_chars (l : list ascii) : list ascii :=
  rev (drop_spaces (rev (drop_spaces l))).

Definition trim (s : string) : string := of_chars (trim_chars (chars s)).

Definition lower_char (c : ascii) : ascii :=
  if is_upper c then ascii_of_N (code c + 32) else c.

Definition toLowerCase (s : string) : string :=
  of_chars (map lower_char (chars s)).

(** [s.normalize("NFKD")] followed by the removal of the combining marks
    U+0300 to U+036F: on ASCII code units the decomposition is the identity
    and there is no combining mark to remove. *)
Definition nfkd_strip_marks (s : string) : string := s.

Fixpoint starts_with (p l : list ascii) : bool :=
  match p, l with
  | [], _ => true
  | a :: p', b :: l' => bool_decide (a = b) && starts_with p' l'
  | _ :: _, [] => false
  end.

(** [hay.includes(needle)]. *)
Fixpoint includes_chars (needle hay : list ascii) : bool :=
  starts_with needle hay ||
  match hay with
  | [] => false
  | _ :: r => includes_chars needle r
  end.

Definition includes (hay needle : string) : bool :=
  includes_chars (chars needle) (chars hay).

(** [/\bWORD\b/.test(s)] for a [WORD] made of word characters: an occurrence
    of [WORD] with no word character right before it and none right after.
    [prev] is the character before the current position, if any. *)
Definition boundary_after (l : list ascii) : bool :=
  match l with
  | [] => true
  | c :: _ => negb (is_word c)
  end.

Definition boundary_before (prev : option ascii) : bool :=
  match prev with
  | None => true
  | Some c => negb (is_word c)
  end.

Fixpoint word_test_from (w : list ascii) (prev : option ascii) (l : list ascii) : bool :=
  (boundary_before prev && starts_with w l && boundary_after (drop (length w) l)) ||
  match l with
  | [] => false
  | c :: r => word_test_from w (Some c) r
  end.

Definition word_test (w s : string) : bool :=
  word_test_from (chars w) None (chars s).

End Js.

(** ** The canonical token shape *)

Module Token.

Definition is_hex (c : ascii) : bool :=
  Js.is_digit c || Js.in_range "a" "f" c || Js.in_range "A" "F" c.

Definition is_dash (c : ascii) : bool := bool_decide (c = "-"%char).

(** [[1-8]] *)
Definition is_version (c : ascii) : bool := Js.in_range "1" "8" c.

(** [[89ab]] under the [i] flag *)
Definition is_variant (c : ascii) : bool :=
  existsb (fun x => bool_decide (c = x))
    ["8"; "9"; "a"; "b"; "A"; "B"]%char.

(** The regular expression
    [/^[0-9a-f]{8}-[0-9a-f]{4}-[1-8][0-9a-f]{3}-[89ab][0-9a-f]{3}-[0-9a-f]{12}$/i]
    as the sequence of its character classes. *)
Definition uuid_classes : list (ascii -> bool) :=
  repeat is_hex 8 ++ [is_dash] ++
  repeat is_hex 4 ++ [is_dash] ++
  [is_version] ++ repeat is_hex 3 ++ [is_dash] ++
  [is_variant] ++ repeat is_hex 3 ++ [is_dash] ++
  repeat is_hex 12.

(** An anchored match: every class takes one character and nothing is left. *)
Fixpoint match_classes (cls : list (ascii -> bool)) (l : list ascii) : bool :=
  match cls, l with
  | [], [] => true
  | p :: cls', c :: l' => p c && match_classes cls' l'
  | _, _ => false
  end.

(** [uuidRegex.test(s)] of the get and burn routes. *)
Definition uuid_test (s : string) : bool :=
  match_classes uuid_classes (Js.chars s).

(** The store's [uuid] type.  A value is written here in its canonical lower
    case text form.  The store reads a text parameter bound to a [uuid]
    column in the hyphenated 8-4-4-4-12 hexadecimal form, in either case,
    and raises an error on text that is not a uuid. *)
Definition uuid := string.

Definition hyphenated_hex : list (ascii -> bool) :=
  repeat is_hex 8 ++ [is_dash] ++ repeat is_hex 4 ++ [is_dash] ++
  repeat is_hex 4 ++ [is_dash] ++ repeat is_hex 4 ++ [is_dash] ++
  repeat is_hex 12.

Definition uuid_in (text : string) : option uuid :=
  if match_classes hyphenated_hex (Js.chars text)
  then Some (Js.toLowerCase text) else None.

End Token.

(** ** The store *)

Module Store.

Import Token.

Definition timestamp := Z.

Record ticket := mkTicket {
  ticket_type_id : uuid;
  email : string;
  name : option string;
  used : bool;
  used_at : option timestamp;
  used_by_scanner_key_id : option uuid;
  issued_at : timestamp
}.

Record ticket_type := mkTicketType {
  tt_event_id : uuid;
  tt_name : string;
  tt_price_isk : Z
}.

Record event := mkEvent {
  ev_name : string;
  ev_starts_at : option timestamp;
  ev_ends_at : option timestamp;
  ev_venue : option string
}.

Record scanner_key := mkScannerKey {
  sk_id : uuid;
  sk_key_hash : string;
  sk_event_id : uuid;
  sk_active : bool;
  sk_expires_at : option timestamp;
  sk_label : option string
}.

Record store := mkStore {
  tickets : gmap uuid ticket;
  ticket_types : gmap uuid ticket_type;
  events : gmap uuid event;
  scanner_keys : list scanner_key
}.

Definition with_tickets (st : store) (ts : gmap uuid ticket) : store :=
  mkStore ts (ticket_types st) (events st) (scanner_keys st).

(** Modelled from the spec: the column defaults of [tickets], whose schema is
    not part of the sources.  A ticket's [used] starts false, [used_at] and
    [used_by_key_id] start null and [issued_at] is set at creation. *)
Definition new_ticket (type_id : uuid) (mail : string) (nm : option string)
    (now : timestamp) : ticket :=
  mkTicket type_id mail nm false None None now.

(** [insert into tickets (ticket_type_id, email, name) values ($1, $2, $3)
    returning id, issued_at].  [new_id] is the identifier the store draws for
    the row. *)
Definition insert_ticket (st : store) (new_id : uuid) (type_id : uuid)
    (mail : string) (nm : option string) (now : timestamp) : store :=
  with_tickets st (<[new_id := new_ticket type_id mail nm now]> (tickets st)).

(** The [set] clause of the validate route. *)
Definition stamp_used (t : ticket) (now : timestamp) (key_id : uuid) : ticket :=
  mkTicket (ticket_type_id t) (email t) (name t)
    true (Some now) (Some key_id) (issued_at t).

(** The [set] clause of the burn route. *)
Definition stamp_burned (t : ticket) (now : timestamp) : ticket :=
  mkTicket (ticket_type_id t) (email t) (name t)
    true (Some now) None (issued_at t).

(** [from ticket_types tt where t.ticket_type_id = tt.id and tt.event_id = $2] *)
Definition type_in_event (st : store) (t : ticket) (ev : uuid) : bool :=
  match ticket_types st !! ticket_type_id t with
  | Some ty => bool_decide (tt_event_id ty = ev)
  | None => false
  end.

(** The conditional update of the validate route:
    [update tickets t set used = true, used_at = now(),
       used_by_scanner_key_id = $3
     from ticket_types tt
     where t.id = $1 and t.used = false
       and t.ticket_type_id = tt.id and tt.event_id = $2
     returning t.id].
    The result is the new store and [rowCount]. *)
Definition update_redeem (st : store) (tok ev key_id : uuid) (now : timestamp)
    : store * nat :=
  match tickets st !! tok with
  | Some t =>
      if negb (used t) && type_in_event st t ev
      then (with_tickets st (<[tok := stamp_used t now key_id]> (tickets st)), 1)
      else (st, 0)
  | None => (st, 0)
  end.

(** The row [loadTicketRow] selects. *)
Record ticket_row := mkTicketRow {
  r_id : uuid;
  r_email : string;
  r_name : option string;
  r_used : bool;
  r_used_at : option timestamp;
  r_issued_at : timestamp;
  r_used_by_scanner_key_id : option uuid;
  r_ticket_type : string;
  r_price_isk : Z;
  r_event_name : string;
  r_starts_at : option timestamp;
  r_ends_at : option timestamp;
  r_venue : option string;
  r_scanned_by : option string
}.

(** [left join scanner_keys sk on sk.id = t.used_by_scanner_key_id], column
    [sk.label]. *)
Definition scanned_by (st : store) (t : ticket) : option string :=
  match used_by_scanner_key_id t with
  | Some k =>
      match find (fun sk => bool_decide (sk_id sk = k)) (scanner_keys st) with
      | Some sk => sk_label sk
      | None => None
      end
  | None => None
  end.

(** [loadTicketRow]: the select over [tickets], [ticket_types] and [events]
    with [where t.id = $1 and tt.event_id = $2].  A select changes no table,
    so it is a function of the store. *)
Definition loadTicketRow (st : store) (tok ev : uuid) : option ticket_row :=
  match tickets st !! tok with
  | Some t =>
      match ticket_types st !! ticket_type_id t with
      | Some ty =>
          match events st !! tt_event_id ty with
          | Some e =>
              if bool_decide (tt_event_id ty = ev)
              then Some (mkTicketRow tok (email t) (name t) (used t) (used_at t)
                           (issued_at t) (used_by_scanner_key_id t)
                           (tt_name ty) (tt_price_isk ty)
                           (ev_name e) (ev_starts_at e) (ev_ends_at e) (ev_venue e)
                           (scanned_by st t))
              else None
          | None => None
          end
      | None => None
      end
  | None => None
  end.

(** The update of the burn route:
    [update tickets set used = true, used_at = now(),
       used_by_scanner_key_id = null
     where id = any($1::uuid[]) returning id, used].
    Every row whose id is in the array is updated once; the result is the
    new store and the ids returned. *)
Definition update_burn (st : store) (ids : list uuid) (now : timestamp)
    : store * list uuid :=
  (with_tickets st
     (map_imap
        (fun i t => Some (if bool_decide (i ∈ ids) then stamp_burned t now else t))
        (tickets st)),
   filter (fun i => i ∈ ids) (map_to_list (tickets st)).*1).

End Store.

(** ** Redemption: [POST /api/tickets/validate] *)

Module Validate.

Import Token Store.

Inductive outcome :=
  | VALID (ticket : option ticket_row)
  | ALREADY_USED (ticket : ticket_row)
  | NOT_FOUND.

(** The part of the handler that runs once the scanner key is known: the
    conditional update, then [loadTicketRow] on either branch. *)
Definition redeem (st : store) (tok : uuid) (key : scanner_key) (now : timestamp)
    : store * outcome :=
  let ev := sk_event_id key in
  let '(st', rowCount) := update_redeem st tok ev (sk_id key) now in
  if Nat.eqb rowCount 1 then (st', VALID (loadTicketRow st' tok ev))
  else
    match loadTicketRow st' tok ev with
    | None => (st', NOT_FOUND)
    | Some row => (st', ALREADY_USED row)
    end.

(** [auth.match(/^Bearer\s+(.+)$/i)], then [m?.[1]?.trim() || null].  The
    capture is what follows the white space after the scheme; it must be
    non-empty and hold no line terminator. *)
Definition is_line_terminator (c : ascii) : bool :=
  (Js.code c =? 10)%N || (Js.code c =? 13)%N.

Definition parse_bearer (auth : string) : option string :=
  let l := Js.chars auth in
  if Js.starts_with (Js.chars "bearer") (map Js.lower_char (take 6 l)) then
    match drop 6 l with
    | c :: _ =>
        if Js.is_space c then
          match Js.drop_spaces (drop 6 l) with
          | [] => None
          | rest =>
              if existsb is_line_terminator rest then None
              else Some (Js.of_chars (Js.trim_chars rest))
          end
        else None
    | [] => None
    end
  else None.

Record request := mkRequest {
  authorization : option string;   (* the Authorization header *)
  ticketId : option string         (* the member of the JSON body *)
}.

Inductive body :=
  | Failure (error : string)
  | Scanned (status : outcome).

Record response := mkResponse { http_status : nat; payload : body }.

(** The statements the handler sends to the store, with their parameters as
    the handler binds them. *)
Inductive query :=
  | SelectScannerKey (key_hash : string)
  | UpdateTicketUsed (ticket_id event_id key_id : string)
  | SelectTicketRow (ticket_id event_id : string).

Section Handler.

(** [crypto.createHash("sha256").update(token, "utf8").digest("hex")] *)
Variable sha256_hex : string -> string.

(** [select id, event_id from scanner_keys where key_hash = $1 and
    active = true and (expires_at is null or expires_at > now()) limit 1] *)
Definition select_scanner_key (st : store) (hash : string) (now : timestamp)
    : option scanner_key :=
  find (fun sk =>
          bool_decide (sk_key_hash sk = hash) && sk_active sk &&
          match sk_expires_at sk with
          | None => true
          | Some e => (now <? e)%Z
          end)
       (scanner_keys st).

(** The handler, against a reachable store.  [t_auth] and [t_scan] are the
    readings of [now()] in the key lookup and in the update. *)
Definition POST (st : store) (t_auth t_scan : timestamp) (req : request)
    : store * response * list query :=
  match parse_bearer (default "" (authorization req)) with
  | None =>
      (st, mkResponse 401 (Failure "Missing Authorization Bearer token"), [])
  | Some token =>
      match ticketId req with
      | None => (st, mkResponse 400 (Failure "ticketId is required"), [])
      | Some id =>
          if bool_decide (id = "")
          then (st, mkResponse 400 (Failure "ticketId is required"), [])
          else
            let hash := sha256_hex token in
            match select_scanner_key st hash t_auth with
            | None =>
                (st, mkResponse 403 (Failure "Invalid scanner key"),
                 [SelectScannerKey hash])
            | Some key =>
                let upd := UpdateTicketUsed id (sk_event_id key) (sk_id key) in
                match uuid_in id with
                | None =>
                    (* the store raises on the text of [$1]; the catch block
                       answers with the message *)
                    (st, mkResponse 500 (Failure "invalid input syntax for type uuid"),
                     [SelectScannerKey hash; upd])
                | Some tok =>
                    let '(st', o) := redeem st tok key t_scan in
                    (st', mkResponse 200 (Scanned o),
                     [SelectScannerKey hash; upd;
                      SelectTicketRow id (sk_event_id key)])
                end
            end
      end
  end.

End Handler.

End Validate.

(** ** JSON values of request bodies *)

Module Json.

(** A number is given by its decimal rendering [String(n)]; both zeros
    render as [0]. *)
#[local] Unset Elimination Schemes.
Inductive value :=
  | Null
  | Bool (b : bool)
  | Num (rendering : string)
  | Str (s : string)
  | Arr (items : list value)
  | Obj (members : list (string * value)).
#[local] Set Elimination Schemes.

(** A member of a parsed body: [None] is [undefined]. *)
Definition member := option value.

(** [a ?? b] *)
Definition nullish (a b : member) : member :=
  match a with
  | None | Some Null => b
  | Some _ => a
  end.

(** [!!v] *)
Definition truthy (m : member) : bool :=
  match m with
  | None | Some Null => false
  | Some (Bool b) => b
  | Some (Num r) => negb (bool_decide (r = "0") || bool_decide (r = "NaN"))
  | Some (Str s) => negb (bool_decide (s = ""))
  | Some (Arr _) | Some (Obj _) => true
  end.

(** [v?.key]: the member of an object; the last of several equal keys is the
    one a parsed object keeps.  Any other value has no such member. *)
Definition get (v : member) (key : string) : member :=
  match v with
  | Some (Obj members) =>
      snd <$> find (fun kv => bool_decide (fst kv = key)) (rev members)
  | _ => None
  end.

Definition join_with (sep : string) (parts : list string) : string :=
  match parts with
  | [] => ""
  | p :: ps => fold_left (fun acc q => acc +:+ sep +:+ q) ps p
  end.

(** [String(v)] *)
Fixpoint to_String (v : value) : string :=
  match v with
  | Null => "null"
  | Bool true => "true"
  | Bool false => "false"
  | Num r => r
  | Str s => s
  | Arr items =>
      join_with ","
        (map (fun i => match i with Null => "" | _ => to_String i end) items)
  | Obj _ => "[object Object]"
  end.

(** [String(m ?? fallback)] *)
Definition to_String_or (m : member) (fallback : string) : string :=
  match m with
  | None | Some Null => fallback
  | Some v => to_String v
  end.

End Json.

(** [Array.from(new Set(l))]: the elements of [l] in the order of their first
    occurrence. *)
Fixpoint set_order_from (seen l : list string) : list string :=
  match l with
  | [] => []
  | x :: r =>
      if bool_decide (x ∈ seen) then set_order_from seen r
      else x :: set_order_from (x :: seen) r
  end.

Definition array_from_set (l : list string) : list string := set_order_from [] l.

(** ** Administrative burn: [POST /api/admin/tickets/burn] *)

Module Burn.

Import Token Store.

Record env := mkEnv {
  ADMIN_API_KEY : option string;
  ISSUE_API_KEY : option string
}.

Record request := mkRequest {
  authorization : option string;
  ticketId : Json.member;
  ticketIds : Json.member
}.

Definition string_items (items : list Json.value) : list string :=
  omap (fun v => match v with Json.Str s => Some s | _ => None end) items.

(** [ids] of [normalizeTicketIds] before it is trimmed and filtered: the
    input itself when it is a string, its string items when it is an array. *)
Definition pushed (input : Json.member) : list string :=
  match input with
  | Some (Json.Str s) => [s]
  | Some (Json.Arr items) => string_items items
  | _ => []
  end.

Definition normalizeTicketIds (input : Json.member) : list string :=
  array_from_set (filter (fun s => uuid_test s = true) (map Js.trim (pushed input))).

Inductive body :=
  | Failure (error : string)
  | Burned (burned : nat) (rows : list (uuid * bool)).

Record response := mkResponse { http_status : nat; payload : body }.

(** [requireAdminAuth]: [None] when the request may proceed. *)
Definition requireAdminAuth (e : env) (req : request) : option response :=
  let requiredKey :=
    Js.trim (default "" (match ADMIN_API_KEY e with
                         | Some k => Some k
                         | None => ISSUE_API_KEY e
                         end)) in
  if bool_decide (requiredKey = "")
  then Some (mkResponse 500 (Failure "Admin auth not configured"))
  else
    match Validate.parse_bearer (default "" (authorization req)) with
    | Some token =>
        if bool_decide (token = requiredKey) then None
        else Some (mkResponse 401 (Failure "Unauthorized"))
    | None => Some (mkResponse 401 (Failure "Unauthorized"))
    end.

(** The cast [$1::uuid[]]: every element is read as a uuid, and one that is
    not makes the statement fail. *)
Definition uuid_array_in (ids : list string) : option (list uuid) :=
  mapM uuid_in ids.

(** The handler past the authorization check, against a reachable store. *)
Definition forceBurn (st : store) (now : timestamp) (req : request)
    : store * response :=
  let ids := normalizeTicketIds (Json.nullish (ticketIds req) (ticketId req)) in
  match ids with
  | [] => (st, mkResponse 400 (Failure "ticketId or ticketIds (UUID) is required"))
  | _ =>
      match uuid_array_in ids with
      | None => (st, mkResponse 500 (Failure "invalid input syntax for type uuid"))
      | Some us =>
          let '(st', returned) := update_burn st us now in
          (st', mkResponse 200 (Burned (length returned) (map (fun i => (i, true)) returned)))
      end
  end.

Definition POST (e : env) (st : store) (now : timestamp) (req : request)
    : store * response :=
  match requireAdminAuth e req with
  | Some res => (st, res)
  | None => forceBurn st now req
  end.

End Burn.

(** ** Ticket lookup: [GET /api/tickets/get] *)

Module Get.

Import Token Store.

Record row := mkRow {
  g_id : uuid;
  g_email : string;
  g_name : option string;
  g_used : bool;
  g_used_at : option timestamp;
  g_issued_at : timestamp;
  g_ticket_type : string;
  g_price_isk : Z;
  g_event_name : string;
  g_starts_at : option timestamp;
  g_ends_at : option timestamp;
  g_venue : option string
}.

Inductive body :=
  | Failure (error : string)
  | Found (ticket : row).

Record response := mkResponse { http_status : nat; payload : body }.

Inductive query := SelectTicket (id : string).

(** The select over [tickets], [ticket_types] and [events] with
    [where t.id = $1 limit 1]. *)
Definition select_ticket (st : store) (tok : uuid) : option row :=
  match tickets st !! tok with
  | Some t =>
      match ticket_types st !! ticket_type_id t with
      | Some ty =>
          match events st !! tt_event_id ty with
          | Some e =>
              Some (mkRow tok (email t) (name t) (used t) (used_at t) (issued_at t)
                      (tt_name ty) (tt_price_isk ty)
                      (ev_name e) (ev_starts_at e) (ev_ends_at e) (ev_venue e))
          | None => None
          end
      | None => None
      end
  | None => None
  end.

(** The handler; [id] is [url.searchParams.get("id")]. *)
Definition GET (st : store) (id : option string) : response * list query :=
  match id with
  | None => (mkResponse 400 (Failure "Missing query param: id"), [])
  | Some s =>
      if bool_decide (s = "")
      then (mkResponse 400 (Failure "Missing query param: id"), [])
      else if negb (uuid_test s)
      then (mkResponse 400 (Failure "Invalid id (expected UUID)"), [])
      else
        match uuid_in s with
        | None =>
            (mkResponse 500 (Failure "invalid input syntax for type uuid"),
             [SelectTicket s])
        | Some tok =>
            match select_ticket st tok with
            | None => (mkResponse 404 (Failure "NOT_FOUND"), [SelectTicket s])
            | Some r => (mkResponse 200 (Found r), [SelectTicket s])
            end
        end
  end.

End Get.

(** ** Issuance: [POST /api/tickets/issue] *)

Module Issue.

Import Token Store.

Definition toBooleanOrUndefined (value : Json.member) : option bool :=
  match value with
  | None | Some Json.Null => None
  | Some (Json.Bool b) => Some b
  | Some (Json.Num r) => Some (negb (bool_decide (r = "0")))
  | Some (Json.Str v) =>
      let s := Js.toLowerCase (Js.trim v) in
      if bool_decide (s = "") then None
      else if bool_decide (s ∈ ["1"; "true"; "yes"; "y"; "on"]) then Some true
      else if bool_decide (s ∈ ["0"; "false"; "no"; "n"; "off"]) then Some false
      else None
  | Some _ => None
  end.

Record env := mkEnv {
  ISSUE_API_KEY : option string;
  TICKETS_PUBLIC_BASE_URL : option string;
  EMAIL_SENDER : option string;
  RESEND_FROM : option string;
  EMAIL_REPLY_TO : option string;
  RESEND_REPLY_TO : option string
}.

Record request := mkRequest {
  origin : string;                  (* [new URL(req.url).origin] *)
  authorization : option string;
  ticketTypeId : option string;
  email : option string;
  name : option string;
  linkOnly : Json.member;
  skipEmail : Json.member
}.

Record attachment := mkAttachment {
  filename : string;
  content_base64 : string;
  contentType : string
}.

(** The message handed to [sendMail]; the html alternative repeats the data
    of [text] and is left out. *)
Record mail := mkMail {
  mail_from : string;
  mail_to : string;
  mail_replyTo : option string;
  mail_subject : string;
  mail_text : string;
  mail_attachments : list attachment
}.

(** The collaborators of the handler.  A call that can throw returns [inl]
    with the message of the exception. *)
Record collaborators := mkCollaborators {
  connect : option string;                        (* [client.connect()]: the error, if any *)
  new_id : uuid;                                  (* the id the store draws for the insert *)
  qr_png_base64 : string -> string + string;      (* [QRCode.toBuffer(..).toString("base64")] *)
  getSmtpTransport : option string;               (* the error of [getSmtpTransport()], if any *)
  sendMail : mail -> string + string              (* [transporter.sendMail]: [messageId] *)
}.

Inductive email_result :=
  | EmailSent (id : string)
  | EmailFailed (error : string) (skipped : option bool).

Record issued := mkIssued {
  ticketId : uuid;
  ticketUrl : string;
  issuedAt : timestamp;
  subject : string;
  emailMeta : option (string * option string);
  email_sub_result : email_result
}.

Inductive body :=
  | Failure (error : string)
  | Issued (r : issued).

Record response := mkResponse { http_status : nat; payload : body }.

(** What the handler did besides answering. *)
Inductive effect :=
  | QrGenerated (payload : string)
  | MailHanded (m : mail).

Definition subjectLine : string := "Þinn miði á Árshátíð FV!".

Definition newline : string := String (ascii_of_N 10) EmptyString.

(** The select of the ticket type joined with its event, [limit 1]. *)
Definition select_ticket_type (st : store) (type_id : uuid) : option ticket_type :=
  match ticket_types st !! type_id with
  | Some ty =>
      match events st !! tt_event_id ty with
      | Some _ => Some ty
      | None => None
      end
  | None => None
  end.

Definition compose (from to_ : string) (replyTo : string) (greeting url id : string)
    (atts : list attachment) : mail :=
  mkMail from to_ (if bool_decide (replyTo = "") then None else Some replyTo)
    subjectLine
    (subjectLine +:+ newline +:+ newline +:+ greeting +:+ "." +:+ newline +:+ newline
       +:+ "Opna miða: " +:+ url +:+ newline +:+ newline +:+ "Miða-ID: " +:+ id)
    atts.

(** The notification step: [skipEmail], the transport, the message, and the
    inner [try]/[catch] around them. *)
Definition notify (e : env) (w : collaborators) (req : request) (to_ : string)
    (id url : string) (shouldAttachQr : bool) (qrPngBase64 : option string)
    : option (string * option string) * email_result * list effect :=
  if default false (toBooleanOrUndefined (skipEmail req))
  then (None, EmailFailed "Skipped" (Some true), [])
  else
    let from :=
      default "mailtrap@nord.is"
        (match EMAIL_SENDER e with Some s => Some s | None => RESEND_FROM e end) in
    let replyTo :=
      Js.trim (default ""
        (match EMAIL_REPLY_TO e with Some s => Some s | None => RESEND_REPLY_TO e end)) in
    let meta := Some (from, if bool_decide (replyTo = "") then None else Some replyTo) in
    match getSmtpTransport w with
    | Some err => (meta, EmailFailed err (Some true), [])
    | None =>
        let safeName := Js.trim (default "" (name req)) in
        let greeting := if bool_decide (safeName = "") then "Hæ" else "Hæ " +:+ safeName in
        let atts :=
          match qrPngBase64 with
          | Some png =>
              if shouldAttachQr && negb (bool_decide (png = ""))
              then [mkAttachment ("ticket-" +:+ id +:+ ".png") png "image/png"]
              else []
          | None => []
          end in
        let m := compose from to_ replyTo greeting url id atts in
        match sendMail w m with
        | inr messageId => (meta, EmailSent messageId, [MailHanded m])
        | inl message => (meta, EmailFailed message None, [MailHanded m])
        end
    end.

(** The handler.  An exception outside the inner [try] reaches the outer
    [catch], which answers 500 with the message. *)
Definition POST (e : env) (w : collaborators) (st : store) (now : timestamp)
    (req : request) : store * response * list effect :=
  let unauthorized :=
    match ISSUE_API_KEY e with
    | Some requiredKey =>
        if bool_decide (requiredKey = "") then false
        else
          match Validate.parse_bearer (default "" (authorization req)) with
          | Some token => negb (bool_decide (token = requiredKey))
          | None => true
          end
    | None => false
    end in
  if unauthorized then (st, mkResponse 401 (Failure "Unauthorized"), [])
  else
    match ticketTypeId req, email req with
    | Some type_text, Some to_ =>
        if bool_decide (type_text = "") || bool_decide (to_ = "")
        then (st, mkResponse 400 (Failure "ticketTypeId and email are required"), [])
        else
          match connect w with
          | Some err => (st, mkResponse 500 (Failure err), [])
          | None =>
              match uuid_in type_text with
              | None =>
                  (st, mkResponse 500 (Failure "invalid input syntax for type uuid"), [])
              | Some type_id =>
                  match select_ticket_type st type_id with
                  | None => (st, mkResponse 400 (Failure "Invalid ticketTypeId"), [])
                  | Some _ =>
                      match tickets st !! new_id w with
                      | Some _ =>
                          (st, mkResponse 500
                                 (Failure "duplicate key value violates unique constraint"), [])
                      | None =>
                          let st' := insert_ticket st (new_id w) type_id to_ (name req) now in
                          let id := new_id w in
                          let publicBase := default (origin req) (TICKETS_PUBLIC_BASE_URL e) in
                          let url := publicBase +:+ "/t/" +:+ id in
                          let linkOnlyParsed := toBooleanOrUndefined (linkOnly req) in
                          let isLinkOnly := default true linkOnlyParsed in
                          let shouldAttachQr := negb isLinkOnly in
                          let qr :=
                            if shouldAttachQr then
                              match qr_png_base64 w id with
                              | inr png => inr (Some png, [QrGenerated id])
                              | inl message => inl message
                              end
                            else inr (None, []) in
                          match qr with
                          | inl message => (st', mkResponse 500 (Failure message), [])
                          | inr (qrPngBase64, fx) =>
                              let '(meta, result, fx') :=
                                notify e w req to_ id url shouldAttachQr qrPngBase64 in
                              (st',
                               mkResponse 200
                                 (Issued (mkIssued id url now subjectLine meta result)),
                               (fx ++ fx')%list)
                          end
                      end
                  end
              end
          end
    | _, _ => (st, mkResponse 400 (Failure "ticketTypeId and email are required"), [])
    end.

End Issue.

(** ** Ticket type keywords *)

Module Resolver.

(** [.replace(/\s+/g, " ")]: every run of white space becomes one space.
    [in_run] tells that the previous character was white space. *)
Fixpoint collapse_from (in_run : bool) (l : list ascii) : list ascii :=
  match l with
  | [] => []
  | c :: r =>
      if Js.is_space c
      then (if in_run then collapse_from true r else " "%char :: collapse_from true r)
      else c :: collapse_from false r
  end.

Definition collapse_spaces (l : list ascii) : list ascii := collapse_from false l.

(** route.ts *)
Definition normalizeTicketTypeKey (value : option string) : string :=
  Js.of_chars (collapse_spaces (Js.chars
    (Js.nfkd_strip_marks (Js.toLowerCase (Js.trim (default "" value)))))).

Definition isFoodAndBallTicketType (normalizedKey : string) : bool :=
  let hasBall := Js.word_test "ball" normalizedKey in
  let hasFood := Js.word_test "matur" normalizedKey || Js.word_test "mat" normalizedKey in
  hasBall && hasFood.

Definition isJustBallTicketType (normalizedKey : string) : bool :=
  if bool_decide (normalizedKey = "ball") then true
  else Js.word_test "bara" normalizedKey && Js.word_test "ball" normalizedKey.

(** The branch [formatSubjectStart] takes on the key of a ticket type: the
    combined type, the dance-only type, or neither (the time then comes from
    the event). *)
Inductive category := FoodAndBall | JustBall | NoMatch.

Definition categorize (key : string) : category :=
  if isFoodAndBallTicketType key then FoodAndBall
  else if isJustBallTicketType key then JustBall
  else NoMatch.

(** [time] of [formatSubjectStart], given the time read off [startsAt]. *)
Definition subjectTime (ticketType : string) (timeFromStartsAt : string) : string :=
  match categorize (normalizeTicketTypeKey (Some ticketType)) with
  | FoodAndBall => "18:30"
  | JustBall => "21:00"
  | NoMatch => timeFromStartsAt
  end.

(** send-paid-link-tickets.mjs *)
Definition stripDiacriticsLower (s : string) : string :=
  Js.nfkd_strip_marks (Js.toLowerCase (Js.trim s)).

(** [wantedTypeName] in the row loop of [main]; the empty string is the row
    that is skipped. *)
Definition wantedTypeName (ticketChoiceKey : string) : string :=
  if Js.includes ticketChoiceKey "mat" && Js.includes ticketChoiceKey "ball"
  then "Matur + ball"
  else if Js.includes ticketChoiceKey "ball" then "Bara ball"
  else "".

Definition resolveChoice (ticketChoice : string) : string :=
  wantedTypeName (stripDiacriticsLower (Js.trim ticketChoice)).

End Resolver.

(** ** The retrying fetch of the bulk sender *)

Module Retry.

Local Open Scope nat_scope.

(** What one [fetch] gives: a response with its status and parsed body
    ([None] when the body is not JSON), or a network-level failure with the
    message of the exception. *)
Inductive attempt_outcome :=
  | Responded (status : nat) (body : option Json.value)
  | NetworkFailure (message : string).

Record result := mkResult {
  ok : bool;
  status : nat;
  json : Json.value
}.

Inductive event :=
  | Fetch (attempt : nat)
  | Sleep (ms : Z).

Record opts := mkOpts {
  maxAttempts : option nat;
  baseDelayMs : option Z
}.

(** [res.ok] *)
Definition status_ok (s : nat) : bool := (200 <=? s) && (s <=? 299).

Definition shouldRetry (s : nat) : bool := (s =? 429) || (500 <=? s).

(** [Math.round(baseDelayMs * Math.pow(2, attempt - 1))] for an integral
    base delay *)
Definition delay (base : Z) (attempt : nat) : Z :=
  (base * 2 ^ Z.of_nat (attempt - 1))%Z.

Definition json_or_empty (body : option Json.value) : Json.value :=
  default (Json.Obj []) body.

(** The value returned after the loop. *)
Definition gave_up (lastErr : option string) : result :=
  mkResult false 0
    (Json.Obj [("ok", Json.Bool false);
               ("error", Json.Str (default "null" lastErr))]).

(** The [for] loop from [attempt] on; [remaining] counts the iterations left,
    [maxAttempts - attempt + 1]. *)
Fixpoint attempts (net : nat -> attempt_outcome) (max : nat) (base : Z)
    (remaining attempt : nat) (lastErr : option string) : result * list event :=
  match remaining with
  | 0 => (gave_up lastErr, [])
  | S remaining' =>
      match net attempt with
      | Responded s body =>
          if status_ok s then (mkResult true s (json_or_empty body), [Fetch attempt])
          else if negb (shouldRetry s) || (attempt =? max)
          then (mkResult false s (json_or_empty body), [Fetch attempt])
          else
            let '(r, tr) := attempts net max base remaining' (S attempt) lastErr in
            (r, Fetch attempt :: Sleep (delay base attempt) :: tr)
      | NetworkFailure message =>
          if attempt =? max then (gave_up (Some message), [Fetch attempt])
          else
            let '(r, tr) := attempts net max base remaining' (S attempt) (Some message) in
            (r, Fetch attempt :: Sleep (delay base attempt) :: tr)
      end
  end.

Definition fetchJsonWithRetry (net : nat -> attempt_outcome) (o : opts)
    : result * list event :=
  let max := default 5 (maxAttempts o) in
  let base := default 800%Z (baseDelayMs o) in
  attempts net max base max 1 None.

(** A transient failure: a rate-limit or server-error status, or a failure
    of the network. *)
Definition transient (o : attempt_outcome) : bool :=
  match o with
  | Responded s _ => negb (status_ok s) && shouldRetry s
  | NetworkFailure _ => true
  end.

(** [n] attempts from [a] on, each followed by its pause. *)
Fixpoint retried (base : Z) (a n : nat) : list event :=
  match n with
  | 0 => []
  | S n' => Fetch a :: Sleep (delay base a) :: retried base (S a) n'
  end.

(** The trace of a call that ends with its [k]-th attempt. *)
Definition backoff (base : Z) (k : nat) : list event :=
  (retried base 1 (k - 1) ++ [Fetch k])%list.

End Retry.

(** ** The bulk sender: [scripts/send-paid-link-tickets.mjs] *)

Module Pipeline.

Import Retry.

Definition normalizeEmail (s : string) : string := Js.toLowerCase (Js.trim s).

Definition isYesIcelandic (s : string) : bool :=
  let v := Resolver.stripDiacriticsLower s in
  bool_decide (v = "ja") || bool_decide (v = "já") || bool_decide (v = "ja,").

(** [/.+@.+\..+/.test(v)]: a character that is not a line terminator, an at
    sign, a run of one or more such characters, a dot and one more such
    character. *)
Fixpoint dot_then_char (l : list ascii) : bool :=
  match l with
  | [] => false
  | c :: r =>
      if Validate.is_line_terminator c then false
      else
        (bool_decide (c = "."%char) &&
         match r with
         | d :: _ => negb (Validate.is_line_terminator d)
         | [] => false
         end)
        || dot_then_char r
  end.

Definition after_at (l : list ascii) : bool :=
  match l with
  | c :: r => negb (Validate.is_line_terminator c) && dot_then_char r
  | [] => false
  end.

Fixpoint email_from (prev : option ascii) (l : list ascii) : bool :=
  match l with
  | [] => false
  | c :: r =>
      (bool_decide (c = "@"%char) &&
       match prev with
       | Some p => negb (Validate.is_line_terminator p)
       | None => false
       end && after_at r)
      || email_from (Some c) r
  end.

Definition isProbablyEmail (s : string) : bool :=
  email_from None (Js.chars (Js.trim s)).

Definition dquote : ascii := ascii_of_N 34.

(** [parseCsvLine]; [cur] and [out] are kept in reverse. *)
Fixpoint parseCsvLine_from (l cur : list ascii) (inQuotes : bool) (out : list string)
    : list string :=
  match l with
  | [] => rev (Js.of_chars (rev cur) :: out)
  | ch :: r =>
      if inQuotes then
        if bool_decide (ch = dquote) then
          match r with
          | next :: r' =>
              if bool_decide (next = dquote)
              then parseCsvLine_from r' (dquote :: cur) true out
              else parseCsvLine_from r cur false out
          | [] => parseCsvLine_from r cur false out
          end
        else parseCsvLine_from r (ch :: cur) true out
      else if bool_decide (ch = ","%char)
      then parseCsvLine_from r [] false (Js.of_chars (rev cur) :: out)
      else if bool_decide (ch = dquote) then parseCsvLine_from r cur true out
      else parseCsvLine_from r (ch :: cur) false out
  end.

Definition parseCsvLine (line : string) : list string :=
  parseCsvLine_from (Js.chars line) [] false [].

(** [raw.split(/\r?\n/)]; [cur] is kept in reverse. *)
Fixpoint split_lines_from (l cur : list ascii) : list string :=
  match l with
  | [] => [Js.of_chars (rev cur)]
  | c :: r =>
      if (Js.code c =? 10)%N then
        let cur' :=
          match cur with
          | p :: q => if (Js.code p =? 13)%N then q else cur
          | [] => cur
          end in
        Js.of_chars (rev cur') :: split_lines_from r []
      else split_lines_from r (c :: cur)
  end.

Definition split_lines (raw : string) : list string :=
  split_lines_from (Js.chars raw) [].

(** [header.indexOf(name)], [None] for [-1] *)
Fixpoint indexOf (name : string) (header : list string) : option nat :=
  match header with
  | [] => None
  | h :: r => if bool_decide (h = name) then Some 0 else S <$> indexOf name r
  end.

(** [cols[i] ?? ""] *)
Definition col (cols : list string) (i : nat) : string := default "" (cols !! i).

Record row := mkRow {
  email : string;
  name : option string;
  wantedTypeName : string;
  ticketTypeId : Json.value
}.

(** A line of the ledger file: a line that [JSON.parse] gives a value for, or
    any other text (blank lines included).  A record the sender appends is
    read back as the value that was written. *)
Inductive line :=
  | Entry (v : Json.value)
  | Other.

Definition readJsonlSet (log : list line) : gset string :=
  foldl (fun sent l =>
           match l with
           | Entry obj =>
               if Json.truthy (Json.get (Some obj) "ok") &&
                  Json.truthy (Json.get (Some obj) "email")
               then {[ normalizeEmail (Json.to_String_or (Json.get (Some obj) "email") "") ]} ∪ sent
               else sent
           | Other => sent
           end) ∅ log.

(** A line marks the address [x] as sent: it is an entry with a truthy [ok]
    and a truthy [email] that normalises to [x]. *)
Definition marks (x : string) (l : line) : Prop :=
  ∃ obj, l = Entry obj ∧
         Json.truthy (Json.get (Some obj) "ok") = true ∧
         Json.truthy (Json.get (Some obj) "email") = true ∧
         x = normalizeEmail (Json.to_String_or (Json.get (Some obj) "email") "").

(** An object literal as [JSON.stringify] writes it: members that are
    [undefined] are left out. *)
Definition object (members : list (string * Json.member)) : Json.value :=
  Json.Obj (omap (fun kv => match snd kv with
                            | Some v => Some (fst kv, v)
                            | None => None
                            end) members).

Definition skipDefault : list string :=
  map normalizeEmail ["ros30@hi.is"; "hfd2@hi.is"; "ilv3@hi.is"; "emj38@hi.is"; "eto5@hi.is"].

Record config := mkConfig {
  csv : option string;          (* the content of the file at [--csv], if it exists *)
  delayMs : Z;
  dryRun : bool;
  max : nat;                    (* 0 when [--max] is absent or not a positive number *)
  skipFromCli : list string     (* the addresses of [--skip], split *)
}.

(** [typeIdByName] *)
Definition typeIdByName (typesRows : list Json.value) : gmap string Json.value :=
  foldl (fun m r =>
           let nm := Js.trim (Json.to_String_or (Json.get (Some r) "name") "") in
           match Json.get (Some r) "id" with
           | Some id =>
               if negb (bool_decide (nm = "")) && Json.truthy (Some id)
               then <[Resolver.stripDiacriticsLower nm := id]> m else m
           | None => m
           end) ∅ typesRows.

(** The body of the row loop: the row kept for a line of the file, if any. *)
Definition paidRow (skip : gset string) (types : gmap string Json.value)
    (idxName idxEmail idxType idxPaid : nat) (ln : string) : option row :=
  let cols := parseCsvLine ln in
  if negb (isYesIcelandic (col cols idxPaid)) then None
  else
    let email := normalizeEmail (col cols idxEmail) in
    if bool_decide (email = "") || negb (isProbablyEmail email) then None
    else if bool_decide (email ∈ skip) then None
    else
      let fullName := Js.trim (col cols idxName) in
      let wanted := Resolver.resolveChoice (col cols idxType) in
      if bool_decide (wanted = "") then None
      else
        match types !! Resolver.stripDiacriticsLower wanted with
        | Some wantedId =>
            if Json.truthy (Some wantedId)
            then Some (mkRow email
                         (if bool_decide (fullName = "") then None else Some fullName)
                         wanted wantedId)
            else None
        | None => None
        end.

(** Dedupe by email, keeping the first occurrence. *)
Fixpoint dedupe_from (seen : gset string) (rows : list row) : list row :=
  match rows with
  | [] => []
  | r :: rest =>
      if bool_decide (email r ∈ seen) then dedupe_from seen rest
      else r :: dedupe_from ({[ email r ]} ∪ seen) rest
  end.

Definition dedupe (rows : list row) : list row := dedupe_from ∅ rows.

Definition issueBody (r : row) : Json.value :=
  object [("ticketTypeId", Some (ticketTypeId r));
          ("email", Some (Json.Str (email r)));
          ("name", Json.Str <$> name r);
          ("linkOnly", Some (Json.Bool true))].

(** The record appended for a row, from the result of its call. *)
Definition ledgerRecord (startedAt : string) (r : row) (res : result) : Json.value :=
  if negb (ok res) || negb (Json.truthy (Json.get (Some (json res)) "ok")) then
    object [("ok", Some (Json.Bool false));
            ("startedAt", Some (Json.Str startedAt));
            ("email", Some (Json.Str (email r)));
            ("name", Json.Str <$> name r);
            ("ticketType", Some (Json.Str (wantedTypeName r)));
            ("status", Some (Json.Num (pretty (status res))));
            ("error", Some (default (json res)
                              (Json.nullish (Json.get (Some (json res)) "error") None)))]
  else
    object [("ok", Some (Json.Bool true));
            ("startedAt", Some (Json.Str startedAt));
            ("email", Some (Json.Str (email r)));
            ("name", Json.Str <$> name r);
            ("ticketType", Some (Json.Str (wantedTypeName r)));
            ("ticketId", Json.get (Some (json res)) "ticketId");
            ("ticketUrl", Json.get (Some (json res)) "ticketUrl");
            ("emailResult", Json.get (Some (json res)) "email")].

(** What a run leaves behind: the ledger, the bodies posted to the issue
    endpoint in order, and [sentCount]. *)
Record outcome := mkOutcome {
  log : list line;
  calls : list Json.value;
  sentCount : nat
}.

(** The send loop over [pending.slice(0, limit)].  [net i] answers the
    attempts of the call for the row at position [i]; [clock i] is its
    [startedAt].  The record of a row is appended before the next row is
    taken; the pauses between rows are not part of the outcome. *)
Fixpoint send (net : nat -> nat -> attempt_outcome) (clock : nat -> string)
    (i : nat) (rows : list row) (acc : outcome) : outcome :=
  match rows with
  | [] => acc
  | r :: rest =>
      let res := fst (fetchJsonWithRetry (net i) (mkOpts (Some 6) (Some 800%Z))) in
      let rec := ledgerRecord (clock i) r res in
      let sent :=
        if negb (ok res) || negb (Json.truthy (Json.get (Some (json res)) "ok"))
        then sentCount acc else S (sentCount acc) in
      send net clock (S i) rest
        (mkOutcome (log acc ++ [Entry rec])%list (calls acc ++ [issueBody r])%list sent)
  end.

(** The result of the call for the row at position [i], and whether the
    loop counts it as sent. *)
Definition result_at (net : nat -> nat -> attempt_outcome) (i : nat) : result :=
  fst (fetchJsonWithRetry (net i) (mkOpts (Some 6) (Some 800%Z))).

Definition succeeded (res : result) : bool :=
  ok res && Json.truthy (Json.get (Some (json res)) "ok").

(** The records the loop appends for [rows], the first of them at position
    [i]. *)
Fixpoint records (net : nat -> nat -> attempt_outcome) (clock : nat -> string)
    (i : nat) (rows : list row) : list Json.value :=
  match rows with
  | [] => []
  | r :: rest => ledgerRecord (clock i) r (result_at net i) :: records net clock (S i) rest
  end.

Fixpoint successes (net : nat -> nat -> attempt_outcome) (i : nat) (rows : list row) : nat :=
  match rows with
  | [] => 0
  | _ :: rest => (if succeeded (result_at net i) then 1 else 0) + successes net (S i) rest
  end.

(** A record with [ok = true]. *)
Definition ok_record (v : Json.value) : Prop :=
  Json.get (Some v) "ok" = Some (Json.Bool true).

(** The address a posted body is for. *)
Definition recipient (body : Json.value) : string :=
  normalizeEmail (Json.to_String_or (Json.get (Some body) "email") "").

(** The rows of the file that are paid, addressed, not skipped and typed;
    [inl] is the exit code of a run that stops before. *)
Definition eligible (cfg : config) (typesRows : list Json.value) : nat + list row :=
  match csv cfg with
  | None => inl 2
  | Some raw =>
      let lines := filter (fun l => Js.trim l ≠ "") (split_lines raw) in
      match lines with
      | [] | [_] => inl 2
      | first :: data =>
          let header := parseCsvLine first in
          match indexOf "Fullt nafn" header, indexOf "HÍ email" header,
                indexOf "Hvernig miða ætlar þú að kaupa?" header,
                indexOf "Greiðsla komin?" header with
          | Some idxName, Some idxEmail, Some idxType, Some idxPaid =>
              let skip : gset string :=
                list_to_set (skipDefault ++ map normalizeEmail (skipFromCli cfg))%list in
              let types := typeIdByName typesRows in
              inr (dedupe (omap (paidRow skip types idxName idxEmail idxType idxPaid) data))
          | _, _, _, _ => inl 2
          end
      end
  end.

(** [main], from the process arguments read into [cfg], in two parts.
    [plan] is [main] up to [deduped]: the checks on the file, the call that
    loads the ticket types ([types_net] answers its attempts) and the row
    loop.  It gives [deduped], or the exit code of a run that stops there. *)
Definition plan (cfg : config) (types_net : nat -> attempt_outcome) : nat + list row :=
  match csv cfg with
  | None => inl 2
  | Some _ =>
      let typesRes := fst (fetchJsonWithRetry types_net (mkOpts None None)) in
      let typesRows :=
        match Json.get (Some (json typesRes)) "rows" with
        | Some (Json.Arr rows) => rows
        | _ => []
        end in
      match eligible cfg typesRows with
      | inl code => inl code
      | inr deduped =>
          if negb (ok typesRes) || negb (Json.truthy (Json.get (Some (json typesRes)) "ok"))
          then inl 1
          else inr deduped
      end
  end.

(** [pending.slice(0, limit)], or nothing in a dry run. *)
Definition to_send (cfg : config) (deduped : list row) (ledger : list line) : list row :=
  let alreadySent := readJsonlSet ledger in
  let pending := filter (fun r => email r ∉ alreadySent) deduped in
  if dryRun cfg then []
  else
    let limit := if (0 <? max cfg)%nat then max cfg else length pending in
    take limit pending.

Definition main (cfg : config) (types_net : nat -> attempt_outcome)
    (net : nat -> nat -> attempt_outcome) (clock : nat -> string)
    (ledger : list line) : nat + outcome :=
  match plan cfg types_net with
  | inl code => inl code
  | inr deduped =>
      inr (send net clock 0 (to_send cfg deduped ledger) (mkOutcome ledger [] 0))
  end.

End Pipeline.

(** ** Concurrent redemption *)

Module Race.

Import Token Store Validate.

Local Open Scope nat_scope.

(** A scan in flight: the key the handler found and the reading of [now()]
    in its update. *)
Record call := mkCall {
  c_key : scanner_key;
  c_now : timestamp
}.

(** Where a handler stands: before its update, between the update and
    [loadTicketRow], or done. *)
Inductive progress :=
  | Pending
  | Updated (rowCount : nat)
  | Answered (o : outcome).

(** The handlers share nothing but the store, and the store runs one
    statement at a time: a step is the next statement of one handler. *)
Definition state : Type := store * list progress.

Definition step (tok : uuid) (calls : list call) (i : nat) (s : state) : state :=
  let '(st, ps) := s in
  match calls !! i, ps !! i with
  | Some c, Some Pending =>
      let '(st', n) :=
        update_redeem st tok (sk_event_id (c_key c)) (sk_id (c_key c)) (c_now c) in
      (st', <[i := Updated n]> ps)
  | Some c, Some (Updated n) =>
      let row := loadTicketRow st tok (sk_event_id (c_key c)) in
      let o :=
        if Nat.eqb n 1 then VALID row
        else match row with
             | None => NOT_FOUND
             | Some r => ALREADY_USED r
             end in
      (st, <[i := Answered o]> ps)
  | _, _ => s
  end.

(** A schedule names the handler that moves at each step. *)
Definition run (tok : uuid) (calls : list call) (sched : list nat) (s : state) : state :=
  foldl (fun s i => step tok calls i s) s sched.

Definition start (st : store) (calls : list call) : state :=
  (st, replicate (length calls) Pending).

Fixpoint occurrences (i : nat) (sched : list nat) : nat :=
  match sched with
  | [] => 0
  | j :: r => (if Nat.eqb i j then 1 else 0) + occurrences i r
  end.

(** Every handler gets to run both of its statements. *)
Definition fair (calls : list call) (sched : list nat) : Prop :=
  ∀ i, i < length calls → 2 ≤ occurrences i sched.

(** The statements a handler has run. *)
Definition steps_done (p : progress) : nat :=
  match p with
  | Pending => 0
  | Updated _ => 1
  | Answered _ => 2
  end.

Definition done_at (s : state) (i : nat) : nat :=
  match s.2 !! i with
  | Some p => steps_done p
  | None => 0
  end.

(** The ticket [t] under [tok] is in the scope of the key of every call. *)
Definition in_scope (st : store) (t : ticket) (calls : list call) : Prop :=
  ∀ c, c ∈ calls →
    type_in_event st t (sk_event_id (c_key c)) = true ∧
    is_Some (events st !! sk_event_id (c_key c)).

(** The two shapes of a race on the unused ticket [t]: no handler has run
    its update yet, or the update of handler [w] went through and every
    other handler that ran its update changed no row. *)
Definition undecided (tok : uuid) (t : ticket) (s : state) : Prop :=
  tickets s.1 !! tok = Some t ∧ ∀ i p, s.2 !! i = Some p → p = Pending.

Definition role_ok (is_winner : bool) (p : progress) : Prop :=
  if is_winner then p = Updated 1 ∨ ∃ row, p = Answered (VALID row)
  else p = Pending ∨ p = Updated 0 ∨ ∃ row, p = Answered (ALREADY_USED row).

Definition won_by (tok : uuid) (t : ticket) (calls : list call) (w : nat) (s : state)
    : Prop :=
  ∃ c, calls !! w = Some c ∧
       tickets s.1 !! tok = Some (stamp_used t (c_now c) (sk_id (c_key c))) ∧
       ∀ i p, s.2 !! i = Some p → role_ok (bool_decide (i = w)) p.

Definition race_inv (st0 : store) (tok : uuid) (t : ticket) (calls : list call)
    (s : state) : Prop :=
  ticket_types s.1 = ticket_types st0 ∧ events s.1 = events st0 ∧
  length s.2 = length calls ∧
  (undecided tok t s ∨ ∃ w, won_by tok t calls w s).

End Race.

(** ** The state of a ticket *)

Module Lifecycle.

Import Token Store.

(** The invariant in the words of the data model: [used_at] and
    [used_by_key_id] are non-null if and only if [used = true]. *)
Definition stamped_iff_used (t : ticket) : Prop :=
  (is_Some (used_at t) ∧ is_Some (used_by_scanner_key_id t)) ↔ used t = true.

(** What the three writers keep: [used_at] is set exactly on a used ticket,
    and a ticket that names a scanner key is used. *)
Definition consistent (t : ticket) : Prop :=
  (is_Some (used_at t) ↔ used t = true) ∧
  (is_Some (used_by_scanner_key_id t) → used t = true).

Definition all_tickets (P : ticket → Prop) (st : store) : Prop :=
  ∀ tok t, tickets st !! tok = Some t → P t.

(** The operations that write to [tickets]. *)
Inductive operation :=
  | Issuance (e : Issue.env) (w : Issue.collaborators) (now : timestamp)
             (req : Issue.request)
  | Redemption (tok : uuid) (key : scanner_key) (now : timestamp)
  | AdministrativeBurn (now : timestamp) (req : Burn.request).

Definition apply (op : operation) (st : store) : store :=
  match op with
  | Issuance e w now req => (Issue.POST e w st now req).1.1
  | Redemption tok key now => (Validate.redeem st tok key now).1
  | AdministrativeBurn now req => (Burn.forceBurn st now req).1
  end.

End Lifecycle.

(** ** A small store to evaluate on *)

Module Sample.

Import Token Store.

Definition event_a : uuid := "aaaaaaaa-0000-4000-8000-000000000001".
Definition event_b : uuid := "bbbbbbbb-0000-4000-8000-000000000002".
Definition type_a : uuid := "aaaaaaaa-1111-4111-8111-000000000001".
Definition type_b : uuid := "bbbbbbbb-1111-4111-8111-000000000002".
Definition key_a_id : uuid := "aaaaaaaa-2222-4222-8222-000000000001".
Definition key_b_id : uuid := "bbbbbbbb-2222-4222-8222-000000000002".
Definition fresh : uuid := "3f2b8c1e-1a2b-4c3d-8e9f-0123456789ab".
Definition scanned : uuid := "3f2b8c1e-1a2b-4c3d-8e9f-0123456789ac".
Definition other_event : uuid := "3f2b8c1e-1a2b-4c3d-8e9f-0123456789ad".
Definition absent : uuid := "3f2b8c1e-1a2b-4c3d-8e9f-0123456789ae".

Definition key_a (digest : string -> string) : scanner_key :=
  mkScannerKey key_a_id (digest "secret-a") event_a true None (Some "Door A").
Definition key_b (digest : string -> string) : scanner_key :=
  mkScannerKey key_b_id (digest "secret-b") event_b true None (Some "Door B").

(** Two events with one ticket type each; an unused and a scanned ticket of
    event A and an unused ticket of event B. *)
Definition db (digest : string -> string) : store :=
  mkStore
    (<[fresh := mkTicket type_a "a@hi.is" (Some "Anna") false None None 10%Z]>
       (<[scanned := mkTicket type_a "b@hi.is" None true (Some 20%Z) (Some key_a_id) 11%Z]>
          (<[other_event := mkTicket type_b "c@hi.is" None false None None 12%Z]> ∅)))
    (<[type_a := mkTicketType event_a "Matur + ball" 9900%Z]>
       (<[type_b := mkTicketType event_b "Bara ball" 4900%Z]> ∅))
    (<[event_a := mkEvent "Arshatid" (Some 100%Z) None (Some "Gamla bio")]>
       (<[event_b := mkEvent "Vorball" None None None]> ∅))
    [key_a digest; key_b digest].

Definition id_digest (s : string) : string := s.

(** Three scans of the unused ticket through the key of event A. *)
Definition scans : list Race.call :=
  [Race.mkCall (key_a id_digest) 50%Z;
   Race.mkCall (key_a id_digest) 51%Z;
   Race.mkCall (key_a id_digest) 52%Z].

Definition fresh_ticket : ticket :=
  mkTicket type_a "a@hi.is" (Some "Anna") false None None 10%Z.

(** A scan whose payload is not a token, sent with the secret of key A. *)
Definition malformed_scan : Validate.request :=
  Validate.mkRequest (Some "Bearer secret-a") (Some "undefined").

Definition issue_env : Issue.env :=
  Issue.mkEnv None (Some "https://tickets.example") (Some "tickets@example.is")
    None None None.

(** An issue request that asks for the QR attachment. *)
Definition issue_with_qr : Issue.request :=
  Issue.mkRequest "https://tickets.example" None (Some type_a) (Some "d@hi.is")
    (Some "Dagny") (Some (Json.Bool false)) None.

(** The same request with no [linkOnly] member. *)
Definition issue_plain : Issue.request :=
  Issue.mkRequest "https://tickets.example" None (Some type_a) (Some "d@hi.is")
    (Some "Dagny") None None.

(** Collaborators that work, a QR encoder that throws, a mailer that
    throws. *)
Definition working : Issue.collaborators :=
  Issue.mkCollaborators None absent (λ _, inr "iVBORw0KGgo=") None (λ _, inr "<msg-1>").

Definition qr_broken : Issue.collaborators :=
  Issue.mkCollaborators None absent (λ _, inl "qr: encoder failed") None
    (λ _, inr "<msg-1>").

Definition smtp_broken : Issue.collaborators :=
  Issue.mkCollaborators None absent (λ _, inr "iVBORw0KGgo=") None
    (λ _, inl "connect ECONNREFUSED").

(** A burn request naming the scanned ticket twice (once padded, once in
    upper case), a string that is no token and a number. *)
(** A service that answers 503, then drops the connection, then answers 200;
    one that answers 400; one that answers 500 every time. *)
Definition flaky (attempt : nat) : Retry.attempt_outcome :=
  match attempt with
  | 1 => Retry.Responded 503 None
  | 2 => Retry.NetworkFailure "fetch failed"
  | _ => Retry.Responded 200 (Some (Json.Obj [("ok", Json.Bool true)]))
  end.

Definition rejecting (attempt : nat) : Retry.attempt_outcome :=
  Retry.Responded 400 (Some (Json.Obj [("ok", Json.Bool false)])).

Definition down (attempt : nat) : Retry.attempt_outcome :=
  Retry.Responded 500 None.

Definition six_attempts : Retry.opts := Retry.mkOpts (Some 6) (Some 800%Z).

(** A sheet with two paid recipients, one of them twice, a row whose choice
    names no ticket type and an unpaid row. *)
Definition sheet : string :=
  "Fullt nafn,HÍ email,Hvernig miða ætlar þú að kaupa?,Greiðsla komin?" +:+ Issue.newline +:+
  "Anna,a@b.is,mat og ball,ja" +:+ Issue.newline +:+
  "Bjorn, B@B.is ,Bara ball,Já" +:+ Issue.newline +:+
  "Anna aftur,A@b.is,ball,ja" +:+ Issue.newline +:+
  "Dora,d@b.is,Matur,ja" +:+ Issue.newline +:+
  "Egill,e@b.is,ball,nei" +:+ Issue.newline.

Definition campaign : Pipeline.config :=
  Pipeline.mkConfig (Some sheet) 800%Z false 0 [].

Definition types_service (attempt : nat) : Retry.attempt_outcome :=
  Retry.Responded 200
    (Some (Json.Obj
       [("ok", Json.Bool true);
        ("rows", Json.Arr
           [Json.Obj [("id", Json.Str type_a); ("name", Json.Str "Matur + ball")];
            Json.Obj [("id", Json.Str type_b); ("name", Json.Str "Bara ball")]])])).

(** An issue endpoint that answers every call at once. *)
Definition issue_service (call attempt : nat) : Retry.attempt_outcome :=
  Retry.Responded 200
    (Some (Json.Obj
       [("ok", Json.Bool true);
        ("ticketId", Json.Str "T1");
        ("ticketUrl", Json.Str "https://tickets.example/t/T1")])).

Definition wall_clock (call : nat) : string := "2026-02-01T12:00:00.000Z".

Definition burn_scanned : Burn.request :=
  Burn.mkRequest None None
    (Some (Json.Arr [Json.Str " 3f2b8c1e-1a2b-4c3d-8e9f-0123456789ac ";
                     Json.Str "3F2B8C1E-1A2B-4C3D-8E9F-0123456789AC";
                     Json.Str "undefined";
                     Json.Num "7"])).

End Sample.

(** ** Cross-origin headers of the validate route *)

Module Cors.

Record env := mkEnv {
  CORS_ALLOW_ORIGIN : option string;
  NODE_ENV : option string
}.

(** [s.split(",")]; [cur] is kept in reverse. *)
Fixpoint split_commas_from (l cur : list ascii) : list string :=
  match l with
  | [] => [Js.of_chars (rev cur)]
  | c :: r =>
      if bool_decide (c = ","%char)
      then Js.of_chars (rev cur) :: split_commas_from r []
      else split_commas_from r (c :: cur)
  end.

Definition split_commas (s : string) : list string :=
  split_commas_from (Js.chars s) [].

(** [allow.split(",").map((s) => s.trim()).filter(Boolean)] *)
Definition allowed_origins (allow : string) : list string :=
  filter (fun s => s ≠ "") (map Js.trim (split_commas allow)).

(** [base()] on the header record [h] *)
Definition base (h : gmap string string) : gmap string string :=
  <["Access-Control-Allow-Headers" := "Content-Type, Authorization"]>
    (<["Access-Control-Allow-Methods" := "POST,OPTIONS"]> h).

(** [corsHeaders]; [origin] is [req.headers.get("origin")]. *)
Definition corsHeaders (e : env) (origin : option string) : gmap string string :=
  match CORS_ALLOW_ORIGIN e with
  | Some allow =>
      if bool_decide (allow = "") then
        if bool_decide (NODE_ENV e = Some "development")
        then <["Vary" := "Origin"]>
               (<["Access-Control-Allow-Origin" := default "*" origin]> (base ∅))
        else ∅
      else if bool_decide (Js.trim allow = "*")
      then <["Access-Control-Allow-Origin" := "*"]> (base ∅)
      else
        match origin with
        | Some o =>
            if negb (bool_decide (o = "")) && bool_decide (o ∈ allowed_origins allow)
            then <["Vary" := "Origin"]> (<["Access-Control-Allow-Origin" := o]> (base ∅))
            else ∅
        | None => ∅
        end
  | None =>
      if bool_decide (NODE_ENV e = Some "development")
      then <["Vary" := "Origin"]>
             (<["Access-Control-Allow-Origin" := default "*" origin]> (base ∅))
      else ∅
  end.

End Cors.

(** ** The scanning page: [apps/scan/src/app/page.tsx] *)

Module Scan.

(** A match of a sequence of character classes at the head of [l]. *)
Fixpoint match_prefix (cls : list (ascii -> bool)) (l : list ascii) : bool :=
  match cls, l with
  | [], _ => true
  | p :: cls', c :: l' => p c && match_prefix cls' l'
  | _ :: _, [] => false
  end.

(** [text.match(UUID_RE)?.[0]]: the leftmost match of
    [/[0-9a-f]{8}-[0-9a-f]{4}-[0-9a-f]{4}-[0-9a-f]{4}-[0-9a-f]{12}/i]. *)
Fixpoint first_uuid (l : list ascii) : option (list ascii) :=
  if match_prefix Token.hyphenated_hex l then Some (take 36 l)
  else
    match l with
    | [] => None
    | _ :: r => first_uuid r
    end.

Definition extractTicketId (raw : string) : string :=
  let text := Js.trim raw in
  Js.trim (match first_uuid (Js.chars text) with
           | Some m => Js.of_chars m
           | None => text
           end).

Record last_seen := mkLastSeen {
  value : string;
  at_ms : Z
}.

(** The decode callback on a result: the new [lastSeenRef.current], and the
    id it hands to [validateTicket], if it does.  [now] is [Date.now()]. *)
Definition on_result (last : option last_seen) (raw : string) (now : Z)
    : option last_seen * option string :=
  let id := extractTicketId raw in
  match last with
  | Some l =>
      if bool_decide (value l = id) && (now - at_ms l <? 1500)%Z
      then (last, None)
      else (Some (mkLastSeen id now), Some id)
  | None => (Some (mkLastSeen id now), Some id)
  end.

(** The callback over the decoded frames in order, each with its time: the
    calls of [validateTicket] it makes, with their times. *)
Fixpoint on_results (last : option last_seen) (frames : list (string * Z))
    : list (string * Z) :=
  match frames with
  | [] => []
  | (raw, now) :: rest =>
      match on_result last raw now with
      | (last', Some id) => (id, now) :: on_results last' rest
      | (last', None) => on_results last' rest
      end
  end.

End Scan.

(** ** The attendance export: [toCsv] *)

Module Attendance.

Definition headers : list string :=
  ["used_at"; "ticket_id"; "name"; "email"; "ticket_type"; "event_name"; "scanned_by"].

(** The test of [escape]: a line feed, a carriage return, a double quote
    or a comma occurs in [s]. *)
Definition needs_quotes (l : list ascii) : bool :=
  existsb (fun c => (Js.code c =? 10)%N || (Js.code c =? 13)%N ||
                    bool_decide (c = Pipeline.dquote) || bool_decide (c = ","%char)) l.

(** The replacement of [escape]: every double quote is written twice. *)
Fixpoint double_quotes (l : list ascii) : list ascii :=
  match l with
  | [] => []
  | c :: r =>
      if bool_decide (c = Pipeline.dquote)
      then Pipeline.dquote :: Pipeline.dquote :: double_quotes r
      else c :: double_quotes r
  end.

(** [escape], on the text of a cell: [None] is a null cell, [Some s] a cell
    whose [String(v)] is [s]. *)
Definition escape_chars (l : list ascii) : list ascii :=
  if needs_quotes l
  then (Pipeline.dquote :: double_quotes l ++ [Pipeline.dquote])%list
  else l.

Definition escape (v : option string) : string :=
  Js.of_chars (escape_chars (Js.chars (default "" v))).

(** A row of the query, read by column name. *)
Definition row := string -> option string.

Definition line_of (r : row) : string :=
  Json.join_with "," (map (fun h => escape (r h)) headers).

Definition toCsv (rows : list row) : string :=
  Json.join_with Issue.newline (Json.join_with "," headers :: map line_of rows).

End Attendance.

(** ** The guest list importer: [scripts/bulk-issue.mjs] *)

Module BulkIssue.

(** The state of [parseCsv]: [rows], [row] and [field] are kept in reverse. *)
Record parser := mkParser {
  rows : list (list string);
  row : list string;
  field : list ascii
}.

Definition pushField (p : parser) : parser :=
  mkParser (rows p) (Js.of_chars (rev (field p)) :: row p) [].

(** [pushRow]: the early return leaves [row] as it is. *)
Definition pushRow (p : parser) : parser :=
  match row p, rows p with
  | [f], [] => if bool_decide (f = "") then p else mkParser [rev (row p)] [] (field p)
  | _, _ => mkParser (rev (row p) :: rows p) [] (field p)
  end.

Definition add (c : ascii) (p : parser) : parser :=
  mkParser (rows p) (row p) (c :: field p).

Fixpoint parseCsv_from (l : list ascii) (inQuotes : bool) (p : parser) : parser :=
  match l with
  | [] => p
  | ch :: r =>
      if inQuotes then
        if bool_decide (ch = Pipeline.dquote) then
          match r with
          | next :: r' =>
              if bool_decide (next = Pipeline.dquote)
              then parseCsv_from r' true (add Pipeline.dquote p)
              else parseCsv_from r false p
          | [] => parseCsv_from r false p
          end
        else parseCsv_from r true (add ch p)
      else if bool_decide (ch = Pipeline.dquote) then parseCsv_from r true p
      else if bool_decide (ch = ","%char) then parseCsv_from r false (pushField p)
      else if (Js.code ch =? 10)%N then parseCsv_from r false (pushRow (pushField p))
      else if (Js.code ch =? 13)%N then parseCsv_from r false p
      else parseCsv_from r false (add ch p)
  end.

Definition parseCsv (text : string) : list (list string) :=
  rev (rows (pushRow (pushField (parseCsv_from (Js.chars text) false (mkParser [] [] []))))).

Definition normalizeTypeName (s : string) : string := Js.toLowerCase (Js.trim s).

(** [isYes] of [main] *)
Definition isYes (v : option string) : bool :=
  let s := Js.nfkd_strip_marks (Js.toLowerCase (Js.trim (default "" v))) in
  bool_decide (s ∈ ["ja"; "yes"; "true"; "1"]).

Definition synonymToCanonical : list (string * string) :=
  [("mat og ball", "matur + ball");
   ("matur og ball", "matur + ball");
   ("ball", "bara ball");
   ("bara ball", "bara ball")].

(** [resolveTicketTypeId]; [typeMap] maps the normalised name of a ticket
    type to its id, and the empty string is the answer for no type. *)
Definition resolveTicketTypeId (typeMap : gmap string string) (typeNameRaw : option string)
    : string :=
  let typeName := Js.trim (default "" typeNameRaw) in
  let key := normalizeTypeName typeName in
  let direct := default "" (typeMap !! key) in
  if negb (bool_decide (direct = "")) then direct
  else
    match snd <$> find (fun kv => bool_decide (fst kv = key)) synonymToCanonical with
    | Some canonical =>
        let mapped := default "" (typeMap !! normalizeTypeName canonical) in
        if negb (bool_decide (mapped = "")) then mapped else ""
    | None => ""
    end.

End BulkIssue.

(** ** Sending the links again: [scripts/resend-ticket-links-from-log.mjs] *)

Module Resend.

(** [parseCsvEmails] *)
Definition parseCsvEmails (value : string) : gset string :=
  list_to_set
    (filter (λ s, s ≠ "")
       (map (λ s, Js.toLowerCase (Js.trim s)) (Cors.split_commas (Js.trim value)))).

(** [readJsonl]: the values of the lines that parse. *)
Definition readJsonl (file : list Pipeline.line) : list Json.value :=
  omap (λ l, match l with Pipeline.Entry v => Some v | Pipeline.Other => None end) file.

(** [r.ok === true] *)
Definition ok_true (r : Json.value) : bool :=
  match Json.get (Some r) "ok" with
  | Some (Json.Bool true) => true
  | _ => false
  end.

(** The filter on the input log: [r && r.ok === true && r.email &&
    r.ticketUrl]. *)
Definition usable (r : Json.value) : bool :=
  ok_true r && Json.truthy (Json.get (Some r) "email") &&
  Json.truthy (Json.get (Some r) "ticketUrl").

(** [already]: the addresses of the output log with [ok === true], in lower
    case. *)
Definition already (out : list Pipeline.line) : gset string :=
  foldl (λ acc r,
           if ok_true r && Json.truthy (Json.get (Some r) "email")
           then {[ Js.toLowerCase (Json.to_String_or (Json.get (Some r) "email") "") ]} ∪ acc
           else acc) ∅ (readJsonl out).

Record config := mkConfig {
  dryRun : bool;
  only : gset string;              (* [parseCsvEmails] of [--only] *)
  skip : gset string;              (* [parseCsvEmails] of [--skip] *)
  subject : string;
  transport_ready : bool;          (* [EMAIL_SERVER] parses and the credentials are set *)
  from : string;                   (* [EMAIL_SENDER], trimmed *)
  replyTo : string                 (* [EMAIL_REPLY_TO], trimmed *)
}.

Record mail := mkMail {
  mail_from : string;
  mail_to : string;
  mail_replyTo : option string;
  mail_subject : string;
  mail_text : string
}.

Record outcome := mkOutcome {
  log : list Pipeline.line;        (* the output log *)
  mails : list mail;               (* handed to [sendMail], in order *)
  attempted : nat;
  sent : nat;
  skipped : nat
}.

(** The address and the link of a row of the input log. *)
Definition email_of (r : Json.value) : string :=
  Js.trim (Json.to_String_or (Json.get (Some r) "email") "").

Definition url_of (r : Json.value) : string :=
  Js.trim (Json.to_String_or (Json.get (Some r) "ticketUrl") "").

(** The row gets past the [continue] statements of the loop. *)
Definition due (cfg : config) (done : gset string) (r : Json.value) : bool :=
  let emailKey := Js.toLowerCase (email_of r) in
  negb (bool_decide (email_of r = "")) && negb (bool_decide (url_of r = "")) &&
  negb (bool_decide (emailKey ∈ done)) &&
  (bool_decide (only cfg = ∅) || bool_decide (emailKey ∈ only cfg)) &&
  negb (bool_decide (emailKey ∈ skip cfg)).

Definition message (cfg : config) (r : Json.value) : mail :=
  mkMail (from cfg) (email_of r)
    (if bool_decide (replyTo cfg = "") then None else Some (replyTo cfg))
    (subject cfg) (url_of r).

(** The record appended for a row. *)
Definition record (cfg : config) (startedAt : string) (r : Json.value)
    (result : option (string + Json.value)) : Json.value :=
  match result with
  | None =>
      Pipeline.object
        [("ok", Some (Json.Bool true)); ("dryRun", Some (Json.Bool true));
         ("startedAt", Some (Json.Str startedAt));
         ("email", Some (Json.Str (email_of r)));
         ("ticketUrl", Some (Json.Str (url_of r)));
         ("subject", Some (Json.Str (subject cfg)))]
  | Some (inr info) =>
      Pipeline.object
        [("ok", Some (Json.Bool true));
         ("startedAt", Some (Json.Str startedAt));
         ("email", Some (Json.Str (email_of r)));
         ("ticketUrl", Some (Json.Str (url_of r)));
         ("subject", Some (Json.Str (subject cfg)));
         ("messageId", Json.get (Some info) "messageId");
         ("response", Json.get (Some info) "response");
         ("accepted", Json.get (Some info) "accepted");
         ("rejected", Json.get (Some info) "rejected")]
  | Some (inl message) =>
      Pipeline.object
        [("ok", Some (Json.Bool false));
         ("startedAt", Some (Json.Str startedAt));
         ("email", Some (Json.Str (email_of r)));
         ("ticketUrl", Some (Json.Str (url_of r)));
         ("subject", Some (Json.Str (subject cfg)));
         ("error", Some (Json.Str message))]
  end.

(** The loop over the rows.  [done] is [already], read once before the
    loop; [sendMail i] answers the [i]-th attempt with the [info] of the
    transport or with the message of the exception; [clock i] is its
    [startedAt]. *)
Fixpoint resend (cfg : config) (done : gset string)
    (sendMail : nat → mail → string + Json.value) (clock : nat → string)
    (rows : list Json.value) (acc : outcome) : outcome :=
  match rows with
  | [] => acc
  | r :: rest =>
      if bool_decide (email_of r = "") || bool_decide (url_of r = "")
      then resend cfg done sendMail clock rest acc
      else if negb (due cfg done r)
      then resend cfg done sendMail clock rest
             (mkOutcome (log acc) (mails acc) (attempted acc) (sent acc) (S (skipped acc)))
      else
        let i := attempted acc in
        if dryRun cfg then
          resend cfg done sendMail clock rest
            (mkOutcome (log acc ++ [Pipeline.Entry (record cfg (clock i) r None)])%list
               (mails acc) (S i) (S (sent acc)) (skipped acc))
        else
          let m := message cfg r in
          match sendMail i m with
          | inr info =>
              resend cfg done sendMail clock rest
                (mkOutcome
                   (log acc ++ [Pipeline.Entry (record cfg (clock i) r (Some (inr info)))])%list
                   (mails acc ++ [m])%list (S i) (S (sent acc)) (skipped acc))
          | inl err =>
              resend cfg done sendMail clock rest
                (mkOutcome
                   (log acc ++ [Pipeline.Entry (record cfg (clock i) r (Some (inl err)))])%list
                   (mails acc ++ [m])%list (S i) (sent acc) (skipped acc))
          end
  end.

(** [main]; [inl] is the exit code of a run that stops before the loop. *)
Definition main (cfg : config) (input output : list Pipeline.line)
    (sendMail : nat → mail → string + Json.value) (clock : nat → string)
    : nat + outcome :=
  let rows := filter (λ r, usable r = true) (readJsonl input) in
  match rows with
  | [] => inl 2
  | _ =>
      if negb (transport_ready cfg) || bool_decide (from cfg = "") then inl 2
      else inr (resend cfg (already output) sendMail clock rows
                  (mkOutcome output [] 0 0 0))
  end.

End Resend.

(** ** More to evaluate on *)

Module Cases.

Import Token Store.

(** The store after the unused ticket of event A was scanned at time 50
    through the key of event A, and the row sent with the answer. *)
Definition after_scan : store :=
  (Validate.redeem (Sample.db Sample.id_digest) Sample.fresh
     (Sample.key_a Sample.id_digest) 50%Z).1.

Definition scan_row : option ticket_row :=
  loadTicketRow after_scan Sample.fresh Sample.event_a.

(** The store after the burn request of the samples, at time 60. *)
Definition after_burn : store :=
  (Burn.forceBurn (Sample.db Sample.id_digest) 60%Z Sample.burn_scanned).1.

(** The store, the answer and the effects of a plain issue request at time
    70. *)
Definition after_issue : store :=
  insert_ticket (Sample.db Sample.id_digest) Sample.absent Sample.type_a "d@hi.is"
    (Some "Dagny") 70%Z.

Definition issue_message : Issue.mail :=
  Issue.compose "tickets@example.is" "d@hi.is" "" "Hæ Dagny"
    ("https://tickets.example/t/" +:+ Sample.absent) Sample.absent [].

Definition issued_answer : Issue.issued :=
  Issue.mkIssued Sample.absent ("https://tickets.example/t/" +:+ Sample.absent) 70%Z
    Issue.subjectLine (Some ("tickets@example.is", None)) (Issue.EmailSent "<msg-1>").

Definition issued_effects : list Issue.effect := [Issue.MailHanded issue_message].

(** Collaborators that work and draw another id. *)
Definition second_draw : Issue.collaborators :=
  Issue.mkCollaborators None "3f2b8c1e-1a2b-4c3d-8e9f-0123456789af"
    (λ _, inr "iVBORw0KGgo=") None (λ _, inr "<msg-2>").

(** An issue request that asks for no message. *)
Definition issue_quietly : Issue.request :=
  Issue.mkRequest "https://tickets.example" None (Some Sample.type_a) (Some "d@hi.is")
    (Some "Dagny") None (Some (Json.Str " Yes ")).

(** The first run of the campaign of the samples over an empty ledger, and
    the same campaign cut to one post. *)
Definition run_of (cfg : Pipeline.config) : Pipeline.outcome :=
  match Pipeline.main cfg Sample.types_service Sample.issue_service Sample.wall_clock [] with
  | inr run => run
  | inl _ => Pipeline.mkOutcome [] [] 0
  end.

Definition first_run : Pipeline.outcome := run_of Sample.campaign.

Definition capped : Pipeline.config :=
  Pipeline.mkConfig (Some Sample.sheet) 800%Z false 1 [].

Definition capped_run : Pipeline.outcome := run_of capped.

(** The ledger of the first run of the campaign of the samples, a dry run
    of the resend script over it, and a sending run after the dry run. *)
Definition ledger : list Pipeline.line := Pipeline.log first_run.

Definition rehearsal : Resend.config :=
  Resend.mkConfig true ∅ ∅ "Ticket" true "tickets@example.is" "".

Definition sending : Resend.config :=
  Resend.mkConfig false ∅ ∅ "Ticket" true "tickets@example.is" "".

Definition transport (attempt : nat) (m : Resend.mail) : string + Json.value :=
  inr (Json.Obj [("messageId", Json.Str "<msg-9>")]).

Definition resend_of (cfg : Resend.config) (output : list Pipeline.line) : Resend.outcome :=
  match Resend.main cfg ledger output transport Sample.wall_clock with
  | inr run => run
  | inl _ => Resend.mkOutcome [] [] 0 0 0
  end.

Definition dry : Resend.outcome := resend_of rehearsal [].

Definition after_dry : Resend.outcome := resend_of sending (Resend.log dry).

Definition direct : Resend.outcome := resend_of sending [].

End Cases.

(** * Properties *)

Set Warnings "-clear-no-such-hyp".

Import Token Store.

Local Open Scope nat_scope.

(** ** Redemption *)

Lemma update_redeem_hit st tok ev kid now t :
  tickets st !! tok = Some t → used t = false → type_in_event st t ev = true →
  update_redeem st tok ev kid now =
    (with_tickets st (<[tok := stamp_used t now kid]> (tickets st)), 1).
Proof.
  intros Ht Hu Hs. unfold update_redeem. by rewrite Ht, Hu, Hs.
Qed.

Lemma update_redeem_miss st tok ev kid now :
  (∀ t, tickets st !! tok = Some t → used t = true ∨ type_in_event st t ev = false) →
  update_redeem st tok ev kid now = (st, 0).
Proof.
  intros H. unfold update_redeem.
  destruct (tickets st !! tok) as [t|] eqn:Ht; [|done].
  destruct (H t eq_refl) as [-> | ->]; simpl; [done|].
  by rewrite andb_false_r.
Qed.

(** The update answers 0 or 1, and with 0 the store is the one it got. *)
Lemma update_redeem_rowCount st tok ev kid now :
  (snd (update_redeem st tok ev kid now) = 0 ∧
     fst (update_redeem st tok ev kid now) = st) ∨
  snd (update_redeem st tok ev kid now) = 1.
Proof.
  unfold update_redeem.
  destruct (tickets st !! tok) as [t|]; [|by left].
  destruct (negb (used t) && type_in_event st t ev); [by right | by left].
Qed.

Lemma loadTicketRow_None st tok ev :
  (tickets st !! tok = None ∨
   ∃ t, tickets st !! tok = Some t ∧ type_in_event st t ev = false) →
  loadTicketRow st tok ev = None.
Proof.
  unfold loadTicketRow, type_in_event.
  intros [-> | (t & -> & H)]; [done|].
  destruct (ticket_types st !! ticket_type_id t) as [ty|]; [|done].
  destruct (events st !! tt_event_id ty); [|done].
  by rewrite H.
Qed.

Lemma loadTicketRow_Some st tok ev t :
  tickets st !! tok = Some t → type_in_event st t ev = true →
  is_Some (events st !! ev) →
  ∃ row, loadTicketRow st tok ev = Some row ∧ r_id row = tok ∧
         r_used row = used t ∧ r_used_at row = used_at t ∧
         r_used_by_scanner_key_id row = used_by_scanner_key_id t.
Proof.
  unfold loadTicketRow, type_in_event. intros -> H [e He].
  destruct (ticket_types st !! ticket_type_id t) as [ty|]; [|done].
  apply bool_decide_eq_true in H as Hev. rewrite Hev, He.
  rewrite bool_decide_eq_true_2 by done. eexists; repeat split.
Qed.

(** C1: with an authorized key, [redeem] answers VALID on an unused ticket
    of the key's event and marks it used, stamped with the time and the key;
    it answers ALREADY_USED on a used ticket of the key's event and
    NOT_FOUND when there is no row or the row belongs to another event, and
    leaves the store as it was in both cases; whenever the update changes no
    row, nothing after it changes the store. *)
Theorem redeem_outcomes (st : store) (tok : uuid) (key : scanner_key) (now : timestamp) :
  (∀ t, tickets st !! tok = Some t → type_in_event st t (sk_event_id key) = true →
        used t = false →
        ∃ row t',
          Validate.redeem st tok key now =
            (with_tickets st (<[tok := t']> (tickets st)), Validate.VALID row) ∧
          t' = stamp_used t now (sk_id key) ∧
          used t' = true ∧ used_at t' = Some now ∧
          used_by_scanner_key_id t' = Some (sk_id key))
  ∧ (∀ t, tickets st !! tok = Some t → type_in_event st t (sk_event_id key) = true →
          is_Some (events st !! sk_event_id key) →
          used t = true →
          ∃ row, Validate.redeem st tok key now = (st, Validate.ALREADY_USED row))
  ∧ ((tickets st !! tok = None ∨
      ∃ t, tickets st !! tok = Some t ∧ type_in_event st t (sk_event_id key) = false) →
     Validate.redeem st tok key now = (st, Validate.NOT_FOUND))
  ∧ (snd (update_redeem st tok (sk_event_id key) (sk_id key) now) = 0 →
     fst (Validate.redeem st tok key now) = st).
Proof.
  repeat split.
  - intros t Ht Hs Hu. unfold Validate.redeem.
    rewrite (update_redeem_hit _ _ _ _ _ t) by done. simpl.
    eexists _, _. repeat split.
  - intros t Ht Hs He Hu. unfold Validate.redeem.
    rewrite update_redeem_miss by (intros t' Ht'; left; congruence). simpl.
    destruct (loadTicketRow_Some st tok _ t Ht Hs He) as (row & -> & _). eauto.
  - intros H. unfold Validate.redeem.
    rewrite update_redeem_miss.
    + simpl. by rewrite loadTicketRow_None.
    + intros t Ht. destruct H as [H | (t' & Ht' & H)]; [congruence|].
      right. congruence.
  - intros H0. unfold Validate.redeem.
    destruct (update_redeem_rowCount st tok (sk_event_id key) (sk_id key) now)
      as [[_ Hst] | H1]; [|congruence].
    destruct (update_redeem st tok (sk_event_id key) (sk_id key) now) as [st' n].
    simpl in *. subst. simpl.
    by destruct (loadTicketRow st tok (sk_event_id key)).
Qed.

Lemma redeem_outcomes_witness :
  (∃ row, snd (Validate.redeem (Sample.db Sample.id_digest) Sample.fresh
                 (Sample.key_a Sample.id_digest) 50%Z) = Validate.VALID row)
  ∧ (∃ row, Validate.redeem (Sample.db Sample.id_digest) Sample.scanned
              (Sample.key_a Sample.id_digest) 50%Z
            = (Sample.db Sample.id_digest, Validate.ALREADY_USED row))
  ∧ Validate.redeem (Sample.db Sample.id_digest) Sample.absent
      (Sample.key_a Sample.id_digest) 50%Z
    = (Sample.db Sample.id_digest, Validate.NOT_FOUND)
  ∧ Validate.redeem (Sample.db Sample.id_digest) Sample.other_event
      (Sample.key_a Sample.id_digest) 50%Z
    = (Sample.db Sample.id_digest, Validate.NOT_FOUND).
Proof.
  split; [|split; [|split]].
  - destruct (redeem_outcomes (Sample.db Sample.id_digest) Sample.fresh
                (Sample.key_a Sample.id_digest) 50%Z) as (H & _).
    destruct (H (mkTicket Sample.type_a "a@hi.is" (Some "Anna") false None None 10%Z))
      as (row & t' & Heq & _); [vm_compute; reflexivity ..|].
    exists row. by rewrite Heq.
  - destruct (redeem_outcomes (Sample.db Sample.id_digest) Sample.scanned
                (Sample.key_a Sample.id_digest) 50%Z) as (_ & H & _).
    apply (H (mkTicket Sample.type_a "b@hi.is" None true (Some 20%Z)
                (Some Sample.key_a_id) 11%Z)); [vm_compute; reflexivity ..| |reflexivity].
    eexists. vm_compute. reflexivity.
  - destruct (redeem_outcomes (Sample.db Sample.id_digest) Sample.absent
                (Sample.key_a Sample.id_digest) 50%Z) as (_ & _ & H & _).
    apply H. left. vm_compute. reflexivity.
  - destruct (redeem_outcomes (Sample.db Sample.id_digest) Sample.other_event
                (Sample.key_a Sample.id_digest) 50%Z) as (_ & _ & H & _).
    apply H. right.
    exists (mkTicket Sample.type_b "c@hi.is" None false None None 12%Z).
    split; vm_compute; reflexivity.
Defined.

(** ** Concurrent redemption *)

Section RaceFacts.

Import Race Validate.

Variables (st0 : store) (tok : uuid) (t : ticket) (calls : list call).
Hypothesis unused : used t = false.
Hypothesis scope : in_scope st0 t calls.

Lemma type_in_event_frame st t' ev :
  ticket_types st = ticket_types st0 → ticket_type_id t' = ticket_type_id t →
  type_in_event st t' ev = type_in_event st0 t ev.
Proof. unfold type_in_event. by intros -> ->. Qed.

Lemma step_inv i s :
  race_inv st0 tok t calls s → race_inv st0 tok t calls (step tok calls i s).
Proof.
  destruct s as [st ps]. intros (Hty & Hev & Hlen & Hsh). unfold step.
  destruct (calls !! i) as [c|] eqn:Hc; [|by repeat split].
  destruct (ps !! i) as [p|] eqn:Hp; [|by repeat split].
  assert (Hin : c ∈ calls) by (eapply list_elem_of_lookup_2; eauto).
  destruct (scope c Hin) as [Hsc Hex].
  destruct p as [|n|o]; [| |by repeat split].
  - (* the update of handler [i] *)
    destruct Hsh as [[Ht Hall] | (w & cw & Hw & Ht & Hall)]; simpl in *.
    + rewrite (update_redeem_hit _ _ _ _ _ t); [|done..|].
      2:{ by rewrite (type_in_event_frame st t). }
      repeat split; simpl; [done..| by rewrite length_insert |].
      right. exists i, c. repeat split; simpl; [done| by rewrite lookup_insert_eq |].
      intros j p Hj. destruct (decide (j = i)) as [->|Hne].
      * rewrite list_lookup_insert_eq in Hj by (by eapply lookup_lt_Some).
        injection Hj as <-. rewrite bool_decide_eq_true_2 by done. by left.
      * rewrite list_lookup_insert_ne in Hj by done.
        rewrite bool_decide_eq_false_2 by done. left. eauto.
    + rewrite update_redeem_miss.
      2:{ intros t' Ht'. left. rewrite Ht in Ht'. by injection Ht' as <-. }
      repeat split; simpl; [done..| by rewrite length_insert |].
      right. exists w, cw. repeat split; simpl; [done..|].
      assert (i ≠ w) as Hiw.
      { intros ->. specialize (Hall w _ Hp).
        rewrite bool_decide_eq_true_2 in Hall by done.
        destruct Hall as [? | [? ?]]; discriminate. }
      intros j p Hj. destruct (decide (j = i)) as [->|Hne].
      * rewrite list_lookup_insert_eq in Hj by (by eapply lookup_lt_Some).
        injection Hj as <-. rewrite bool_decide_eq_false_2 by done.
        right. by left.
      * rewrite list_lookup_insert_ne in Hj by done. eauto.
  - (* [loadTicketRow] of handler [i] *)
    repeat split; simpl; [done..| by rewrite length_insert |].
    destruct Hsh as [[Ht Hall] | (w & cw & Hw & Ht & Hall)]; simpl in *.
    { specialize (Hall i _ Hp). discriminate. }
    right. exists w, cw. repeat split; simpl; [done..|].
    intros j p Hj. destruct (decide (j = i)) as [->|Hne].
    + rewrite list_lookup_insert_eq in Hj by (by eapply lookup_lt_Some).
      injection Hj as <-. specialize (Hall i _ Hp).
      destruct (decide (i = w)) as [->|Hiw].
      * rewrite bool_decide_eq_true_2 in Hall |- * by done.
        destruct Hall as [[= ->] | [? ?]]; [|discriminate].
        right. simpl. eauto.
      * rewrite bool_decide_eq_false_2 in Hall |- * by done.
        destruct Hall as [? | [[= ->] | [? ?]]]; [discriminate| |discriminate].
        right. right. simpl.
        destruct (loadTicketRow_Some st tok (sk_event_id (c_key c)) _ Ht)
          as (row & -> & _); [| |by eauto].
        -- by rewrite (type_in_event_frame st _).
        -- by rewrite Hev.
    + rewrite list_lookup_insert_ne in Hj by done. eauto.
Qed.

Lemma run_inv sched s :
  race_inv st0 tok t calls s → race_inv st0 tok t calls (run tok calls sched s).
Proof.
  revert s. induction sched as [|i sched IH]; intros s Hs; [done|].
  simpl. apply IH, step_inv, Hs.
Qed.

End RaceFacts.

(** A step of handler [i] is its next statement, and nobody else moves. *)
Lemma step_progress tok calls i s j :
  length s.2 = length calls →
  length (Race.step tok calls i s).2 = length calls ∧
  Race.done_at (Race.step tok calls i s) j =
    if bool_decide (j = i ∧ i < length calls)
    then Nat.min 2 (Race.done_at s j + 1) else Race.done_at s j.
Proof.
  destruct s as [st ps]. simpl. intros Hlen. unfold Race.step, Race.done_at.
  destruct (calls !! i) as [c|] eqn:Hc.
  2:{ apply lookup_ge_None in Hc. split; [done|].
      rewrite bool_decide_eq_false_2; [done|lia]. }
  assert (i < length calls) as Hi by (by eapply lookup_lt_Some).
  destruct (ps !! i) as [p|] eqn:Hp.
  2:{ apply lookup_ge_None in Hp. lia. }
  destruct p as [|n|o]; simpl.
  - destruct (update_redeem st tok _ _ _) as [st' n]. simpl.
    rewrite length_insert. split; [done|].
    destruct (decide (j = i)) as [->|Hne].
    + rewrite list_lookup_insert_eq by lia. rewrite Hp.
      by rewrite bool_decide_eq_true_2.
    + rewrite list_lookup_insert_ne by done.
      rewrite bool_decide_eq_false_2; [done|]. intros [? _]. done.
  - rewrite length_insert. split; [done|].
    destruct (decide (j = i)) as [->|Hne].
    + rewrite list_lookup_insert_eq by lia. rewrite Hp.
      by rewrite bool_decide_eq_true_2.
    + rewrite list_lookup_insert_ne by done.
      rewrite bool_decide_eq_false_2; [done|]. intros [? _]. done.
  - split; [done|].
    destruct (decide (j = i)) as [->|Hne].
    + rewrite Hp. by rewrite bool_decide_eq_true_2.
    + rewrite bool_decide_eq_false_2; [done|]. intros [? _]. done.
Qed.

Lemma run_progress tok calls sched s j :
  length s.2 = length calls → j < length calls →
  Race.done_at (Race.run tok calls sched s) j =
    Nat.min 2 (Race.done_at s j + Race.occurrences j sched).
Proof.
  revert s. induction sched as [|i sched IH]; intros s Hlen Hj.
  - assert (Race.done_at s j ≤ 2) as Hle.
    { unfold Race.done_at. destruct (s.2 !! j) as [[]|]; simpl; lia. }
    cbn [Race.run foldl Race.occurrences]. lia.
  - destruct (step_progress tok calls i s j Hlen) as [Hlen' Hd].
    change (Race.run tok calls (i :: sched) s)
      with (Race.run tok calls sched (Race.step tok calls i s)).
    rewrite IH by done. rewrite Hd. cbn [Race.occurrences].
    destruct (Nat.eqb_spec j i) as [->|Hne].
    + rewrite bool_decide_eq_true_2 by done. lia.
    + rewrite bool_decide_eq_false_2; [lia|]. intros [? _]. done.
Qed.

(** C2: handlers racing on an unused ticket in the scope of their keys, each
    a conditional update followed by [loadTicketRow], interleaved in any
    order over the shared store: once every handler has answered, exactly
    one has answered VALID, every other one ALREADY_USED, and the ticket
    carries the time and the key of the one that answered VALID. *)
Theorem race_exactly_one_winner (st : store) (tok : uuid) (t : ticket)
    (calls : list Race.call) (sched : list nat) :
  tickets st !! tok = Some t → used t = false →
  calls ≠ [] →
  Race.in_scope st t calls →
  Race.fair calls sched →
  ∃ st' ps w c,
    Race.run tok calls sched (Race.start st calls) = (st', ps) ∧
    length ps = length calls ∧
    calls !! w = Some c ∧
    (∃ row, ps !! w = Some (Race.Answered (Validate.VALID row))) ∧
    (∀ i, i < length calls → i ≠ w →
       ∃ row, ps !! i = Some (Race.Answered (Validate.ALREADY_USED row))) ∧
    (∃ t', tickets st' !! tok = Some t' ∧
           used t' = true ∧ used_at t' = Some (Race.c_now c) ∧
           used_by_scanner_key_id t' = Some (sk_id (Race.c_key c))).
Proof.
  intros Ht Hu Hne Hsc Hfair.
  assert (Race.race_inv st tok t calls (Race.start st calls)) as Hstart.
  { repeat split; simpl; [by rewrite length_replicate|].
    left. split; [done|]. simpl. intros i p Hi.
    apply lookup_replicate in Hi as [-> _]. done. }
  pose proof (run_inv st tok t calls Hu Hsc sched _ Hstart) as Hinv.
  assert (∀ j, j < length calls →
            Race.done_at (Race.run tok calls sched (Race.start st calls)) j = 2) as Hdone.
  { intros j Hj. rewrite run_progress; [|simpl; by rewrite length_replicate|done].
    specialize (Hfair j Hj). lia. }
  destruct (Race.run tok calls sched (Race.start st calls)) as [st' ps] eqn:Hrun.
  destruct Hinv as (_ & _ & Hlen & Hsh). simpl in *.
  assert (∀ j, j < length calls → ∃ o, ps !! j = Some (Race.Answered o)) as Hans.
  { intros j Hj. specialize (Hdone j Hj). unfold Race.done_at in Hdone. simpl in Hdone.
    destruct (ps !! j) as [[|n|o]|]; simpl in Hdone; try lia. eauto. }
  destruct Hsh as [[_ Hall] | (w & c & Hw & Htk & Hall)].
  { destruct calls as [|c0 cs]; [done|].
    destruct (Hans 0) as [o Ho]; [simpl; lia|].
    specialize (Hall 0 _ Ho). discriminate. }
  exists st', ps, w, c. repeat split; [done..| | |].
  - destruct (Hans w) as [o Ho]; [by eapply lookup_lt_Some|].
    specialize (Hall w _ Ho). rewrite bool_decide_eq_true_2 in Hall by done.
    destruct Hall as [? | [row [= ->]]]; [discriminate|]. eauto.
  - intros i Hi Hiw. destruct (Hans i Hi) as [o Ho].
    specialize (Hall i _ Ho). rewrite bool_decide_eq_false_2 in Hall by done.
    destruct Hall as [? | [? | [row [= ->]]]]; [discriminate..|]. eauto.
  - eexists. split; [exact Htk|]. done.
Qed.

Lemma race_exactly_one_winner_witness :
  ∃ st' ps w c,
    Race.run Sample.fresh Sample.scans [1; 0; 2; 0; 1; 2]
      (Race.start (Sample.db Sample.id_digest) Sample.scans) = (st', ps) ∧
    length ps = length Sample.scans ∧
    Sample.scans !! w = Some c ∧
    (∃ row, ps !! w = Some (Race.Answered (Validate.VALID row))) ∧
    (∀ i, i < length Sample.scans → i ≠ w →
       ∃ row, ps !! i = Some (Race.Answered (Validate.ALREADY_USED row))) ∧
    (∃ t', tickets st' !! Sample.fresh = Some t' ∧
           used t' = true ∧ used_at t' = Some (Race.c_now c) ∧
           used_by_scanner_key_id t' = Some (sk_id (Race.c_key c))).
Proof.
  apply (race_exactly_one_winner (Sample.db Sample.id_digest) Sample.fresh
           Sample.fresh_ticket Sample.scans [1; 0; 2; 0; 1; 2]).
  - vm_compute. reflexivity.
  - reflexivity.
  - discriminate.
  - intros c Hc. unfold Sample.scans in Hc.
    repeat (apply elem_of_cons in Hc as [-> | Hc]);
      [split; [vm_compute; reflexivity | eexists; vm_compute; reflexivity] ..|].
    by apply elem_of_nil in Hc.
  - intros i Hi. simpl in Hi.
    destruct i as [|[|[|i]]]; [vm_compute; lia ..| lia].
Defined.

(** One handler running alone is [redeem]. *)
Lemma race_alone_is_redeem (st : store) (tok : uuid) (key : scanner_key) (now : timestamp) :
  Race.run tok [Race.mkCall key now] [0; 0] (Race.start st [Race.mkCall key now]) =
    (fst (Validate.redeem st tok key now),
     [Race.Answered (snd (Validate.redeem st tok key now))]).
Proof.
  unfold Race.run, Race.start, Validate.redeem. simpl.
  destruct (update_redeem st tok (sk_event_id key) (sk_id key) now) as [st' n].
  simpl. destruct (Nat.eqb n 1); [done|].
  by destruct (loadTicketRow st' tok (sk_event_id key)).
Qed.

(** ** The canonical shape and the store's uuid input *)

Lemma match_classes_weaken (cls cls' : list (ascii → bool)) (l : list ascii) :
  Forall2 (λ p q, ∀ c, p c = true → q c = true) cls cls' →
  match_classes cls l = true → match_classes cls' l = true.
Proof.
  intros H. revert l. induction H as [|p q cls cls' Hpq _ IH]; intros l; simpl.
  - done.
  - destruct l as [|c l]; [done|].
    rewrite !andb_true_iff. intros [Hp Hl]. split; [by apply Hpq | by apply IH].
Qed.

Lemma is_version_hex c : is_version c = true → is_hex c = true.
Proof.
  unfold is_version, is_hex, Js.is_digit, Js.in_range. simpl.
  rewrite !andb_true_iff, !orb_true_iff, !andb_true_iff, !N.leb_le. lia.
Qed.

Lemma is_variant_hex c : is_variant c = true → is_hex c = true.
Proof.
  unfold is_variant. simpl. rewrite !orb_true_iff, !bool_decide_eq_true.
  intros H. repeat (destruct H as [-> | H]; [reflexivity|]). discriminate.
Qed.

(** A string of the canonical shape is text the store reads as a uuid. *)
Lemma uuid_test_uuid_in (s : string) :
  uuid_test s = true → uuid_in s = Some (Js.toLowerCase s).
Proof.
  unfold uuid_test, uuid_in. intros H.
  rewrite (match_classes_weaken uuid_classes hyphenated_hex); [done| |done].
  unfold uuid_classes, hyphenated_hex. simpl.
  repeat (apply Forall2_cons; split; [first [done | exact is_version_hex | exact is_variant_hex]|]).
  apply Forall2_nil_2.
Qed.

(** ** Administrative burn *)

Lemma set_order_from_spec (seen l : list string) :
  NoDup (set_order_from seen l) ∧
  ∀ x, x ∈ set_order_from seen l ↔ x ∈ l ∧ x ∉ seen.
Proof.
  revert seen. induction l as [|a l IH]; intros seen; simpl.
  - split; [constructor|]. intros x. rewrite elem_of_nil. tauto.
  - case_bool_decide as Ha.
    + destruct (IH seen) as [Hnd Hin]. split; [done|].
      intros x. rewrite Hin, elem_of_cons. naive_solver.
    + destruct (IH (a :: seen)) as [Hnd Hin]. split.
      * constructor; [|done]. rewrite Hin, elem_of_cons. naive_solver.
      * intros x. rewrite !elem_of_cons, Hin, elem_of_cons.
        destruct (decide (x = a)); naive_solver.
Qed.

Lemma array_from_set_spec (l : list string) :
  NoDup (array_from_set l) ∧ ∀ x, x ∈ array_from_set l ↔ x ∈ l.
Proof.
  destruct (set_order_from_spec [] l) as [Hnd Hin]. split; [done|].
  intros x. unfold array_from_set. rewrite Hin, elem_of_nil. tauto.
Qed.

Lemma update_burn_lookup (st : store) (ids : list uuid) (now : timestamp) (tok : uuid) :
  tickets (update_burn st ids now).1 !! tok =
    (λ t, if bool_decide (tok ∈ ids) then stamp_burned t now else t)
      <$> tickets st !! tok.
Proof.
  unfold update_burn. simpl. rewrite map_lookup_imap.
  by destruct (tickets st !! tok).
Qed.

Lemma update_burn_rowCount (st : store) (ids : list uuid) (now : timestamp) :
  length (update_burn st ids now).2 =
    size ((list_to_set ids : gset uuid) ∩ dom (tickets st)).
Proof.
  unfold update_burn. simpl.
  rewrite <- (size_list_to_set (C := gset uuid)).
  - f_equal. apply set_eq. intros x.
    rewrite elem_of_list_to_set, list_elem_of_filter, elem_of_intersection,
      elem_of_list_to_set, elem_of_dom.
    rewrite list_elem_of_fmap. split.
    + intros [Hx ([k v] & -> & Hkv)]. split; [done|].
      apply elem_of_map_to_list in Hkv. eauto.
    + intros [Hx [v Hv]]. split; [done|]. exists (x, v). split; [done|].
      by apply elem_of_map_to_list.
  - apply NoDup_filter, NoDup_fst_map_to_list.
Qed.

Lemma normalizeTicketIds_spec (input : Json.member) :
  NoDup (Burn.normalizeTicketIds input) ∧
  ∀ s, s ∈ Burn.normalizeTicketIds input ↔
       (∃ raw, raw ∈ Burn.pushed input ∧ s = Js.trim raw) ∧ uuid_test s = true.
Proof.
  unfold Burn.normalizeTicketIds.
  destruct (array_from_set_spec
              (filter (λ s, uuid_test s = true) (map Js.trim (Burn.pushed input))))
    as [Hnd Hin].
  split; [done|]. intros s. rewrite Hin, list_elem_of_filter, list_elem_of_fmap.
  naive_solver.
Qed.

Lemma uuid_array_in_canonical (ids : list string) :
  Forall (λ s, uuid_test s = true) ids →
  Burn.uuid_array_in ids = Some (Js.toLowerCase <$> ids).
Proof.
  intros H. unfold Burn.uuid_array_in. apply mapM_Some.
  induction H as [|s ids Hs _ IH]; simpl; constructor; [|done].
  by apply uuid_test_uuid_in.
Qed.

(** C5, as the handler has it: the tokens of a burn request are the distinct
    trimmed strings of the canonical shape (entries of any other shape are
    dropped); with none the answer is 400 and nothing is written; otherwise
    [burned] is the number of distinct tokens that are ids of ticket rows,
    and each such row, used before or not, is left used, stamped with the
    time of the burn and with no scanner key. *)
Theorem forceBurn_count (st : store) (now : timestamp) (req : Burn.request) :
  let input := Json.nullish (Burn.ticketIds req) (Burn.ticketId req) in
  let ids := Burn.normalizeTicketIds input in
  let tokens : gset uuid := list_to_set (Js.toLowerCase <$> ids) in
  NoDup ids
  ∧ (∀ s, s ∈ ids ↔
          (∃ raw, raw ∈ Burn.pushed input ∧ s = Js.trim raw) ∧ uuid_test s = true)
  ∧ (ids = [] →
     Burn.forceBurn st now req =
       (st, Burn.mkResponse 400 (Burn.Failure "ticketId or ticketIds (UUID) is required")))
  ∧ (ids ≠ [] →
     ∃ st' rows,
       Burn.forceBurn st now req =
         (st', Burn.mkResponse 200 (Burn.Burned (size (tokens ∩ dom (tickets st))) rows)) ∧
       (∀ tok t, tok ∈ tokens → tickets st !! tok = Some t →
          ∃ t', tickets st' !! tok = Some t' ∧ used t' = true ∧
                used_at t' = Some now ∧ used_by_scanner_key_id t' = None) ∧
       (∀ tok, tok ∉ tokens → tickets st' !! tok = tickets st !! tok)).
Proof.
  intros input ids tokens. subst tokens.
  destruct (normalizeTicketIds_spec input) as [Hnd Hin].
  split; [done|]. split; [done|]. split.
  - intros Hids. unfold Burn.forceBurn. fold input. fold ids. by rewrite Hids.
  - intros Hids. unfold Burn.forceBurn. fold input. fold ids.
    destruct ids as [|i0 ids'] eqn:Hi; [done|]. rewrite <- Hi in *. clear Hids.
    rewrite uuid_array_in_canonical.
    2:{ apply Forall_forall. intros s Hs. by apply Hin in Hs as [_ ?]. }
    pose proof (update_burn_rowCount st (Js.toLowerCase <$> ids) now) as Hcount.
    pose proof (update_burn_lookup st (Js.toLowerCase <$> ids) now) as Hlook.
    destruct (update_burn st (Js.toLowerCase <$> ids) now) as [st' returned].
    simpl in *. rewrite Hcount. eexists _, _. split; [reflexivity|]. split.
    + intros tok t Htok Ht. rewrite Hlook, Ht. simpl.
      apply elem_of_list_to_set in Htok. rewrite bool_decide_eq_true_2 by done.
      eexists. split; [reflexivity|]. done.
    + intros tok Htok. rewrite Hlook.
      rewrite bool_decide_eq_false_2.
      * by destruct (tickets st !! tok).
      * intros H. apply Htok. by apply elem_of_list_to_set.
Qed.

Lemma forceBurn_count_witness :
  ∃ st' rows,
    Burn.forceBurn (Sample.db Sample.id_digest) 60%Z Sample.burn_scanned =
      (st', Burn.mkResponse 200 (Burn.Burned 1 rows)) ∧
    ∃ t', tickets st' !! Sample.scanned = Some t' ∧ used t' = true ∧
          used_at t' = Some 60%Z ∧ used_by_scanner_key_id t' = None.
Proof.
  destruct (forceBurn_count (Sample.db Sample.id_digest) 60%Z Sample.burn_scanned)
    as (_ & _ & _ & H).
  destruct H as (st' & rows & Heq & Hburned & _); [vm_compute; discriminate|].
  exists st', rows. split.
  - rewrite Heq. vm_compute. reflexivity.
  - apply (Hburned Sample.scanned
             (mkTicket Sample.type_a "b@hi.is" None true (Some 20%Z)
                (Some Sample.key_a_id) 11%Z)).
    + vm_compute. reflexivity.
    + vm_compute. reflexivity.
Defined.

(** C5, counterexample: a ticket that a scanner redeemed carries the
    scanner's key; after a burn it carries none. *)
Lemma forceBurn_clears_scanner_key :
  ∃ t t',
    tickets (Sample.db Sample.id_digest) !! Sample.scanned = Some t ∧
    used t = true ∧
    used_by_scanner_key_id t = Some Sample.key_a_id ∧
    tickets (Burn.forceBurn (Sample.db Sample.id_digest) 60%Z Sample.burn_scanned).1
      !! Sample.scanned = Some t' ∧
    used t' = true ∧
    used_at t' = Some 60%Z ∧
    used_by_scanner_key_id t' = None.
Proof.
  eexists _, _. repeat split; vm_compute; reflexivity.
Qed.

(** ** The state of a ticket under the three writers *)

(** The issue handler leaves the store as it was or adds one row under an id
    that was free. *)
Lemma issue_store (e : Issue.env) (w : Issue.collaborators) (st : store)
    (now : timestamp) (req : Issue.request) :
  (Issue.POST e w st now req).1.1 = st ∨
  (tickets st !! Issue.new_id w = None ∧
   ∃ type_id to_,
     (Issue.POST e w st now req).1.1 =
       insert_ticket st (Issue.new_id w) type_id to_ (Issue.name req) now).
Proof.
  unfold Issue.POST. repeat case_match; simpl; eauto.
Qed.

Lemma redeem_store (st : store) (tok : uuid) (key : scanner_key) (now : timestamp) :
  (Validate.redeem st tok key now).1 = st ∨
  ∃ t, tickets st !! tok = Some t ∧
       (Validate.redeem st tok key now).1 =
         with_tickets st (<[tok := stamp_used t now (sk_id key)]> (tickets st)).
Proof.
  unfold Validate.redeem, update_redeem.
  destruct (tickets st !! tok) as [t|] eqn:Ht.
  - destruct (negb (used t) && type_in_event st t (sk_event_id key)); simpl.
    + right. eauto.
    + left. by destruct (loadTicketRow st tok (sk_event_id key)).
  - simpl. left. by destruct (loadTicketRow st tok (sk_event_id key)).
Qed.

Lemma forceBurn_store (st : store) (now : timestamp) (req : Burn.request) :
  ∃ ids : list uuid, ∀ tok : uuid,
    tickets (Burn.forceBurn st now req).1 !! tok =
      (λ t, if bool_decide (tok ∈ ids) then stamp_burned t now else t)
        <$> tickets st !! tok.
Proof.
  unfold Burn.forceBurn.
  destruct (Burn.normalizeTicketIds _) as [|i ids].
  { exists []. intros tok. simpl. by destruct (tickets st !! tok). }
  destruct (Burn.uuid_array_in (i :: ids)) as [us|].
  - exists us. intros tok. rewrite <- update_burn_lookup.
    by destruct (update_burn st us now).
  - exists []. intros tok. simpl. by destruct (tickets st !! tok).
Qed.

Lemma consistent_new (type_id : uuid) (mail : string) (nm : option string)
    (now : timestamp) :
  Lifecycle.consistent (new_ticket type_id mail nm now).
Proof.
  split; simpl; [split|]; intros H; try discriminate; by destruct H.
Qed.

Lemma consistent_stamp_used (t : ticket) (now : timestamp) (key_id : uuid) :
  Lifecycle.consistent (stamp_used t now key_id).
Proof. split; simpl; [split|]; eauto. Qed.

Lemma consistent_stamp_burned (t : ticket) (now : timestamp) :
  Lifecycle.consistent (stamp_burned t now).
Proof. split; simpl; [split|]; eauto. Qed.

(** C4, as the writers have it: issuance, redemption and the administrative
    burn keep, on every ticket, that [used_at] is set exactly when the
    ticket is used and that a ticket naming a scanner key is used; none of
    them turns a used ticket into an unused one; and a row the burn writes
    is used, stamped with the time of the burn, and names no scanner key. *)
Theorem writers_keep_consistency (op : Lifecycle.operation) (st : store) :
  Lifecycle.all_tickets Lifecycle.consistent st →
  Lifecycle.all_tickets Lifecycle.consistent (Lifecycle.apply op st)
  ∧ (∀ tok t, tickets st !! tok = Some t → used t = true →
       ∃ t', tickets (Lifecycle.apply op st) !! tok = Some t' ∧ used t' = true)
  ∧ (∀ now req tok t t', op = Lifecycle.AdministrativeBurn now req →
       tickets st !! tok = Some t →
       tickets (Lifecycle.apply op st) !! tok = Some t' → t' ≠ t →
       used t' = true ∧ used_at t' = Some now ∧ used_by_scanner_key_id t' = None).
Proof.
  intros Hst. destruct op as [e w now req | tok0 key now | now req]; simpl.
  - (* issuance *)
    split; [|split; [|discriminate]].
    + destruct (issue_store e w st now req) as [-> | (Hfree & ty & to_ & ->)]; [done|].
      intros tok t. unfold insert_ticket. simpl.
      intros [[<- <-] | [_ H]]%lookup_insert_Some; [apply consistent_new | eauto].
    + intros tok t Ht Hu.
      destruct (issue_store e w st now req) as [-> | (Hfree & ty & to_ & ->)]; [eauto|].
      exists t. split; [|done]. unfold insert_ticket. simpl.
      rewrite lookup_insert_ne; [done|]. intros <-. congruence.
  - (* redemption *)
    split; [|split; [|discriminate]].
    + destruct (redeem_store st tok0 key now) as [-> | (t0 & Ht0 & ->)]; [done|].
      intros tok t. simpl.
      intros [[<- <-] | [_ H]]%lookup_insert_Some; [apply consistent_stamp_used | eauto].
    + intros tok t Ht Hu.
      destruct (redeem_store st tok0 key now) as [-> | (t0 & Ht0 & ->)]; [eauto|].
      simpl. destruct (decide (tok0 = tok)) as [->|Hne].
      * rewrite lookup_insert_eq. eauto.
      * rewrite lookup_insert_ne by done. eauto.
  - (* burn *)
    destruct (forceBurn_store st now req) as [ids Hlook].
    split; [|split].
    + intros tok t. rewrite Hlook.
      destruct (tickets st !! tok) as [t0|] eqn:Ht0; [|done]. simpl.
      intros [= <-]. case_bool_decide; [apply consistent_stamp_burned | eauto].
    + intros tok t Ht Hu. rewrite Hlook, Ht. simpl.
      case_bool_decide; eauto.
    + intros now' req' tok t t' [= -> ->] Ht. rewrite Hlook, Ht. simpl.
      case_bool_decide; intros [= <-] Hne; [done|congruence].
Qed.

Lemma sample_tickets (P : ticket → Prop) :
  P Sample.fresh_ticket →
  P (mkTicket Sample.type_a "b@hi.is" None true (Some 20%Z) (Some Sample.key_a_id) 11%Z) →
  P (mkTicket Sample.type_b "c@hi.is" None false None None 12%Z) →
  Lifecycle.all_tickets P (Sample.db Sample.id_digest).
Proof.
  intros H1 H2 H3 tok t. unfold Sample.db. simpl.
  intros [[_ <-] | [_ H]]%lookup_insert_Some; [done|].
  apply lookup_insert_Some in H as [[_ <-] | [_ H]]; [done|].
  apply lookup_insert_Some in H as [[_ <-] | [_ H]]; [done|].
  by rewrite lookup_empty in H.
Qed.

Lemma sample_consistent :
  Lifecycle.all_tickets Lifecycle.consistent (Sample.db Sample.id_digest).
Proof.
  apply sample_tickets; (split; simpl; [split|]; intros H; eauto;
    try discriminate; by destruct H).
Qed.

Lemma writers_keep_consistency_witness :
  Lifecycle.all_tickets Lifecycle.consistent
    (Lifecycle.apply (Lifecycle.AdministrativeBurn 60%Z Sample.burn_scanned)
       (Sample.db Sample.id_digest))
  ∧ Lifecycle.all_tickets Lifecycle.consistent
      (Lifecycle.apply
         (Lifecycle.Redemption Sample.fresh (Sample.key_a Sample.id_digest) 50%Z)
         (Sample.db Sample.id_digest)).
Proof.
  split.
  - apply (writers_keep_consistency
             (Lifecycle.AdministrativeBurn 60%Z Sample.burn_scanned)
             (Sample.db Sample.id_digest) sample_consistent).
  - apply (writers_keep_consistency
             (Lifecycle.Redemption Sample.fresh (Sample.key_a Sample.id_digest) 50%Z)
             (Sample.db Sample.id_digest) sample_consistent).
Defined.

(** C4, counterexample: every ticket of the sample store has its two
    stamps exactly when it is used; after the burn of the scanned ticket one
    ticket is used and names no scanner key. *)
Lemma burn_breaks_stamped_iff_used :
  Lifecycle.all_tickets Lifecycle.stamped_iff_used (Sample.db Sample.id_digest)
  ∧ ¬ Lifecycle.all_tickets Lifecycle.stamped_iff_used
        (Lifecycle.apply (Lifecycle.AdministrativeBurn 60%Z Sample.burn_scanned)
           (Sample.db Sample.id_digest)).
Proof.
  split.
  - apply sample_tickets; (split; simpl; [intros [H1 H2] | intros H; try discriminate]);
      eauto; by destruct H1.
  - intros H.
    specialize (H Sample.scanned
                  (stamp_burned
                     (mkTicket Sample.type_a "b@hi.is" None true (Some 20%Z)
                        (Some Sample.key_a_id) 11%Z) 60%Z)).
    destruct H as [_ H]; [vm_compute; reflexivity|].
    destruct (H eq_refl) as [_ [k Hk]]. discriminate.
Qed.

(** ** Token shape checks before the store *)

(** The get route answers 400 to an id that is not of the canonical shape
    and sends nothing to the store. *)
Lemma get_rejects_malformed (st : store) (id : string) :
  uuid_test id = false →
  ∃ message, Get.GET st (Some id) = (Get.mkResponse 400 (Get.Failure message), []).
Proof.
  intros H. unfold Get.GET. rewrite H. simpl. case_bool_decide; eauto.
Qed.

(** The validate route checks only that [ticketId] is there: with a key the
    store knows, any non-empty text is bound to the update. *)
Lemma validate_binds_any_text (digest : string → string) (st : store)
    (t_auth t_scan : timestamp) (req : Validate.request)
    (token id : string) (key : scanner_key) :
  Validate.parse_bearer (default "" (Validate.authorization req)) = Some token →
  Validate.ticketId req = Some id → id ≠ "" →
  Validate.select_scanner_key st (digest token) t_auth = Some key →
  ∃ st' res rest,
    Validate.POST digest st t_auth t_scan req =
      (st', res,
       Validate.SelectScannerKey (digest token) ::
       Validate.UpdateTicketUsed id (sk_event_id key) (sk_id key) :: rest).
Proof.
  intros Hb Hid Hne Hkey. unfold Validate.POST. rewrite Hb, Hid.
  rewrite bool_decide_eq_false_2 by done. rewrite Hkey.
  destruct (uuid_in id) as [tok|]; [|eauto].
  destruct (Validate.redeem st tok key t_scan). eauto.
Qed.

(** C9 at the failing input: the text [undefined] is not of the canonical
    shape, and the validate route, given the secret of a scanner key, sends
    the key lookup and the update carrying that text to the store, which
    fails on it; the answer is 500. *)
Theorem validate_sends_malformed_token_to_store (digest : string → string) :
  uuid_test "undefined" = false ∧
  Validate.POST digest (Sample.db digest) 40%Z 41%Z Sample.malformed_scan =
    (Sample.db digest,
     Validate.mkResponse 500 (Validate.Failure "invalid input syntax for type uuid"),
     [Validate.SelectScannerKey (digest "secret-a");
      Validate.UpdateTicketUsed "undefined" Sample.event_a Sample.key_a_id]).
Proof.
  split; [reflexivity|].
  unfold Validate.POST.
  change (Validate.parse_bearer (default "" (Validate.authorization Sample.malformed_scan)))
    with (Some "secret-a").
  cbn [Validate.ticketId Sample.malformed_scan].
  rewrite bool_decide_eq_false_2 by discriminate.
  unfold Validate.select_scanner_key, Sample.db. cbn [scanner_keys find Sample.key_a
    sk_key_hash sk_active sk_expires_at].
  rewrite bool_decide_eq_true_2 by done. reflexivity.
Qed.

(** ** Issuance *)

(** No row of [tickets] is removed or changed by the issue handler, whatever
    its collaborators do. *)
Lemma issue_keeps_rows (e : Issue.env) (w : Issue.collaborators) (st : store)
    (now : timestamp) (req : Issue.request) (tok : uuid) (t : ticket) :
  tickets st !! tok = Some t →
  tickets (Issue.POST e w st now req).1.1 !! tok = Some t.
Proof.
  intros Ht.
  destruct (issue_store e w st now req) as [-> | (Hfree & ty & to_ & ->)]; [done|].
  unfold insert_ticket. simpl. rewrite lookup_insert_ne; [done|].
  intros <-. congruence.
Qed.

(** Once the row is inserted and the QR step has not thrown, the answer is
    200 with the id, the link and the time of issue, whatever the mailer
    does. *)
Lemma issue_inserted_then_ok (e : Issue.env) (w : Issue.collaborators) (st : store)
    (now : timestamp) (req : Issue.request) :
  (Issue.POST e w st now req).1.1 ≠ st →
  (Issue.toBooleanOrUndefined (Issue.linkOnly req) = Some false →
   ∃ png, Issue.qr_png_base64 w (Issue.new_id w) = inr png) →
  ∃ r, (Issue.POST e w st now req).1.2 = Issue.mkResponse 200 (Issue.Issued r) ∧
       Issue.ticketId r = Issue.new_id w ∧
       Issue.ticketUrl r =
         default (Issue.origin req) (Issue.TICKETS_PUBLIC_BASE_URL e)
           +:+ "/t/" +:+ Issue.new_id w ∧
       Issue.issuedAt r = now.
Proof.
  unfold Issue.POST. intros Hst Hqr.
  repeat case_match; simpl in *; try done; simplify_eq; eauto.
  all: exfalso; destruct (Issue.toBooleanOrUndefined (Issue.linkOnly req)) as [[]|];
    try discriminate; by destruct Hqr.
Qed.

(** A mailer that throws is reported in the [email] member of a 200 answer. *)
Lemma issue_mail_failure_is_reported :
  ∃ st' r m,
    Issue.POST Sample.issue_env Sample.smtp_broken (Sample.db Sample.id_digest) 70%Z
      Sample.issue_plain = (st', Issue.mkResponse 200 (Issue.Issued r), [Issue.MailHanded m]) ∧
    Issue.ticketId r = Sample.absent ∧
    Issue.email_sub_result r = Issue.EmailFailed "connect ECONNREFUSED" None ∧
    tickets st' !! Sample.absent =
      Some (new_ticket Sample.type_a "d@hi.is" (Some "Dagny") 70%Z).
Proof.
  eexists _, _, _. split; [vm_compute; reflexivity|].
  split; [reflexivity|]. split; [reflexivity|]. vm_compute. reflexivity.
Qed.

(** C6 at the failing input: the request asks for the QR attachment and the
    QR encoder throws.  The row is in the store, and the answer is the 500
    of the outer catch block with the message of the encoder: no ticket id,
    no link, no [email] member. *)
Theorem issue_qr_failure_answers_500 :
  tickets (Sample.db Sample.id_digest) !! Sample.absent = None ∧
  ∃ st',
    Issue.POST Sample.issue_env Sample.qr_broken (Sample.db Sample.id_digest) 70%Z
      Sample.issue_with_qr =
      (st', Issue.mkResponse 500 (Issue.Failure "qr: encoder failed"), []) ∧
    tickets st' !! Sample.absent =
      Some (new_ticket Sample.type_a "d@hi.is" (Some "Dagny") 70%Z).
Proof.
  split; [vm_compute; reflexivity|].
  eexists. split; vm_compute; reflexivity.
Qed.

(** The notification step hands the mailer at most one message, and nothing
    else. *)
Lemma notify_effects (e : Issue.env) (w : Issue.collaborators) (req : Issue.request)
    (to_ id url : string) (shouldAttachQr : bool) (png : option string) :
  (Issue.notify e w req to_ id url shouldAttachQr png).2 = [] ∨
  ∃ from replyTo greeting,
    (Issue.notify e w req to_ id url shouldAttachQr png).2 =
      [Issue.MailHanded
         (Issue.compose from to_ replyTo greeting url id
            match png with
            | Some p =>
                if shouldAttachQr && negb (bool_decide (p = ""))
                then [Issue.mkAttachment ("ticket-" +:+ id +:+ ".png") p "image/png"]
                else []
            | None => []
            end)].
Proof.
  unfold Issue.notify.
  destruct (default false _); [by left|].
  destruct (Issue.getSmtpTransport w); [by left|].
  destruct (Issue.sendMail w _); right; eauto.
Qed.

(** The message carries an attachment only if the step was told to attach
    and was given an image. *)
Lemma notify_attachments (e : Issue.env) (w : Issue.collaborators) (req : Issue.request)
    (to_ id url : string) (shouldAttachQr : bool) (png : option string) (m : Issue.mail) :
  Issue.MailHanded m ∈ (Issue.notify e w req to_ id url shouldAttachQr png).2 →
  Issue.mail_attachments m =
    match png with
    | Some p =>
        if shouldAttachQr && negb (bool_decide (p = ""))
        then [Issue.mkAttachment ("ticket-" +:+ id +:+ ".png") p "image/png"]
        else []
    | None => []
    end.
Proof.
  destruct (notify_effects e w req to_ id url shouldAttachQr png)
    as [-> | (from & replyTo & greeting & ->)].
  - by intros ?%elem_of_nil.
  - by intros [= ->]%list_elem_of_singleton.
Qed.

Lemma notify_no_qr (e : Issue.env) (w : Issue.collaborators) (req : Issue.request)
    (to_ id url : string) (shouldAttachQr : bool) (png : option string) (p : string) :
  Issue.QrGenerated p ∉ (Issue.notify e w req to_ id url shouldAttachQr png).2.
Proof.
  destruct (notify_effects e w req to_ id url shouldAttachQr png)
    as [-> | (from & replyTo & greeting & ->)].
  - apply not_elem_of_nil.
  - by intros ?%list_elem_of_singleton.
Qed.

(** What the issue handler does besides answering: nothing when it does not
    answer 200; otherwise the QR image when it is to be attached, then the
    notification step. *)
Lemma issue_effects (e : Issue.env) (w : Issue.collaborators) (st : store)
    (now : timestamp) (req : Issue.request) :
  let attach := negb (default true (Issue.toBooleanOrUndefined (Issue.linkOnly req))) in
  ((Issue.POST e w st now req).2 = [] ∧
   ∀ r, (Issue.POST e w st now req).1.2 ≠ Issue.mkResponse 200 (Issue.Issued r))
  ∨ ∃ to_ url png r,
      (Issue.POST e w st now req).2 =
        ((if attach then [Issue.QrGenerated (Issue.new_id w)] else []) ++
         (Issue.notify e w req to_ (Issue.new_id w) url attach png).2)%list ∧
      (Issue.POST e w st now req).1.2 = Issue.mkResponse 200 (Issue.Issued r) ∧
      Issue.ticketId r = Issue.new_id w ∧
      png = (if attach
             then match Issue.qr_png_base64 w (Issue.new_id w) with
                  | inr p => Some p
                  | inl _ => None
                  end
             else None) ∧
      (attach = true → ∃ p, Issue.qr_png_base64 w (Issue.new_id w) = inr p).
Proof.
  intros attach. subst attach. unfold Issue.POST.
  destruct (match Issue.ISSUE_API_KEY e with Some _ => _ | None => _ end);
    [left; by split|].
  destruct (Issue.ticketTypeId req) as [type_text|]; [|left; by split].
  destruct (Issue.email req) as [to_|]; [|left; by split].
  destruct (_ || _); [left; by split|].
  destruct (Issue.connect w); [left; by split|].
  destruct (uuid_in type_text); [|left; by split].
  destruct (Issue.select_ticket_type st _); [|left; by split].
  destruct (tickets st !! Issue.new_id w); [left; by split|].
  destruct (negb (default true _)) eqn:Hattach.
  - destruct (Issue.qr_png_base64 w (Issue.new_id w)) as [msg|p] eqn:Hqr;
      [left; by split|].
    right.
    destruct (Issue.notify e w req to_ (Issue.new_id w) _ true (Some p))
      as [[meta result] fx'] eqn:Hn.
    eexists to_, _, (Some p), _. rewrite Hn. simpl. repeat split; eauto.
  - right.
    destruct (Issue.notify e w req to_ (Issue.new_id w) _ false None)
      as [[meta result] fx'] eqn:Hn.
    eexists to_, _, None, _. rewrite Hn. simpl. repeat split; eauto. done.
Qed.

(** C10: without a [linkOnly] member, or with one that parses to neither
    true nor false, the request is link-only: the handler generates no QR
    image and hands the mailer no attachment.  The same holds when it parses
    to true.  When it parses to false and the handler answers 200, the QR
    image of the ticket id was generated, and a message handed to the mailer
    carries it as its one attachment. *)
Theorem linkOnly_default (e : Issue.env) (w : Issue.collaborators) (st : store)
    (now : timestamp) (req : Issue.request) :
  let parsed := Issue.toBooleanOrUndefined (Issue.linkOnly req) in
  let fx := (Issue.POST e w st now req).2 in
  (Issue.linkOnly req = None → parsed = None)
  ∧ (parsed ≠ Some false →
       (∀ p, Issue.QrGenerated p ∉ fx) ∧
       (∀ m, Issue.MailHanded m ∈ fx → Issue.mail_attachments m = []))
  ∧ (parsed = Some false →
       ∀ r, (Issue.POST e w st now req).1.2 = Issue.mkResponse 200 (Issue.Issued r) →
         ∃ png, Issue.qr_png_base64 w (Issue.new_id w) = inr png ∧
                Issue.QrGenerated (Issue.ticketId r) ∈ fx ∧
                (∀ m, Issue.MailHanded m ∈ fx → png ≠ "" →
                   Issue.mail_attachments m =
                     [Issue.mkAttachment ("ticket-" +:+ Issue.ticketId r +:+ ".png")
                        png "image/png"])).
Proof.
  intros parsed fx. subst parsed fx. split; [by intros ->|].
  destruct (issue_effects e w st now req)
    as [[Hfx Hres] | (to_ & url & png & r0 & Hfx & Hres & Hid & Hpng & Hqr)].
  { rewrite Hfx. split.
    - intros _. split; [intros p; apply not_elem_of_nil|]. by intros m ?%elem_of_nil.
    - intros _ r Hr. by destruct (Hres r). }
  rewrite Hfx. split.
  - intros Hp.
    assert (negb (default true (Issue.toBooleanOrUndefined (Issue.linkOnly req))) = false)
      as Hno.
    { by destruct (Issue.toBooleanOrUndefined (Issue.linkOnly req)) as [[]|]. }
    rewrite Hno in *. simpl. split; [intros p; apply notify_no_qr|].
    intros m Hm. apply notify_attachments in Hm as ->. by rewrite Hpng.
  - intros Hp r Hr. rewrite Hres in Hr. injection Hr as <-.
    rewrite Hp in *. simpl in *.
    destruct (Hqr eq_refl) as [p Hp']. rewrite Hp' in Hpng. subst png.
    exists p. split; [done|]. split.
    + apply elem_of_cons. left. by rewrite Hid.
    + intros m [Hm | Hm]%elem_of_cons Hne; [discriminate|].
      apply notify_attachments in Hm as ->. simpl.
      rewrite bool_decide_eq_false_2 by done. by rewrite Hid.
Qed.

Lemma linkOnly_default_witness :
  (∀ p, Issue.QrGenerated p ∉
          (Issue.POST Sample.issue_env Sample.working (Sample.db Sample.id_digest) 70%Z
             Sample.issue_plain).2)
  ∧ Issue.QrGenerated Sample.absent ∈
      (Issue.POST Sample.issue_env Sample.working (Sample.db Sample.id_digest) 70%Z
         Sample.issue_with_qr).2.
Proof.
  split.
  - destruct (linkOnly_default Sample.issue_env Sample.working
                (Sample.db Sample.id_digest) 70%Z Sample.issue_plain) as (_ & H & _).
    apply H. discriminate.
  - destruct (linkOnly_default Sample.issue_env Sample.working
                (Sample.db Sample.id_digest) 70%Z Sample.issue_with_qr) as (_ & _ & H).
    edestruct H as (png & _ & Hin & _); [reflexivity | vm_compute; reflexivity |].
    exact Hin.
Defined.

(** ** Ticket type keywords *)

Lemma word_test_from_includes (w : list ascii) (prev : option ascii) (l : list ascii) :
  Js.word_test_from w prev l = true → Js.includes_chars w l = true.
Proof.
  revert prev. induction l as [|c l IH]; intros prev; simpl.
  - rewrite !orb_false_r, !andb_true_iff. intros [[_ ->] _]. done.
  - rewrite !orb_true_iff, !andb_true_iff. intros [[[_ ->] _] | H]; [by left|].
    right. eauto.
Qed.

(** A keyword found as a word is found as a substring. *)
Lemma word_test_includes (w s : string) :
  Js.word_test w s = true → Js.includes s w = true.
Proof. apply word_test_from_includes. Qed.

(** C7, as the two resolvers have it.  In the classifier of the issue route
    a key with the ball keyword and a food keyword is the combined type,
    whatever else it holds; otherwise the key [ball] itself, or a key with
    [bara] and [ball], is the dance-only type; otherwise there is no match.
    In the bulk sender a key that contains [mat] and [ball] is the combined
    type, any other key that contains [ball] is the dance-only type, and a
    key without [ball] has no match.  On [Matur og ball], [Bara ball],
    [ball] and [Matur] the two agree. *)
Theorem keyword_precedence :
  (∀ key, Js.word_test "ball" key = true →
          Js.word_test "matur" key = true ∨ Js.word_test "mat" key = true →
          Resolver.categorize key = Resolver.FoodAndBall)
  ∧ (∀ key, Resolver.categorize key ≠ Resolver.FoodAndBall →
            key = "ball" ∨
              (Js.word_test "bara" key = true ∧ Js.word_test "ball" key = true) →
            Resolver.categorize key = Resolver.JustBall)
  ∧ (∀ key, Resolver.categorize key ≠ Resolver.FoodAndBall →
            key ≠ "ball" →
            ¬ (Js.word_test "bara" key = true ∧ Js.word_test "ball" key = true) →
            Resolver.categorize key = Resolver.NoMatch)
  ∧ (∀ key, Js.includes key "mat" = true → Js.includes key "ball" = true →
            Resolver.wantedTypeName key = "Matur + ball")
  ∧ (∀ key, Js.includes key "mat" = false → Js.includes key "ball" = true →
            Resolver.wantedTypeName key = "Bara ball")
  ∧ (∀ key, Js.includes key "ball" = false → Resolver.wantedTypeName key = "")
  ∧ (Resolver.resolveChoice "Matur og ball" = "Matur + ball" ∧
     Resolver.resolveChoice "Bara ball" = "Bara ball" ∧
     Resolver.resolveChoice "ball" = "Bara ball" ∧
     Resolver.resolveChoice "Matur" = "")
  ∧ (Resolver.categorize (Resolver.normalizeTicketTypeKey (Some "Matur og ball"))
       = Resolver.FoodAndBall ∧
     Resolver.categorize (Resolver.normalizeTicketTypeKey (Some "Bara ball"))
       = Resolver.JustBall ∧
     Resolver.categorize (Resolver.normalizeTicketTypeKey (Some "ball"))
       = Resolver.JustBall ∧
     Resolver.categorize (Resolver.normalizeTicketTypeKey (Some "Matur"))
       = Resolver.NoMatch).
Proof.
  split; [|split; [|split; [|split; [|split; [|split; [|split]]]]]].
  - intros key Hb Hf. unfold Resolver.categorize, Resolver.isFoodAndBallTicketType.
    rewrite Hb. by destruct Hf as [-> | ->]; rewrite ?orb_true_r.
  - intros key Hn Hj. unfold Resolver.categorize in *.
    destruct (Resolver.isFoodAndBallTicketType key); [done|].
    unfold Resolver.isJustBallTicketType.
    destruct Hj as [-> | [-> ->]]; [done|]. by case_bool_decide.
  - intros key Hn Hk Hj. unfold Resolver.categorize in *.
    destruct (Resolver.isFoodAndBallTicketType key); [done|].
    unfold Resolver.isJustBallTicketType.
    rewrite bool_decide_eq_false_2 by done.
    destruct (Js.word_test "bara" key), (Js.word_test "ball" key); try done.
    by destruct Hj.
  - intros key Hm Hb. unfold Resolver.wantedTypeName. by rewrite Hm, Hb.
  - intros key Hm Hb. unfold Resolver.wantedTypeName. by rewrite Hm, Hb.
  - intros key Hb. unfold Resolver.wantedTypeName. rewrite Hb.
    by rewrite andb_false_r.
  - repeat split; vm_compute; reflexivity.
  - repeat split; vm_compute; reflexivity.
Qed.

Lemma keyword_precedence_witness :
  Resolver.categorize "matur + ball fyrir tvo" = Resolver.FoodAndBall
  ∧ Resolver.categorize "bara ball takk" = Resolver.JustBall
  ∧ Resolver.categorize "ball fyrir tvo" = Resolver.NoMatch
  ∧ Resolver.wantedTypeName "matur + ball fyrir tvo" = "Matur + ball"
  ∧ Resolver.wantedTypeName "ball fyrir tvo" = "Bara ball"
  ∧ Resolver.wantedTypeName "matur" = "".
Proof.
  destruct keyword_precedence as (H1 & H2 & H3 & H4 & H5 & H6 & _).
  split; [|split; [|split; [|split; [|split]]]].
  - apply H1; [|left]; vm_compute; reflexivity.
  - apply H2; [vm_compute; discriminate|]. right. split; vm_compute; reflexivity.
  - apply H3; [vm_compute; discriminate | discriminate |].
    intros [H _]. vm_compute in H. discriminate.
  - apply H4; vm_compute; reflexivity.
  - apply H5; vm_compute; reflexivity.
  - apply H6. vm_compute. reflexivity.
Defined.

(** C7, counterexample: the text [Ball fyrir tvo] holds no food keyword, is
    not the word [ball] alone and has no [bara]; the bulk sender resolves it
    to the dance-only type, and the classifier of the issue route finds no
    match for it. *)
Lemma ball_without_qualifier_resolves :
  let key := Resolver.stripDiacriticsLower "Ball fyrir tvo" in
  Js.includes key "mat" = false ∧
  Resolver.isFoodAndBallTicketType key = false ∧
  key ≠ "ball" ∧
  Js.word_test "bara" key = false ∧ Js.includes key "bara" = false ∧
  Js.word_test "ball" key = true ∧
  Resolver.resolveChoice "Ball fyrir tvo" = "Bara ball" ∧
  Resolver.categorize (Resolver.normalizeTicketTypeKey (Some "Ball fyrir tvo"))
    = Resolver.NoMatch.
Proof.
  repeat split; try (vm_compute; reflexivity). vm_compute. discriminate.
Qed.

(** ** The retrying fetch *)

(** A status that asks for a retry is not a success status, so a response is
    a transient failure exactly when its status is 429 or at least 500. *)
Lemma transient_status (s : nat) (body : option Json.value) :
  Retry.transient (Retry.Responded s body) = true ↔ s = 429 ∨ 500 ≤ s.
Proof.
  unfold Retry.transient, Retry.status_ok, Retry.shouldRetry.
  rewrite andb_true_iff, negb_true_iff, andb_false_iff, orb_true_iff.
  rewrite !Nat.leb_le, !Nat.leb_gt, Nat.eqb_eq. lia.
Qed.

Section RetryFacts.

Import Retry.

Variables (net : nat → attempt_outcome) (max : nat) (base : Z).

(** While the attempts fail transiently below the ceiling, the loop pauses
    and goes on. *)
Lemma attempts_retried (n a : nat) (lastErr : option string) :
  (∀ i, a ≤ i < a + n → transient (net i) = true) →
  a + n ≤ max →
  ∃ lastErr',
    attempts net max base (S (max - a)) a lastErr =
      ((attempts net max base (S (max - (a + n))) (a + n) lastErr').1,
       (retried base a n ++ (attempts net max base (S (max - (a + n))) (a + n) lastErr').2)%list).
Proof.
  revert a lastErr. induction n as [|n IH]; intros a lastErr Htr Hle.
  - exists lastErr. rewrite Nat.add_0_r. simpl retried.
    by destruct (attempts net max base (S (max - a)) a lastErr).
  - assert (transient (net a) = true) as Ha by (apply Htr; lia).
    assert ((a =? max) = false) as Hne by (apply Nat.eqb_neq; lia).
    assert (max - a = S (max - S a)) as Hrem by lia.
    cbn [attempts]. rewrite Hrem.
    destruct (net a) as [s body | message]; simpl in Ha.
    + apply andb_true_iff in Ha as [Hok Hre].
      apply negb_true_iff in Hok. rewrite Hok, Hre, Hne. simpl negb. simpl orb.
      destruct (IH (S a) lastErr) as [lastErr' Heq]; [intros i Hi; apply Htr; lia | lia |].
      exists lastErr'. rewrite Heq.
      replace (S a + n) with (a + S n) by lia. done.
    + rewrite Hne.
      destruct (IH (S a) (Some message)) as [lastErr' Heq];
        [intros i Hi; apply Htr; lia | lia |].
      exists lastErr'. rewrite Heq.
      replace (S a + n) with (a + S n) by lia. done.
Qed.

End RetryFacts.

(** C8: when the attempts before the [k]-th fail transiently (status 429,
    status 500 or above, or a failure of the network), each of them is
    followed by a pause and the next attempt, and the pause doubles from one
    attempt to the next.  The call then ends with the [k]-th attempt: at once
    with the response when it is a success; at once with the failure when
    its status is neither 429 nor 500 or above; and with a failure, after
    the last attempt the ceiling allows, when that one fails transiently
    too. *)
Theorem fetchJsonWithRetry_backoff (net : nat → Retry.attempt_outcome) (o : Retry.opts)
    (k : nat) :
  let max := default 5 (Retry.maxAttempts o) in
  let base := default 800%Z (Retry.baseDelayMs o) in
  1 ≤ k ≤ max →
  (∀ i, 1 ≤ i < k → Retry.transient (net i) = true) →
  (∀ s body, net k = Retry.Responded s body → Retry.status_ok s = true →
     Retry.fetchJsonWithRetry net o =
       (Retry.mkResult true s (Retry.json_or_empty body), Retry.backoff base k))
  ∧ (∀ s body, net k = Retry.Responded s body → Retry.status_ok s = false →
       Retry.shouldRetry s = false →
       Retry.fetchJsonWithRetry net o =
         (Retry.mkResult false s (Retry.json_or_empty body), Retry.backoff base k))
  ∧ (k = max → Retry.transient (net k) = true →
       Retry.fetchJsonWithRetry net o =
         (match net k with
          | Retry.Responded s body => Retry.mkResult false s (Retry.json_or_empty body)
          | Retry.NetworkFailure message => Retry.gave_up (Some message)
          end, Retry.backoff base max))
  ∧ (∀ a, 1 ≤ a → Retry.delay base (S a) = (2 * Retry.delay base a)%Z).
Proof.
  intros max base Hk Htr.
  assert (∃ lastErr',
            Retry.fetchJsonWithRetry net o =
              ((Retry.attempts net max base (S (max - k)) k lastErr').1,
               (Retry.retried base 1 (k - 1) ++
                (Retry.attempts net max base (S (max - k)) k lastErr').2)%list))
    as [lastErr' Hrun].
  { unfold Retry.fetchJsonWithRetry. fold max. fold base.
    destruct (attempts_retried net max base (k - 1) 1 None) as [e He];
      [intros i Hi; apply Htr; lia | lia |].
    exists e. replace (1 + (k - 1)) with k in He by lia.
    replace (S (max - 1)) with max in He by lia. done. }
  rewrite Hrun. clear Hrun. unfold Retry.backoff. cbn [Retry.attempts].
  split; [|split; [|split]].
  - intros s body -> Hok. by rewrite Hok.
  - intros s body -> Hok Hre. by rewrite Hok, Hre.
  - intros -> Hlast. rewrite Nat.eqb_refl.
    destruct (net max) as [s body | message]; simpl in Hlast; [|done].
    apply andb_true_iff in Hlast as [Hok Hre]. apply negb_true_iff in Hok.
    rewrite Hok, Hre. done.
  - intros a Ha. unfold Retry.delay.
    replace (Z.of_nat (S a - 1)) with (Z.succ (Z.of_nat (a - 1))) by lia.
    rewrite Z.pow_succ_r by lia. lia.
Qed.

Lemma fetchJsonWithRetry_backoff_witness :
  Retry.fetchJsonWithRetry Sample.flaky Sample.six_attempts =
    (Retry.mkResult true 200 (Json.Obj [("ok", Json.Bool true)]),
     [Retry.Fetch 1; Retry.Sleep 800; Retry.Fetch 2; Retry.Sleep 1600; Retry.Fetch 3])
  ∧ Retry.fetchJsonWithRetry Sample.rejecting Sample.six_attempts =
      (Retry.mkResult false 400 (Json.Obj [("ok", Json.Bool false)]), [Retry.Fetch 1])
  ∧ Retry.fetchJsonWithRetry Sample.down Sample.six_attempts =
      (Retry.mkResult false 500 (Json.Obj []),
       [Retry.Fetch 1; Retry.Sleep 800; Retry.Fetch 2; Retry.Sleep 1600;
        Retry.Fetch 3; Retry.Sleep 3200; Retry.Fetch 4; Retry.Sleep 6400;
        Retry.Fetch 5; Retry.Sleep 12800; Retry.Fetch 6]).
Proof.
  split; [|split].
  - destruct (fetchJsonWithRetry_backoff Sample.flaky Sample.six_attempts 3) as (H & _).
    + simpl. lia.
    + intros i Hi. assert (i = 1 ∨ i = 2) as [-> | ->] by lia; reflexivity.
    + apply (H 200 (Some (Json.Obj [("ok", Json.Bool true)]))); reflexivity.
  - destruct (fetchJsonWithRetry_backoff Sample.rejecting Sample.six_attempts 1)
      as (_ & H & _).
    + simpl. lia.
    + intros i Hi. lia.
    + apply (H 400 (Some (Json.Obj [("ok", Json.Bool false)]))); reflexivity.
  - destruct (fetchJsonWithRetry_backoff Sample.down Sample.six_attempts 6)
      as (_ & _ & H & _).
    + simpl. lia.
    + intros i Hi. reflexivity.
    + apply H; reflexivity.
Defined.

(** ** Normalised addresses *)

Lemma chars_of_chars (l : list ascii) : Js.chars (Js.of_chars l) = l.
Proof. apply list_ascii_of_string_of_list_ascii. Qed.

Lemma of_chars_chars (s : string) : Js.of_chars (Js.chars s) = s.
Proof. apply string_of_list_ascii_of_string. Qed.

Lemma lower_char_idem (c : ascii) : Js.lower_char (Js.lower_char c) = Js.lower_char c.
Proof. by destruct c as [[] [] [] [] [] [] [] []]. Qed.

Lemma is_space_lower_char (c : ascii) : Js.is_space (Js.lower_char c) = Js.is_space c.
Proof. by destruct c as [[] [] [] [] [] [] [] []]. Qed.

Lemma drop_spaces_split (l : list ascii) :
  ∃ pre, l = (pre ++ Js.drop_spaces l)%list.
Proof.
  induction l as [|c l [pre IH]]; simpl.
  - by exists [].
  - destruct (Js.is_space c); [|by exists []].
    exists (c :: pre). simpl. by rewrite <- IH.
Qed.

Lemma drop_spaces_head (l : list ascii) :
  match Js.drop_spaces l with
  | [] => True
  | c :: _ => Js.is_space c = false
  end.
Proof.
  induction l as [|c l IH]; simpl; [done|].
  destruct (Js.is_space c) eqn:Hc; [done|]. by rewrite Hc.
Qed.

Lemma drop_spaces_fixed (l : list ascii) :
  match l with
  | [] => True
  | c :: _ => Js.is_space c = false
  end →
  Js.drop_spaces l = l.
Proof. destruct l as [|c l]; simpl; [done|]. by intros ->. Qed.

Lemma trim_chars_idem (l : list ascii) :
  Js.trim_chars (Js.trim_chars l) = Js.trim_chars l.
Proof.
  unfold Js.trim_chars.
  pose proof (drop_spaces_head l) as Hhead.
  set (A := Js.drop_spaces l) in *.
  pose proof (drop_spaces_head (rev A)) as HB.
  destruct (drop_spaces_split (rev A)) as [pre Hsplit].
  set (B := Js.drop_spaces (rev A)) in *.
  assert (Js.drop_spaces (rev B) = rev B) as ->.
  { apply drop_spaces_fixed.
    assert (A = (rev B ++ rev pre)%list) as HA.
    { rewrite <- rev_app_distr, <- Hsplit. by rewrite rev_involutive. }
    destruct (rev B) as [|c r]; [done|]. by rewrite HA in Hhead. }
  rewrite rev_involutive. f_equal. by apply drop_spaces_fixed.
Qed.

Lemma drop_spaces_lower (l : list ascii) :
  Js.drop_spaces (map Js.lower_char l) = map Js.lower_char (Js.drop_spaces l).
Proof.
  induction l as [|c l IH]; simpl; [done|].
  rewrite is_space_lower_char. by destruct (Js.is_space c).
Qed.

Lemma trim_chars_lower (l : list ascii) :
  Js.trim_chars (map Js.lower_char l) = map Js.lower_char (Js.trim_chars l).
Proof.
  unfold Js.trim_chars.
  by rewrite drop_spaces_lower, <- map_rev, drop_spaces_lower, map_rev.
Qed.

(** An address that went through [normalizeEmail] is left as it is by
    another pass. *)
Lemma normalizeEmail_idem (s : string) :
  Pipeline.normalizeEmail (Pipeline.normalizeEmail s) = Pipeline.normalizeEmail s.
Proof.
  unfold Pipeline.normalizeEmail, Js.toLowerCase, Js.trim.
  rewrite !chars_of_chars. f_equal.
  rewrite trim_chars_lower, trim_chars_idem.
  rewrite map_map. apply map_ext. intros c. apply lower_char_idem.
Qed.

(** ** The resumable ledger *)

Section LedgerFacts.

Import Pipeline.

Lemma elem_of_readJsonlSet_from (x : string) (log : list line) (acc : gset string) :
  x ∈ foldl (λ sent l,
               match l with
               | Entry obj =>
                   if Json.truthy (Json.get (Some obj) "ok") &&
                      Json.truthy (Json.get (Some obj) "email")
                   then {[ normalizeEmail
                             (Json.to_String_or (Json.get (Some obj) "email") "") ]} ∪ sent
                   else sent
               | Other => sent
               end) acc log
  ↔ x ∈ acc ∨ ∃ l, l ∈ log ∧ marks x l.
Proof.
  revert acc. induction log as [|l log IH]; intros acc; cbn [foldl].
  - split; [by left|]. intros [H | (l & Hl & _)]; [done|]. by apply elem_of_nil in Hl.
  - rewrite IH. split.
    + intros [Hacc | (l' & Hl' & Hm)].
      * destruct l as [obj|]; [|by left].
        destruct (Json.truthy (Json.get (Some obj) "ok")) eqn:Hok;
          [|cbn [andb] in Hacc; by left].
        destruct (Json.truthy (Json.get (Some obj) "email")) eqn:Hem;
          [|cbn [andb] in Hacc; by left].
        cbn [andb] in Hacc. apply elem_of_union in Hacc as [Hx | Hx]; [|by left].
        apply elem_of_singleton in Hx. right. exists (Entry obj).
        split; [apply elem_of_cons; by left|]. by exists obj.
      * right. exists l'. split; [apply elem_of_cons; by right | done].
    + intros [Hacc | (l' & Hl' & Hm)].
      * left. destruct l as [obj|]; [|done].
        destruct (_ && _); [|done]. apply elem_of_union. by right.
      * apply elem_of_cons in Hl' as [-> | Hl']; [|right; eauto].
        left. destruct Hm as (obj & -> & Hok & Hem & ->).
        rewrite Hok, Hem. cbn [andb]. apply elem_of_union. left.
        by apply elem_of_singleton.
Qed.

Lemma elem_of_readJsonlSet (x : string) (log : list line) :
  x ∈ readJsonlSet log ↔ ∃ l, l ∈ log ∧ marks x l.
Proof.
  unfold readJsonlSet. rewrite elem_of_readJsonlSet_from.
  split; [intros [H | H]; [by apply elem_of_empty in H | done] | by right].
Qed.

(** Appending to the ledger only adds to the set read from it. *)
Lemma readJsonlSet_app (x : string) (log more : list line) :
  x ∈ readJsonlSet (log ++ more)%list ↔ x ∈ readJsonlSet log ∨ x ∈ readJsonlSet more.
Proof.
  rewrite !elem_of_readJsonlSet. setoid_rewrite elem_of_app. naive_solver.
Qed.

Lemma find_snoc {A} (p : A → bool) (l : list A) (x : A) :
  find p (l ++ [x])%list =
    match find p l with
    | Some y => Some y
    | None => if p x then Some x else None
    end.
Proof. induction l as [|a l IH]; simpl; [done|]. by destruct (p a). Qed.

Lemma get_Obj_cons (k : string) (v : Json.value) (members : list (string * Json.value))
    (key : string) :
  Json.get (Some (Json.Obj ((k, v) :: members))) key =
    match Json.get (Some (Json.Obj members)) key with
    | Some y => Some y
    | None => if bool_decide (k = key) then Some v else None
    end.
Proof.
  unfold Json.get. cbn [rev]. rewrite find_snoc.
  destruct (find _ (rev members)); simpl; [done|]. by case_bool_decide.
Qed.

(** Reading a member of an object literal: members under another key are
    skipped, and the member is found where no later one has its key. *)
Lemma get_object_skip (k : string) (m : Json.member)
    (rest : list (string * Json.member)) (key : string) :
  k ≠ key →
  Json.get (Some (object ((k, m) :: rest))) key = Json.get (Some (object rest)) key.
Proof.
  intros Hne. unfold object. cbn [omap list_omap snd fst].
  destruct m as [v|]; [|done].
  rewrite get_Obj_cons. rewrite bool_decide_eq_false_2 by done.
  by destruct (Json.get _ key).
Qed.

Lemma get_object_absent (rest : list (string * Json.member)) (key : string) :
  Forall (λ kv, kv.1 ≠ key) rest → Json.get (Some (object rest)) key = None.
Proof.
  induction 1 as [|[k m] rest Hk _ IH]; [done|].
  by rewrite get_object_skip.
Qed.

Lemma get_object_here (v : Json.value) (rest : list (string * Json.member))
    (key : string) :
  Forall (λ kv, kv.1 ≠ key) rest →
  Json.get (Some (object ((key, Some v) :: rest))) key = Some v.
Proof.
  intros Hrest. pose proof (get_object_absent rest key Hrest) as Habs.
  unfold object in *. cbn [omap list_omap snd fst].
  rewrite get_Obj_cons, Habs. by rewrite bool_decide_eq_true_2.
Qed.

(** The record of a row carries the address of the row, and [ok = true]
    when the call succeeded. *)
Lemma ledgerRecord_email (startedAt : string) (r : row) (res : Retry.result) :
  Json.get (Some (ledgerRecord startedAt r res)) "email" = Some (Json.Str (email r)).
Proof.
  unfold ledgerRecord. destruct (negb (Retry.ok res) || _).
  all: do 2 (rewrite get_object_skip by discriminate).
  all: apply get_object_here; repeat constructor; discriminate.
Qed.

Lemma ledgerRecord_ok (startedAt : string) (r : row) (res : Retry.result) :
  succeeded res = true → ok_record (ledgerRecord startedAt r res).
Proof.
  unfold succeeded, ledgerRecord, ok_record. intros H.
  apply andb_true_iff in H as [-> ->]. cbn [negb orb].
  apply get_object_here; repeat constructor; discriminate.
Qed.

Lemma issueBody_recipient (r : row) :
  recipient (issueBody r) = normalizeEmail (email r).
Proof.
  unfold recipient, issueBody.
  rewrite get_object_skip by discriminate.
  rewrite get_object_here; [done|]. repeat constructor; discriminate.
Qed.

(** The loop, as one equation. *)
Lemma send_spec net clock (rows : list row) (i : nat) (acc : outcome) :
  send net clock i rows acc =
    mkOutcome (log acc ++ (Entry <$> records net clock i rows))%list
              (calls acc ++ (issueBody <$> rows))%list
              (sentCount acc + successes net i rows).
Proof.
  revert i acc. induction rows as [|r rows IH]; intros i acc; simpl.
  - rewrite !app_nil_r, Nat.add_0_r. by destruct acc.
  - rewrite IH. simpl. rewrite <- !app_assoc. simpl. f_equal.
    fold (result_at net i). unfold succeeded.
    destruct (Retry.ok (result_at net i)); simpl; [|lia].
    destruct (Json.truthy _); simpl; lia.
Qed.

Lemma successes_le net (rows : list row) (i : nat) :
  successes net i rows ≤ length rows.
Proof.
  revert i. induction rows as [|r rows IH]; intros i; simpl; [lia|].
  specialize (IH (S i)). destruct (succeeded _); lia.
Qed.

Lemma records_length net clock (rows : list row) (i : nat) :
  length (records net clock i rows) = length rows.
Proof. revert i. induction rows as [|r rows IH]; intros i; simpl; [done|]. by rewrite IH. Qed.

(** When every call of the loop succeeded, every record is an [ok = true]
    record and every row's address is read back from the records. *)
Lemma all_sent net clock (rows : list row) (i : nat) :
  successes net i rows = length rows →
  Forall ok_record (records net clock i rows) ∧
  ∀ r, r ∈ rows → email r ≠ "" → normalizeEmail (email r) = email r →
       email r ∈ readJsonlSet (Entry <$> records net clock i rows).
Proof.
  revert i. induction rows as [|r rows IH]; intros i; simpl.
  - intros _. split; [constructor|]. intros r Hr. by apply elem_of_nil in Hr.
  - intros Hall. pose proof (successes_le net rows (S i)) as Hle.
    destruct (succeeded (result_at net i)) eqn:Hs; [|lia].
    destruct (IH (S i)) as [Hok Hin]; [lia|].
    pose proof (ledgerRecord_ok (clock i) r _ Hs) as Hrec.
    split; [by constructor|].
    intros r' [-> | Hr']%elem_of_cons Hne Hnorm.
    + apply elem_of_readJsonlSet. eexists. split; [apply elem_of_cons; by left|].
      eexists. split; [done|]. rewrite Hrec, ledgerRecord_email. simpl.
      rewrite bool_decide_eq_false_2 by done. done.
    + apply (readJsonlSet_app _ [_] _). right. by apply Hin.
Qed.

End LedgerFacts.

(** ** Two runs of the bulk sender *)

Lemma paidRow_email skip types (idxName idxEmail idxType idxPaid : nat) (ln : string)
    (r : Pipeline.row) :
  Pipeline.paidRow skip types idxName idxEmail idxType idxPaid ln = Some r →
  Pipeline.email r ≠ "" ∧ Pipeline.normalizeEmail (Pipeline.email r) = Pipeline.email r.
Proof.
  unfold Pipeline.paidRow.
  destruct (negb (Pipeline.isYesIcelandic _)); [done|].
  destruct (bool_decide (Pipeline.normalizeEmail _ = "") || _) eqn:He; [done|].
  apply orb_false_iff in He as [He _]. apply bool_decide_eq_false in He.
  destruct (bool_decide (_ ∈ skip)); [done|].
  destruct (bool_decide (Resolver.resolveChoice _ = "")); [done|].
  destruct (types !! _) as [wantedId|]; [|done].
  destruct (Json.truthy (Some wantedId)); [|done].
  intros [= <-]. simpl. split; [done|]. apply normalizeEmail_idem.
Qed.

Lemma dedupe_from_subseteq (seen : gset string) (rows : list Pipeline.row)
    (r : Pipeline.row) :
  r ∈ Pipeline.dedupe_from seen rows → r ∈ rows.
Proof.
  revert seen. induction rows as [|a rows IH]; intros seen; simpl; [done|].
  case_bool_decide as Hseen.
  - intros Hr. apply elem_of_cons. right. eauto.
  - intros [-> | Hr]%elem_of_cons; apply elem_of_cons; [by left | right; eauto].
Qed.

(** The rows of a run are distinct by address. *)
Lemma dedupe_from_NoDup (seen : gset string) (rows : list Pipeline.row) :
  NoDup (Pipeline.email <$> Pipeline.dedupe_from seen rows) ∧
  ∀ r, r ∈ Pipeline.dedupe_from seen rows → Pipeline.email r ∉ seen.
Proof.
  revert seen. induction rows as [|a rows IH]; intros seen; simpl.
  - split; [constructor|]. intros r Hr. by apply elem_of_nil in Hr.
  - case_bool_decide as Ha; [apply IH|].
    destruct (IH ({[Pipeline.email a]} ∪ seen)) as [Hnd Hnot]. split.
    + simpl. constructor; [|done].
      intros (r & Hr & Hin)%list_elem_of_fmap. apply Hnot in Hin. set_solver.
    + intros r [-> | Hr]%elem_of_cons; [done|]. apply Hnot in Hr. set_solver.
Qed.

Lemma eligible_rows (cfg : Pipeline.config) (typesRows : list Json.value)
    (rows : list Pipeline.row) :
  Pipeline.eligible cfg typesRows = inr rows →
  NoDup (Pipeline.email <$> rows) ∧
  ∀ r, r ∈ rows →
    Pipeline.email r ≠ "" ∧ Pipeline.normalizeEmail (Pipeline.email r) = Pipeline.email r.
Proof.
  unfold Pipeline.eligible.
  destruct (Pipeline.csv cfg) as [raw|]; [|done].
  destruct (filter _ (Pipeline.split_lines raw)) as [|first [|l data]]; [done..|].
  generalize (l :: data). clear l data. intros data.
  destruct (Pipeline.indexOf _ _) as [idxName|]; [|done].
  destruct (Pipeline.indexOf _ _) as [idxEmail|]; [|done].
  destruct (Pipeline.indexOf _ _) as [idxType|]; [|done].
  destruct (Pipeline.indexOf _ _) as [idxPaid|]; [|done].
  intros Heq. injection Heq as <-. split; [apply dedupe_from_NoDup|].
  intros r Hr%dedupe_from_subseteq.
  apply list_elem_of_omap in Hr as (ln & _ & Hrow).
  by eapply paidRow_email.
Qed.

Lemma filter_none {A} (P : A → Prop) `{!∀ x, Decision (P x)} (l : list A) :
  (∀ x, x ∈ l → ¬ P x) → filter P l = [].
Proof.
  intros Hnone. destruct (filter P l) as [|x xs] eqn:E; [done|].
  assert (x ∈ filter P l) as Hx by (rewrite E; apply elem_of_cons; by left).
  apply list_elem_of_filter in Hx as [HP Hx]. by destruct (Hnone x Hx).
Qed.

(** A run sends to [to_send] and appends one record per row. *)
Lemma main_spec (cfg : Pipeline.config) types_net net clock (ledger : list Pipeline.line) :
  Pipeline.main cfg types_net net clock ledger =
    match Pipeline.plan cfg types_net with
    | inl code => inl code
    | inr deduped =>
        let rows := Pipeline.to_send cfg deduped ledger in
        inr (Pipeline.mkOutcome
               (ledger ++ (Pipeline.Entry <$> Pipeline.records net clock 0 rows))%list
               (Pipeline.issueBody <$> rows)
               (Pipeline.successes net 0 rows))
    end.
Proof.
  unfold Pipeline.main. destruct (Pipeline.plan cfg types_net); [done|].
  by rewrite send_spec.
Qed.

Lemma plan_rows (cfg : Pipeline.config) types_net (deduped : list Pipeline.row) :
  Pipeline.plan cfg types_net = inr deduped →
  NoDup (Pipeline.email <$> deduped) ∧
  ∀ r, r ∈ deduped →
    Pipeline.email r ≠ "" ∧
    Pipeline.normalizeEmail (Pipeline.email r) = Pipeline.email r.
Proof.
  unfold Pipeline.plan.
  destruct (Pipeline.csv cfg) as [raw|]; [|done].
  destruct (Pipeline.eligible cfg _) as [code|rows] eqn:Hel; [done|].
  destruct (negb _ || negb _); [done|].
  intros [= <-]. by apply eligible_rows in Hel.
Qed.

Lemma to_send_sublist (cfg : Pipeline.config) (deduped : list Pipeline.row)
    (ledger : list Pipeline.line) :
  Pipeline.to_send cfg deduped ledger `sublist_of` deduped.
Proof.
  unfold Pipeline.to_send. destruct (Pipeline.dryRun cfg); [apply sublist_nil_l|].
  etrans; [apply sublist_take | apply sublist_filter].
Qed.

Lemma to_send_not_sent (cfg : Pipeline.config) (deduped : list Pipeline.row)
    (ledger : list Pipeline.line) (r : Pipeline.row) :
  r ∈ Pipeline.to_send cfg deduped ledger →
  r ∈ deduped ∧ Pipeline.email r ∉ Pipeline.readJsonlSet ledger.
Proof.
  unfold Pipeline.to_send. destruct (Pipeline.dryRun cfg).
  - by intros ?%elem_of_nil.
  - intros Hr%subseteq_take. apply list_elem_of_filter in Hr. tauto.
Qed.

(** C3: a run posts only for addresses with no [ok = true] entry in the
    ledger it finds, each address once, and appends one record per posted
    body.  When a run that [--max] did not cut short counts every posted
    body as sent, the records it appended are as many [ok = true] records,
    and a second run over the same file with the same options and the
    ledger the first one left posts nothing and leaves the ledger as it
    is. *)
Theorem second_run_issues_nothing (cfg : Pipeline.config)
    (types_net : nat → Retry.attempt_outcome)
    (net1 : nat → nat → Retry.attempt_outcome) (clock1 : nat → string)
    (ledger0 : list Pipeline.line) (run1 : Pipeline.outcome) :
  Pipeline.main cfg types_net net1 clock1 ledger0 = inr run1 →
  (∀ body, body ∈ Pipeline.calls run1 →
     Pipeline.recipient body ∉ Pipeline.readJsonlSet ledger0)
  ∧ NoDup (Pipeline.recipient <$> Pipeline.calls run1)
  ∧ (∃ recs, Pipeline.log run1 = (ledger0 ++ (Pipeline.Entry <$> recs))%list ∧
             length recs = length (Pipeline.calls run1) ∧
             (Pipeline.max cfg = 0 ∨ length (Pipeline.calls run1) < Pipeline.max cfg →
              Pipeline.sentCount run1 = length (Pipeline.calls run1) →
              Forall Pipeline.ok_record recs ∧
              ∀ net2 clock2,
                Pipeline.main cfg types_net net2 clock2 (Pipeline.log run1) =
                  inr (Pipeline.mkOutcome (Pipeline.log run1) [] 0))).
Proof.
  rewrite main_spec.
  destruct (Pipeline.plan cfg types_net) as [code|deduped] eqn:Hplan; [done|].
  destruct (plan_rows _ _ _ Hplan) as [Hnd Hnormal].
  intros [= <-]. simpl.
  set (rows := Pipeline.to_send cfg deduped ledger0).
  assert (∀ r, r ∈ rows → Pipeline.recipient (Pipeline.issueBody r) = Pipeline.email r)
    as Hrec.
  { intros r [Hr _]%to_send_not_sent. rewrite issueBody_recipient.
    by apply Hnormal. }
  split; [|split].
  - intros body (r & -> & Hr)%list_elem_of_fmap. rewrite Hrec by done.
    by apply to_send_not_sent in Hr as [_ ?].
  - rewrite <- list_fmap_compose.
    rewrite (list_fmap_ext _ Pipeline.email rows).
    + eapply sublist_NoDup; [exact Hnd|]. apply fmap_sublist, to_send_sublist.
    + intros i r Hr. simpl. apply Hrec. by eapply list_elem_of_lookup_2.
  - exists (Pipeline.records net1 clock1 0 rows).
    split; [done|]. rewrite records_length, length_fmap. split; [done|].
    intros Hmax Hsent.
    destruct (all_sent net1 clock1 rows 0 Hsent) as [Hok Hin].
    split; [done|]. intros net2 clock2. rewrite main_spec, Hplan.
    assert (Pipeline.to_send cfg deduped
              (ledger0 ++ (Pipeline.Entry <$> Pipeline.records net1 clock1 0 rows))%list
            = []) as ->.
    2:{ cbn [Pipeline.records Pipeline.successes]. rewrite !fmap_nil.
        by rewrite app_nil_r. }
    unfold Pipeline.to_send. destruct (Pipeline.dryRun cfg) eqn:Hdry; [done|].
    rewrite filter_none; [apply take_nil|].
    intros r Hr Hnot. apply Hnot, readJsonlSet_app.
    destruct (decide (Pipeline.email r ∈ Pipeline.readJsonlSet ledger0)) as [|Hfresh];
      [by left|].
    right. destruct (Hnormal r Hr) as [Hne Hnorm]. apply Hin; [|done..].
    (* the first run was not cut short, so [r] was among its rows *)
    subst rows. unfold Pipeline.to_send in *. rewrite Hdry in *.
    set (pending := filter (λ r, Pipeline.email r ∉ Pipeline.readJsonlSet ledger0) deduped)
      in *.
    assert (r ∈ pending) as Hp by (apply list_elem_of_filter; done).
    rewrite take_ge; [done|].
    rewrite length_take in Hmax.
    destruct (0 <? Pipeline.max cfg) eqn:Hlt; [|lia].
    apply Nat.ltb_lt in Hlt. lia.
Qed.

Lemma second_run_issues_nothing_witness :
  ∃ run1,
    Pipeline.main Sample.campaign Sample.types_service Sample.issue_service
      Sample.wall_clock [] = inr run1 ∧
    length (Pipeline.calls run1) = 2 ∧
    Pipeline.sentCount run1 = 2 ∧
    ∀ net2 clock2,
      Pipeline.main Sample.campaign Sample.types_service net2 clock2 (Pipeline.log run1) =
        inr (Pipeline.mkOutcome (Pipeline.log run1) [] 0).
Proof.
  destruct (Pipeline.main Sample.campaign Sample.types_service Sample.issue_service
              Sample.wall_clock []) as [code|run1] eqn:Hrun;
    [vm_compute in Hrun; discriminate|].
  exists run1. split; [done|].
  destruct (second_run_issues_nothing Sample.campaign Sample.types_service
              Sample.issue_service Sample.wall_clock [] run1 Hrun)
    as (_ & _ & recs & _ & _ & Hall).
  vm_compute in Hrun. injection Hrun as <-.
  split; [reflexivity|]. split; [reflexivity|].
  apply Hall; [by left | reflexivity].
Defined.

(** * Further properties of the routes and scripts *)

(** ** Redemption, outcome by outcome *)

Lemma redeem_cases (st : store) (tok : uuid) (key : scanner_key) (now : timestamp) :
  (∃ t, tickets st !! tok = Some t ∧ used t = false ∧
        type_in_event st t (sk_event_id key) = true ∧
        Validate.redeem st tok key now =
          (with_tickets st (<[tok := stamp_used t now (sk_id key)]> (tickets st)),
           Validate.VALID
             (loadTicketRow
                (with_tickets st (<[tok := stamp_used t now (sk_id key)]> (tickets st)))
                tok (sk_event_id key))))
  ∨ ((∀ t, tickets st !! tok = Some t →
           used t = true ∨ type_in_event st t (sk_event_id key) = false) ∧
     Validate.redeem st tok key now =
       (st, match loadTicketRow st tok (sk_event_id key) with
            | Some row => Validate.ALREADY_USED row
            | None => Validate.NOT_FOUND
            end)).
Proof.
  unfold Validate.redeem.
  destruct (tickets st !! tok) as [t|] eqn:Ht.
  - destruct (used t) eqn:Hu.
    + right. split; [intros t' [= <-]; by left|].
      rewrite update_redeem_miss by (intros t' Ht'; left; congruence). simpl.
      by destruct (loadTicketRow st tok (sk_event_id key)).
    + destruct (type_in_event st t (sk_event_id key)) eqn:Hs.
      * left. exists t. repeat split; try done.
        by rewrite (update_redeem_hit _ _ _ _ _ t).
      * right. split; [intros t' [= <-]; by right|].
        rewrite update_redeem_miss by (intros t' Ht'; right; congruence). simpl.
        by destruct (loadTicketRow st tok (sk_event_id key)).
  - right. split; [intros t' Ht'; congruence|].
    rewrite update_redeem_miss by (intros t' Ht'; congruence). simpl.
    by destruct (loadTicketRow st tok (sk_event_id key)).
Qed.

Lemma loadTicketRow_fields (st : store) (tok ev : uuid) (row : ticket_row) :
  loadTicketRow st tok ev = Some row →
  ∃ t ty e,
    tickets st !! tok = Some t ∧
    ticket_types st !! ticket_type_id t = Some ty ∧ tt_event_id ty = ev ∧
    events st !! ev = Some e ∧
    r_id row = tok ∧ r_email row = email t ∧ r_name row = name t ∧
    r_used row = used t ∧ r_used_at row = used_at t ∧
    r_issued_at row = issued_at t ∧
    r_used_by_scanner_key_id row = used_by_scanner_key_id t ∧
    r_ticket_type row = tt_name ty ∧ r_event_name row = ev_name e.
Proof.
  unfold loadTicketRow.
  destruct (tickets st !! tok) as [t|]; [|done].
  destruct (ticket_types st !! ticket_type_id t) as [ty|] eqn:Hty; [|done].
  destruct (events st !! tt_event_id ty) as [e|] eqn:He; [|done].
  case_bool_decide as Hev; [|done]. intros [= <-]. subst ev.
  exists t, ty, e. repeat split; done.
Qed.

(** X1: what each answer of [redeem] tells.  VALID is answered only for a
    ticket that was unused and whose type is of the key's event, and a row
    sent with it shows the ticket used, stamped with the time and the key of
    this call.  ALREADY_USED is answered only for a ticket of the key's
    event that was used before the call, and its row shows the stamps the
    ticket already had.  NOT_FOUND is answered only when [loadTicketRow]
    finds no row of the key's event. *)
Theorem redeem_answer_meaning (st st' : store) (tok : uuid) (key : scanner_key)
    (now : timestamp) (o : Validate.outcome) :
  Validate.redeem st tok key now = (st', o) →
  match o with
  | Validate.VALID row =>
      (∃ t, tickets st !! tok = Some t ∧ used t = false ∧
            type_in_event st t (sk_event_id key) = true ∧
            tickets st' !! tok = Some (stamp_used t now (sk_id key))) ∧
      (∀ r, row = Some r →
            r_id r = tok ∧ r_used r = true ∧ r_used_at r = Some now ∧
            r_used_by_scanner_key_id r = Some (sk_id key))
  | Validate.ALREADY_USED r =>
      st' = st ∧
      ∃ t, tickets st !! tok = Some t ∧ used t = true ∧
           type_in_event st t (sk_event_id key) = true ∧
           r_id r = tok ∧ r_used r = true ∧ r_used_at r = used_at t ∧
           r_used_by_scanner_key_id r = used_by_scanner_key_id t
  | Validate.NOT_FOUND =>
      st' = st ∧ loadTicketRow st tok (sk_event_id key) = None
  end.
Proof.
  intros Hr.
  destruct (redeem_cases st tok key now) as [(t & Ht & Hu & Hs & Heq) | [Hmiss Heq]];
    rewrite Heq in Hr; injection Hr as <- <-.
  - split.
    + exists t. repeat split; try done. simpl. by rewrite lookup_insert_eq.
    + intros r Hrow. apply loadTicketRow_fields in Hrow
        as (t' & ty & e & Ht' & _ & _ & _ & Hid & _ & _ & Hused & Hat & _ & Hby & _).
      simpl in Ht'. rewrite lookup_insert_eq in Ht'. injection Ht' as <-.
      by rewrite Hid, Hused, Hat, Hby.
  - destruct (loadTicketRow st tok (sk_event_id key)) as [r|] eqn:Hrow; [|done].
    split; [done|].
    apply loadTicketRow_fields in Hrow
      as (t & ty & e & Ht & Hty & Hev & _ & Hid & _ & _ & Hused & Hat & _ & Hby & _).
    assert (type_in_event st t (sk_event_id key) = true) as Hs.
    { unfold type_in_event. rewrite Hty. by apply bool_decide_eq_true. }
    exists t. destruct (Hmiss t Ht) as [Hu | Hn]; [|congruence].
    repeat split; try done. by rewrite Hused.
Qed.

Lemma redeem_answer_meaning_witness :
  ∃ t,
    tickets (Sample.db Sample.id_digest) !! Sample.fresh = Some t ∧ used t = false ∧
    tickets Cases.after_scan !! Sample.fresh =
      Some (stamp_used t 50%Z (sk_id (Sample.key_a Sample.id_digest))).
Proof.
  destruct (redeem_answer_meaning (Sample.db Sample.id_digest) Cases.after_scan
              Sample.fresh (Sample.key_a Sample.id_digest) 50%Z
              (Validate.VALID Cases.scan_row))
    as [(t & Ht & Hu & _ & Ht') _]; [vm_compute; reflexivity|].
  exists t. split; [exact Ht|]. split; [exact Hu | exact Ht'].
Defined.

Lemma redeem_used (st : store) (tok : uuid) (key : scanner_key) (now : timestamp)
    (t : ticket) :
  tickets st !! tok = Some t → used t = true →
  Validate.redeem st tok key now =
    (st, match loadTicketRow st tok (sk_event_id key) with
         | Some row => Validate.ALREADY_USED row
         | None => Validate.NOT_FOUND
         end).
Proof.
  intros Ht Hu.
  destruct (redeem_cases st tok key now) as [(t' & Ht' & Hu' & _) | [_ Heq]];
    [congruence | done].
Qed.

(** X2: a ticket is redeemed at most once.  After a VALID answer, a later
    [redeem] of the same token, with any key and at any time, never answers
    VALID and leaves the store as the first call left it; through a key of
    the ticket's event (an event of the store) it answers ALREADY_USED with
    the time and the key of the first call. *)
Theorem redeem_at_most_once (st st1 : store) (tok : uuid) (key1 key2 : scanner_key)
    (now1 now2 : timestamp) (row : option ticket_row) :
  Validate.redeem st tok key1 now1 = (st1, Validate.VALID row) →
  (Validate.redeem st1 tok key2 now2).1 = st1
  ∧ (∀ row', (Validate.redeem st1 tok key2 now2).2 ≠ Validate.VALID row')
  ∧ (sk_event_id key2 = sk_event_id key1 → is_Some (events st !! sk_event_id key1) →
     ∃ r, (Validate.redeem st1 tok key2 now2).2 = Validate.ALREADY_USED r ∧
          r_used_at r = Some now1 ∧
          r_used_by_scanner_key_id r = Some (sk_id key1)).
Proof.
  intros Hr.
  destruct (redeem_cases st tok key1 now1) as [(t & Ht & Hu & Hs & Heq) | [_ Heq]];
    rewrite Heq in Hr; [|by destruct (loadTicketRow st tok (sk_event_id key1))].
  injection Hr as <- _.
  set (st1 := with_tickets st (<[tok := stamp_used t now1 (sk_id key1)]> (tickets st))).
  assert (tickets st1 !! tok = Some (stamp_used t now1 (sk_id key1))) as Ht1.
  { subst st1. simpl. by rewrite lookup_insert_eq. }
  rewrite (redeem_used st1 tok key2 now2 _ Ht1 eq_refl). simpl.
  split; [done|]. split.
  - intros row'. by destruct (loadTicketRow st1 tok (sk_event_id key2)).
  - intros -> Hex.
    destruct (loadTicketRow_Some st1 tok (sk_event_id key1) _ Ht1)
      as (r & -> & _ & _ & Hat & Hby); [done..|]. eauto.
Qed.

Lemma redeem_at_most_once_witness :
  ∃ r,
    (Validate.redeem Cases.after_scan Sample.fresh (Sample.key_a Sample.id_digest) 99%Z).2 =
      Validate.ALREADY_USED r ∧
    r_used_at r = Some 50%Z ∧
    r_used_by_scanner_key_id r = Some (sk_id (Sample.key_a Sample.id_digest)).
Proof.
  destruct (redeem_at_most_once (Sample.db Sample.id_digest) Cases.after_scan Sample.fresh
              (Sample.key_a Sample.id_digest) (Sample.key_a Sample.id_digest) 50%Z 99%Z
              Cases.scan_row) as (_ & _ & Hused); [vm_compute; reflexivity|].
  apply Hused; [reflexivity|]. eexists. vm_compute. reflexivity.
Defined.

(** X3: a burned ticket cannot be redeemed.  For every id among the rows a
    burn returns, a later [redeem] with any key at any time does not answer
    VALID and changes nothing. *)
Theorem burned_ticket_is_not_redeemable (st st' : store) (now : timestamp)
    (req : Burn.request) (n : nat) (rows : list (uuid * bool)) (tok : uuid)
    (key : scanner_key) (now2 : timestamp) :
  Burn.forceBurn st now req = (st', Burn.mkResponse 200 (Burn.Burned n rows)) →
  tok ∈ rows.*1 →
  (Validate.redeem st' tok key now2).1 = st' ∧
  ∀ row, (Validate.redeem st' tok key now2).2 ≠ Validate.VALID row.
Proof.
  unfold Burn.forceBurn.
  destruct (Burn.normalizeTicketIds _) as [|i ids]; [done|].
  destruct (Burn.uuid_array_in (i :: ids)) as [us|]; [|done].
  pose proof (update_burn_lookup st us now tok) as Hlook.
  destruct (update_burn st us now) as [st1 returned] eqn:Hb.
  intros [= <- _ <-] Hin. simpl in Hlook.
  assert (tok ∈ returned) as Hret.
  { apply list_elem_of_fmap in Hin as ([i' b] & -> & Hin).
    apply list_elem_of_fmap in Hin as (i'' & [= -> _] & Hin). done. }
  unfold update_burn in Hb. injection Hb as _ <-.
  apply list_elem_of_filter in Hret as [Hus Hdom].
  apply list_elem_of_fmap in Hdom as ([k t] & -> & Hkt).
  apply elem_of_map_to_list in Hkt. simpl in *.
  rewrite Hkt in Hlook. simpl in Hlook. rewrite bool_decide_eq_true_2 in Hlook by done.
  rewrite (redeem_used st1 k key now2 _ Hlook eq_refl). simpl. split; [done|].
  intros row. by destruct (loadTicketRow st1 k (sk_event_id key)).
Qed.

Lemma burned_ticket_is_not_redeemable_witness :
  (Validate.redeem Cases.after_burn Sample.scanned (Sample.key_a Sample.id_digest) 61%Z).1 =
    Cases.after_burn ∧
  ∀ row,
    (Validate.redeem Cases.after_burn Sample.scanned (Sample.key_a Sample.id_digest) 61%Z).2
      ≠ Validate.VALID row.
Proof.
  apply (burned_ticket_is_not_redeemable (Sample.db Sample.id_digest) Cases.after_burn 60%Z
           Sample.burn_scanned 1 [(Sample.scanned, true)]).
  - vm_compute. reflexivity.
  - apply list_elem_of_singleton. reflexivity.
Defined.

(** X4: [redeem] writes at most the two stamps and the [used] flag of the one
    ticket it was given.  Every other ticket, the ticket types, the events
    and the scanner keys are as before, and the scanned ticket keeps its
    type, address, name and time of issue. *)
Theorem redeem_writes_one_ticket (st : store) (tok : uuid) (key : scanner_key)
    (now : timestamp) :
  let st' := (Validate.redeem st tok key now).1 in
  ticket_types st' = ticket_types st ∧ events st' = events st ∧
  scanner_keys st' = scanner_keys st ∧
  (∀ other, other ≠ tok → tickets st' !! other = tickets st !! other) ∧
  (∀ t, tickets st !! tok = Some t →
     ∃ t', tickets st' !! tok = Some t' ∧
           ticket_type_id t' = ticket_type_id t ∧ email t' = email t ∧
           name t' = name t ∧ issued_at t' = issued_at t) ∧
  (tickets st !! tok = None → tickets st' !! tok = None).
Proof.
  intros st'. subst st'.
  destruct (redeem_store st tok key now) as [-> | (t0 & Ht0 & ->)].
  - repeat split; try done. intros t Ht. by exists t.
  - simpl. repeat split.
    + intros other Hne. by rewrite lookup_insert_ne.
    + intros t Ht. rewrite lookup_insert_eq. eexists. split; [done|].
      rewrite Ht0 in Ht. by injection Ht as <-.
    + intros Hnone. congruence.
Qed.

Lemma redeem_writes_one_ticket_witness :
  tickets (Validate.redeem (Sample.db Sample.id_digest) Sample.fresh
             (Sample.key_a Sample.id_digest) 50%Z).1 !! Sample.scanned
  = tickets (Sample.db Sample.id_digest) !! Sample.scanned.
Proof.
  destruct (redeem_writes_one_ticket (Sample.db Sample.id_digest) Sample.fresh
              (Sample.key_a Sample.id_digest) 50%Z) as (_ & _ & _ & H & _).
  apply H. discriminate.
Defined.

(** ** From issuance to the door *)

(** What a 200 answer of the issue handler says about the request and the
    store. *)
Lemma issue_ok_inv (e : Issue.env) (w : Issue.collaborators) (st st' : store)
    (now : timestamp) (req : Issue.request) (r : Issue.issued) (fx : list Issue.effect) :
  Issue.POST e w st now req = (st', Issue.mkResponse 200 (Issue.Issued r), fx) →
  ∃ type_text to_ type_id ty,
    Issue.ticketTypeId req = Some type_text ∧ Issue.email req = Some to_ ∧
    type_text ≠ "" ∧ to_ ≠ "" ∧
    uuid_in type_text = Some type_id ∧
    ticket_types st !! type_id = Some ty ∧ is_Some (events st !! tt_event_id ty) ∧
    tickets st !! Issue.new_id w = None ∧
    st' = insert_ticket st (Issue.new_id w) type_id to_ (Issue.name req) now ∧
    Issue.ticketId r = Issue.new_id w ∧ Issue.issuedAt r = now ∧
    Issue.ticketUrl r =
      default (Issue.origin req) (Issue.TICKETS_PUBLIC_BASE_URL e)
        +:+ "/t/" +:+ Issue.new_id w.
Proof.
  unfold Issue.POST.
  destruct (match Issue.ISSUE_API_KEY e with Some _ => _ | None => _ end); [done|].
  destruct (Issue.ticketTypeId req) as [type_text|]; [|done].
  destruct (Issue.email req) as [to_|]; [|done].
  destruct (_ || _) eqn:Hempty; [done|].
  apply orb_false_iff in Hempty as [H1 H2].
  apply bool_decide_eq_false in H1. apply bool_decide_eq_false in H2.
  destruct (Issue.connect w); [done|].
  destruct (uuid_in type_text) as [type_id|] eqn:Hid; [|done].
  destruct (Issue.select_ticket_type st type_id) as [ty|] eqn:Hsel; [|done].
  destruct (tickets st !! Issue.new_id w) eqn:Hfree; [done|].
  assert (ticket_types st !! type_id = Some ty ∧ is_Some (events st !! tt_event_id ty))
    as [Hty Hev].
  { unfold Issue.select_ticket_type in Hsel.
    destruct (ticket_types st !! type_id) as [ty'|]; [|done].
    destruct (events st !! tt_event_id ty') eqn:He; [|done].
    injection Hsel as <-. eauto. }
  destruct (if negb _ then _ else _) as [msg | [png fx0]]; [done|].
  destruct (Issue.notify _ _ _ _ _ _ _ _) as [[meta res] fx'].
  intros [= <- <- _]. exists type_text, to_, type_id, ty. repeat split; done.
Qed.

(** X5: issuance and redemption fit together.  When the issue handler
    answers 200, the ticket it names exists, is unused and carries the
    address of the request; a scanner key of the event of its ticket type
    redeems it (VALID, with the row of the ticket), and a key of any other
    event gets NOT_FOUND and changes nothing. *)
Theorem issued_ticket_is_redeemable (e : Issue.env) (w : Issue.collaborators)
    (st st' : store) (now : timestamp) (req : Issue.request) (r : Issue.issued)
    (fx : list Issue.effect) :
  Issue.POST e w st now req = (st', Issue.mkResponse 200 (Issue.Issued r), fx) →
  ∃ t ty,
    tickets st' !! Issue.ticketId r = Some t ∧ used t = false ∧
    used_at t = None ∧ used_by_scanner_key_id t = None ∧
    Some (email t) = Issue.email req ∧ issued_at t = now ∧
    ticket_types st' !! ticket_type_id t = Some ty ∧
    (∀ key now2, sk_event_id key = tt_event_id ty →
       ∃ st'' row,
         Validate.redeem st' (Issue.ticketId r) key now2 =
           (st'', Validate.VALID (Some row)) ∧
         r_email row = email t ∧ r_ticket_type row = tt_name ty ∧
         r_used_at row = Some now2) ∧
    (∀ key now2, sk_event_id key ≠ tt_event_id ty →
       Validate.redeem st' (Issue.ticketId r) key now2 = (st', Validate.NOT_FOUND)).
Proof.
  intros (type_text & to_ & type_id & ty & _ & Hto & _ & _ & _ & Hty & Hev & Hfree &
          -> & -> & _)%issue_ok_inv.
  set (id := Issue.new_id w) in *.
  set (t := new_ticket type_id to_ (Issue.name req) now).
  assert (tickets (insert_ticket st id type_id to_ (Issue.name req) now) !! id = Some t)
    as Ht by (unfold insert_ticket; simpl; by rewrite lookup_insert_eq).
  exists t, ty. repeat split; try done.
  - intros key now2 Hkey.
    destruct (redeem_cases (insert_ticket st id type_id to_ (Issue.name req) now) id key now2)
      as [(t' & Ht' & _ & _ & Heq) | [Hmiss _]].
    + rewrite Ht in Ht'. injection Ht' as <-. rewrite Heq.
      match goal with |- context [loadTicketRow ?s id _] => set (st2 := s) end.
      destruct (loadTicketRow_Some st2 id (sk_event_id key) (stamp_used t now2 (sk_id key)))
        as (row & Hrow & _ & _ & Hat & _).
      * subst st2. simpl. by rewrite lookup_insert_eq.
      * unfold type_in_event. subst st2. simpl. rewrite Hty.
        by apply bool_decide_eq_true.
      * subst st2. simpl. by rewrite Hkey.
      * rewrite Hrow. eexists _, row. split; [done|].
        apply loadTicketRow_fields in Hrow
          as (t2 & ty2 & e2 & Ht2 & Hty2 & _ & _ & _ & Hem & _ & _ & _ & _ & _ & Htn & _).
        subst st2. simpl in *. rewrite lookup_insert_eq in Ht2. injection Ht2 as <-.
        simpl in Hty2. rewrite Hty in Hty2. injection Hty2 as <-.
        by rewrite Hem, Htn, Hat.
    + destruct (Hmiss t Ht) as [Hu | Hn]; [done|].
      unfold type_in_event in Hn. simpl in Hn. rewrite Hty in Hn.
      by apply bool_decide_eq_false in Hn.
  - intros key now2 Hkey.
    assert (type_in_event (insert_ticket st id type_id to_ (Issue.name req) now) t
              (sk_event_id key) = false) as Hout.
    { unfold type_in_event. simpl. rewrite Hty. by apply bool_decide_eq_false. }
    destruct (redeem_cases (insert_ticket st id type_id to_ (Issue.name req) now) id key now2)
      as [(t' & Ht' & _ & Hs & _) | [_ Heq]].
    + rewrite Ht in Ht'. injection Ht' as <-. congruence.
    + rewrite Heq, loadTicketRow_None; [done|]. right. by exists t.
Qed.

Lemma issued_ticket_is_redeemable_witness :
  ∃ t ty,
    tickets Cases.after_issue !! Sample.absent = Some t ∧ used t = false ∧
    ticket_types Cases.after_issue !! ticket_type_id t = Some ty ∧
    tt_event_id ty = Sample.event_a.
Proof.
  destruct (issued_ticket_is_redeemable Sample.issue_env Sample.working
              (Sample.db Sample.id_digest) Cases.after_issue 70%Z Sample.issue_plain
              Cases.issued_answer Cases.issued_effects)
    as (t & ty & Ht & Hu & _ & _ & _ & _ & Hty & _ & _); [vm_compute; reflexivity|].
  exists t, ty. split; [exact Ht|]. split; [exact Hu|]. split; [exact Hty|].
  revert Ht Hty. unfold Cases.after_issue, Cases.issued_answer.
  intros Ht. vm_compute in Ht. injection Ht as <-.
  intros Hty. vm_compute in Hty. injection Hty as <-. reflexivity.
Defined.

Lemma uuid_test_nonempty (s : string) : uuid_test s = true → s ≠ "".
Proof. by intros H ->. Qed.

(** The get route on an id of the canonical shape: 404 when the join finds
    no row, 200 with the row otherwise, and one statement sent. *)
Lemma get_canonical (st : store) (id : string) :
  uuid_test id = true →
  Get.GET st (Some id) =
    (match Get.select_ticket st (Js.toLowerCase id) with
     | Some r => Get.mkResponse 200 (Get.Found r)
     | None => Get.mkResponse 404 (Get.Failure "NOT_FOUND")
     end, [Get.SelectTicket id]).
Proof.
  intros H. unfold Get.GET.
  rewrite bool_decide_eq_false_2 by (by apply uuid_test_nonempty).
  rewrite H, (uuid_test_uuid_in id H). simpl.
  by destruct (Get.select_ticket st (Js.toLowerCase id)).
Qed.

(** X6: what the door did shows on the ticket page.  After [redeem] answers
    VALID for a token, through a key whose event is in the store, the get
    route answers 200 for that token with [used = true] and [used_at] the
    time of the redemption, and with the address, name and time of issue the
    ticket had before. *)
Theorem redeemed_ticket_shows_used (st st' : store) (id : string) (key : scanner_key)
    (now : timestamp) (row : option ticket_row) (t : ticket) :
  uuid_test id = true →
  tickets st !! Js.toLowerCase id = Some t →
  is_Some (events st !! sk_event_id key) →
  Validate.redeem st (Js.toLowerCase id) key now = (st', Validate.VALID row) →
  ∃ g, Get.GET st' (Some id) = (Get.mkResponse 200 (Get.Found g), [Get.SelectTicket id]) ∧
       Get.g_used g = true ∧ Get.g_used_at g = Some now ∧
       Get.g_email g = email t ∧ Get.g_name g = name t ∧
       Get.g_issued_at g = issued_at t.
Proof.
  intros Hid Ht [ev Hev] Hr. rewrite (get_canonical _ _ Hid).
  destruct (redeem_cases st (Js.toLowerCase id) key now)
    as [(t' & Ht' & Hu & Hs & Heq) | [_ Heq]]; rewrite Heq in Hr;
    [|by destruct (loadTicketRow st (Js.toLowerCase id) (sk_event_id key))].
  injection Hr as <- _.
  assert (Some t = Some t') as [= <-] by exact (eq_trans (eq_sym Ht) Ht').
  unfold Get.select_ticket. simpl. rewrite lookup_insert_eq. simpl.
  unfold type_in_event in Hs.
  destruct (ticket_types st !! ticket_type_id t) as [ty|]; [|done].
  apply bool_decide_eq_true in Hs. rewrite Hs, Hev. eexists. split; [done|]. done.
Qed.

Lemma redeemed_ticket_shows_used_witness :
  ∃ g,
    Get.GET Cases.after_scan (Some Sample.fresh) =
      (Get.mkResponse 200 (Get.Found g), [Get.SelectTicket Sample.fresh]) ∧
    Get.g_used g = true ∧ Get.g_used_at g = Some 50%Z.
Proof.
  destruct (redeemed_ticket_shows_used (Sample.db Sample.id_digest) Cases.after_scan
              Sample.fresh (Sample.key_a Sample.id_digest) 50%Z Cases.scan_row
              Sample.fresh_ticket)
    as (g & Hg & Hu & Hat & _).
  - vm_compute. reflexivity.
  - vm_compute. reflexivity.
  - eexists. vm_compute. reflexivity.
  - vm_compute. reflexivity.
  - exists g. split; [exact Hg|]. split; [exact Hu | exact Hat].
Defined.

(** ** The validate route before the update *)

Lemma select_scanner_key_spec (digest : string → string) (st : store) (hash : string)
    (now : timestamp) :
  match Validate.select_scanner_key st hash now with
  | Some k =>
      k ∈ scanner_keys st ∧ sk_key_hash k = hash ∧ sk_active k = true ∧
      (∀ e, sk_expires_at k = Some e → (now < e)%Z)
  | None =>
      ∀ k, k ∈ scanner_keys st → sk_key_hash k = hash → sk_active k = true →
           ∃ e, sk_expires_at k = Some e ∧ (e ≤ now)%Z
  end.
Proof.
  unfold Validate.select_scanner_key.
  induction (scanner_keys st) as [|k ks IH]; simpl.
  - intros k Hk. by apply elem_of_nil in Hk.
  - destruct (bool_decide (sk_key_hash k = hash) && sk_active k &&
              match sk_expires_at k with Some e => (now <? e)%Z | None => true end) eqn:Hk.
    + apply andb_true_iff in Hk as [Hk He]. apply andb_true_iff in Hk as [Hh Ha].
      apply bool_decide_eq_true in Hh. repeat split; try done.
      * apply elem_of_cons. by left.
      * intros e Hexp. rewrite Hexp in He. by apply Z.ltb_lt.
    + destruct (find _ ks) as [k'|].
      * destruct IH as (Hin & ?). split; [apply elem_of_cons; by right | done].
      * intros k' [-> | Hin]%elem_of_cons Hh Ha; [|by apply IH].
        rewrite Ha, bool_decide_eq_true_2 in Hk by done. simpl in Hk.
        destruct (sk_expires_at k) as [e|]; [|done].
        exists e. split; [done|]. apply Z.ltb_ge in Hk. lia.
Qed.

(** X7: the validate route writes only when it answers VALID.  Without a
    bearer token it answers 401 and without a [ticketId] 400, in both cases
    before any statement is sent; when no scanner key with the digest of
    the token is active and unexpired it answers 403 after the key lookup
    alone; and whenever the answer is not a 200 with VALID the store is as
    it was.  A key it accepts is a row of [scanner_keys] with that digest,
    active, and with no expiry or one in the future. *)
Theorem validate_route_guards (digest : string → string) (st : store)
    (t_auth t_scan : timestamp) (req : Validate.request) :
  let out := Validate.POST digest st t_auth t_scan req in
  let bearer := Validate.parse_bearer (default "" (Validate.authorization req)) in
  (bearer = None →
     out = (st, Validate.mkResponse 401
                  (Validate.Failure "Missing Authorization Bearer token"), []))
  ∧ (is_Some bearer →
     Validate.ticketId req = None ∨ Validate.ticketId req = Some "" →
     out = (st, Validate.mkResponse 400 (Validate.Failure "ticketId is required"), []))
  ∧ (∀ token id, bearer = Some token → Validate.ticketId req = Some id → id ≠ "" →
       (∀ k, k ∈ scanner_keys st → sk_key_hash k = digest token → sk_active k = true →
             ∃ e, sk_expires_at k = Some e ∧ (e ≤ t_auth)%Z) →
       out = (st, Validate.mkResponse 403 (Validate.Failure "Invalid scanner key"),
              [Validate.SelectScannerKey (digest token)]))
  ∧ ((∀ row, Validate.payload out.1.2 ≠ Validate.Scanned (Validate.VALID row)) →
     out.1.1 = st)
  ∧ (∀ o, Validate.payload out.1.2 = Validate.Scanned o →
       Validate.http_status out.1.2 = 200 ∧
       ∃ token k, bearer = Some token ∧
                  k ∈ scanner_keys st ∧ sk_key_hash k = digest token ∧
                  sk_active k = true ∧ (∀ e, sk_expires_at k = Some e → (t_auth < e)%Z)).
Proof.
  intros out bearer. subst out bearer. unfold Validate.POST.
  split; [by intros ->|]. split.
  { intros [token ->] [-> | ->]; done. }
  split.
  { intros token id -> -> Hne Hnone. rewrite bool_decide_eq_false_2 by done.
    pose proof (select_scanner_key_spec digest st (digest token) t_auth) as Hsel.
    destruct (Validate.select_scanner_key st (digest token) t_auth) as [key|]; [|done].
    destruct Hsel as (Hin & Hh & Ha & He).
    destruct (Hnone key Hin Hh Ha) as (e & Hexp & Hle). specialize (He e Hexp). lia. }
  destruct (Validate.parse_bearer _) as [token|]; [|by split].
  destruct (Validate.ticketId req) as [id|]; [|by split].
  case_bool_decide; [by split|].
  pose proof (select_scanner_key_spec digest st (digest token) t_auth) as Hsel.
  destruct (Validate.select_scanner_key st (digest token) t_auth) as [key|]; [|by split].
  destruct (uuid_in id) as [tok|]; [|by split].
  destruct (redeem_cases st tok key t_scan) as [(t & _ & _ & _ & Heq) | [_ Heq]];
    rewrite Heq; simpl.
  - split.
    + intros Hnv. by destruct (Hnv (loadTicketRow
        (with_tickets st (<[tok:=stamp_used t t_scan (sk_id key)]> (tickets st)))
        tok (sk_event_id key))).
    + intros o _. split; [done|]. exists token, key. by destruct Hsel as (? & ? & ? & ?).
  - split; [done|].
    intros o _. split; [done|]. exists token, key. by destruct Hsel as (? & ? & ? & ?).
Qed.

Lemma validate_route_guards_witness :
  Validate.POST Sample.id_digest (Sample.db Sample.id_digest) 40%Z 41%Z
    (Validate.mkRequest (Some "Bearer wrong-secret") (Some Sample.fresh)) =
    (Sample.db Sample.id_digest,
     Validate.mkResponse 403 (Validate.Failure "Invalid scanner key"),
     [Validate.SelectScannerKey "wrong-secret"]).
Proof.
  destruct (validate_route_guards Sample.id_digest (Sample.db Sample.id_digest) 40%Z 41%Z
              (Validate.mkRequest (Some "Bearer wrong-secret") (Some Sample.fresh)))
    as (_ & _ & H & _).
  apply (H "wrong-secret" Sample.fresh); [reflexivity | reflexivity | discriminate |].
  intros k Hk Hh. exfalso. unfold Sample.db in Hk. simpl in Hk.
  repeat (apply elem_of_cons in Hk as [-> | Hk]); [discriminate..|].
  by apply elem_of_nil in Hk.
Defined.

(** ** The bearer token *)

Lemma drop_spaces_idem (l : list ascii) :
  Js.drop_spaces (Js.drop_spaces l) = Js.drop_spaces l.
Proof. apply drop_spaces_fixed, drop_spaces_head. Qed.

Lemma drop_spaces_snoc (l : list ascii) (c : ascii) :
  Js.is_space c = false → Js.drop_spaces (l ++ [c])%list ≠ [].
Proof.
  intros Hc. induction l as [|a l IH]; simpl.
  - by rewrite Hc.
  - by destruct (Js.is_space a).
Qed.

Lemma trim_chars_nonempty (c : ascii) (r : list ascii) :
  Js.is_space c = false → Js.trim_chars (c :: r) ≠ [].
Proof.
  intros Hc. unfold Js.trim_chars. cbn [Js.drop_spaces]. rewrite Hc.
  destruct (drop_spaces_split (rev (c :: r))) as [pre Hsplit].
  intros Hnil. apply (f_equal (@rev ascii)) in Hnil. rewrite rev_involutive in Hnil.
  cbn [rev] in Hnil, Hsplit. by apply (drop_spaces_snoc (rev r) c Hc).
Qed.

Lemma trim_chars_drop_spaces (l : list ascii) :
  Js.trim_chars (Js.drop_spaces l) = Js.trim_chars l.
Proof. unfold Js.trim_chars. by rewrite drop_spaces_idem. Qed.

Lemma of_chars_nil (l : list ascii) : Js.of_chars l = "" → l = [].
Proof. intros H. apply (f_equal Js.chars) in H. by rewrite chars_of_chars in H. Qed.

Lemma chars_append (a b : string) : Js.chars (a +:+ b) = (Js.chars a ++ Js.chars b)%list.
Proof.
  unfold Js.chars. induction a as [|c a IH]; [done|].
  change (String c a +:+ b) with (String c (a +:+ b)).
  cbn [list_ascii_of_string app]. by rewrite IH.
Qed.

(** A token the routes read off an [Authorization] header is never empty
    and carries no white space around it. *)
Lemma parse_bearer_trimmed (auth t : string) :
  Validate.parse_bearer auth = Some t → t ≠ "" ∧ Js.trim t = t.
Proof.
  unfold Validate.parse_bearer.
  destruct (Js.starts_with _ _); [|done].
  destruct (drop 6 (Js.chars auth)) as [|c l] eqn:Hdrop; [done|].
  destruct (Js.is_space c); [|done].
  pose proof (drop_spaces_head (c :: l)) as Hhead.
  destruct (Js.drop_spaces (c :: l)) as [|d rest]; [done|].
  destruct (existsb _ _); [done|]. intros [= <-]. split.
  - intros H%of_chars_nil. by apply (trim_chars_nonempty d rest).
  - unfold Js.trim. by rewrite chars_of_chars, trim_chars_idem.
Qed.

(** X8: the header the scan page and the scripts build from a secret,
    [Bearer] followed by a space and the secret, is read back by the routes
    as the secret without the white space around it, whenever the secret
    holds something besides white space and no line break. *)
Theorem bearer_round_trip (secret : string) :
  Js.trim secret ≠ "" →
  existsb Validate.is_line_terminator (Js.chars secret) = false →
  Validate.parse_bearer ("Bearer " +:+ secret) = Some (Js.trim secret).
Proof.
  intros Hne Hlt. unfold Validate.parse_bearer.
  change (Js.chars ("Bearer " +:+ secret))
    with (Js.chars "Bearer" ++ " "%char :: Js.chars secret)%list.
  cbn [Js.chars list_ascii_of_string app take drop map].
  change (Js.starts_with _ _) with true. cbn [Js.is_space].
  change (Js.is_space " ") with true. cbv iota.
  change (Js.drop_spaces (" "%char :: ?l)) with (Js.drop_spaces l).
  cbn [Js.drop_spaces]. change (Js.is_space " ") with true. cbv iota.
  fold (Js.chars secret).
  destruct (Js.drop_spaces (Js.chars secret)) as [|d rest] eqn:Hrest.
  - exfalso. apply Hne. unfold Js.trim, Js.trim_chars. by rewrite Hrest.
  - assert (existsb Validate.is_line_terminator (d :: rest) = false) as ->.
    { destruct (drop_spaces_split (Js.chars secret)) as [pre Hsplit].
      rewrite Hsplit, existsb_app in Hlt. apply orb_false_iff in Hlt as [_ Hlt].
      by rewrite Hrest in Hlt. }
    rewrite <- Hrest, trim_chars_drop_spaces. done.
Qed.

Lemma bearer_round_trip_witness :
  Validate.parse_bearer "Bearer  door-key-1 " = Some "door-key-1".
Proof.
  apply (bearer_round_trip " door-key-1 "); vm_compute; [discriminate | reflexivity].
Defined.

(** ** Joined and split text *)

Lemma append_assoc (a b c : string) : (a +:+ b) +:+ c = a +:+ (b +:+ c).
Proof.
  induction a as [|x a IH]; [done|].
  change (String x ((a +:+ b) +:+ c) = String x (a +:+ (b +:+ c))). by rewrite IH.
Qed.

Lemma join_fold_append (sep a b : string) (ps : list string) :
  fold_left (λ acc q, acc +:+ sep +:+ q) ps (a +:+ b) =
    a +:+ fold_left (λ acc q, acc +:+ sep +:+ q) ps b.
Proof.
  revert b. induction ps as [|p ps IH]; intros b; cbn [fold_left]; [done|].
  by rewrite append_assoc, IH.
Qed.

Lemma join_with_cons (sep p q : string) (ps : list string) :
  Json.join_with sep (p :: q :: ps) = p +:+ sep +:+ Json.join_with sep (q :: ps).
Proof.
  unfold Json.join_with. cbn [fold_left].
  by rewrite join_fold_append, join_fold_append.
Qed.

Lemma of_chars_app (a b : list ascii) :
  Js.of_chars (a ++ b)%list = Js.of_chars a +:+ Js.of_chars b.
Proof.
  unfold Js.of_chars. induction a as [|x a IH]; [done|].
  change (String x (string_of_list_ascii (a ++ b)) =
          String x (string_of_list_ascii a +:+ string_of_list_ascii b)).
  by rewrite IH.
Qed.

(** ** Cross-origin headers *)

Lemma split_commas_from_join (l cur : list ascii) :
  Json.join_with "," (Cors.split_commas_from l cur) = Js.of_chars (rev cur ++ l)%list.
Proof.
  revert cur. induction l as [|c l IH]; intros cur; simpl.
  - by rewrite app_nil_r.
  - case_bool_decide as Hc.
    + subst c. specialize (IH []).
      destruct (Cors.split_commas_from l []) as [|q ps] eqn:Hs.
      { by destruct l; simpl in Hs; [|case_bool_decide]. }
      rewrite join_with_cons, IH. cbn [rev app].
      change (","%char :: l) with ([","%char] ++ l)%list. by rewrite !of_chars_app.
    + rewrite IH. simpl. by rewrite <- app_assoc.
Qed.

Lemma split_commas_join (s : string) : Json.join_with "," (Cors.split_commas s) = s.
Proof.
  unfold Cors.split_commas. rewrite split_commas_from_join. apply of_chars_chars.
Qed.

Lemma elem_of_allowed_origins (allow v : string) :
  v ∈ Cors.allowed_origins allow ↔
    v ≠ "" ∧ ∃ piece, piece ∈ Cors.split_commas allow ∧ Js.trim piece = v.
Proof.
  unfold Cors.allowed_origins. rewrite list_elem_of_filter.
  rewrite list_elem_of_In, in_map_iff.
  setoid_rewrite <- list_elem_of_In. naive_solver.
Qed.

(** X9: with a list of origins configured (a [CORS_ALLOW_ORIGIN] that is
    neither empty nor the wildcard), the validate route names an origin in
    [Access-Control-Allow-Origin] exactly when the request carries that
    origin and it is one of the comma-separated entries of the list, white
    space around an entry set aside; it then also sends [Vary: Origin] and
    the allowed methods.  To any other request it sends no cross-origin
    header at all.  The entries are the pieces of the configured text between
    its commas. *)
Theorem cors_echoes_only_listed_origins (e : Cors.env) (origin : option string)
    (allow : string) :
  Cors.CORS_ALLOW_ORIGIN e = Some allow → allow ≠ "" → Js.trim allow ≠ "*" →
  let h := Cors.corsHeaders e origin in
  (∀ v, h !! "Access-Control-Allow-Origin" = Some v ↔
        origin = Some v ∧ v ≠ "" ∧
        ∃ piece, piece ∈ Cors.split_commas allow ∧ Js.trim piece = v)
  ∧ (h !! "Access-Control-Allow-Origin" = None → h = ∅)
  ∧ (is_Some (h !! "Access-Control-Allow-Origin") →
     h !! "Vary" = Some "Origin" ∧
     h !! "Access-Control-Allow-Methods" = Some "POST,OPTIONS")
  ∧ Json.join_with "," (Cors.split_commas allow) = allow.
Proof.
  intros Hallow Hne Hstar h. subst h. unfold Cors.corsHeaders. rewrite Hallow.
  rewrite (bool_decide_eq_false_2 _ Hne), (bool_decide_eq_false_2 _ Hstar).
  split; [|split; [|split]]; [| | |apply split_commas_join].
  - intros v. destruct origin as [o|]; [|rewrite lookup_empty; naive_solver].
    case_bool_decide as Ho; simpl.
    { subst o. rewrite lookup_empty. naive_solver. }
    case_bool_decide as Hin; simpl.
    + rewrite lookup_insert_ne by done. rewrite lookup_insert_eq.
      apply elem_of_allowed_origins in Hin as [_ Hin]. naive_solver.
    + rewrite lookup_empty. split; [done|]. intros ([= ->] & Hv & Hp).
      destruct Hin. by apply elem_of_allowed_origins.
  - destruct origin as [o|]; [|done].
    destruct (negb _ && _); [|done].
    rewrite lookup_insert_ne by done. by rewrite lookup_insert_eq.
  - destruct origin as [o|]; [|rewrite lookup_empty; by intros [? ?]].
    destruct (negb _ && _); [|rewrite lookup_empty; by intros [? ?]].
    intros _. split; [by rewrite lookup_insert_eq|].
    unfold Cors.base. by repeat (rewrite lookup_insert_ne by done); rewrite lookup_insert_eq.
Qed.

Lemma cors_echoes_only_listed_origins_witness :
  Cors.corsHeaders (Cors.mkEnv (Some "https://scan.fv.is, https://door.fv.is") (Some "production"))
    (Some "https://door.fv.is") !! "Access-Control-Allow-Origin" = Some "https://door.fv.is"
  ∧ Cors.corsHeaders (Cors.mkEnv (Some "https://scan.fv.is, https://door.fv.is") (Some "production"))
      (Some "https://elsewhere.is") = ∅.
Proof.
  pose (e := Cors.mkEnv (Some "https://scan.fv.is, https://door.fv.is") (Some "production")).
  split.
  - destruct (cors_echoes_only_listed_origins e (Some "https://door.fv.is")
                "https://scan.fv.is, https://door.fv.is") as (H & _);
      [reflexivity | discriminate | vm_compute; discriminate |].
    apply H. split; [reflexivity|]. split; [discriminate|].
    exists " https://door.fv.is". split; [|vm_compute; reflexivity].
    vm_compute. apply elem_of_cons. right. apply elem_of_cons. by left.
  - destruct (cors_echoes_only_listed_origins e (Some "https://elsewhere.is")
                "https://scan.fv.is, https://door.fv.is") as (_ & H & _);
      [reflexivity | discriminate | vm_compute; discriminate |].
    apply H. vm_compute. reflexivity.
Defined.

(** ** Who may write *)

Lemma forceBurn_unchanged_or_ok (st : store) (now : timestamp) (req : Burn.request) :
  (Burn.forceBurn st now req).1 = st ∨
  Burn.http_status (Burn.forceBurn st now req).2 = 200.
Proof.
  unfold Burn.forceBurn.
  destruct (Burn.normalizeTicketIds _) as [|i ids]; [by left|].
  destruct (Burn.uuid_array_in _); [|by left].
  destruct (update_burn _ _ _). by right.
Qed.

(** X10: the burn route is closed unless an administrator key is
    configured and presented.  With [ADMIN_API_KEY] unset and
    [ISSUE_API_KEY] unset or blank, or with [ADMIN_API_KEY] set but blank
    (whatever [ISSUE_API_KEY] holds), every request is answered 500 and the
    store is left as it is.  With a key configured, a request whose bearer
    token is not that key, white space around the configured text set aside,
    is answered 401 and the store is left as it is.  So a store that
    changed, or a 200 answer, means the request presented the key. *)
Theorem burn_is_closed_without_the_key (e : Burn.env) (st : store) (now : timestamp)
    (req : Burn.request) :
  let out := Burn.POST e st now req in
  let configured :=
    match Burn.ADMIN_API_KEY e with
    | Some k => k
    | None => default "" (Burn.ISSUE_API_KEY e)
    end in
  let presented := Validate.parse_bearer (default "" (Burn.authorization req)) in
  (Js.trim configured = "" →
   out = (st, Burn.mkResponse 500 (Burn.Failure "Admin auth not configured")))
  ∧ (Js.trim configured ≠ "" → presented ≠ Some (Js.trim configured) →
     out = (st, Burn.mkResponse 401 (Burn.Failure "Unauthorized")))
  ∧ (out.1 ≠ st ∨ Burn.http_status out.2 = 200 →
     Js.trim configured ≠ "" ∧ presented = Some (Js.trim configured)).
Proof.
  intros out configured presented. subst out presented.
  unfold Burn.POST, Burn.requireAdminAuth.
  assert (default "" match Burn.ADMIN_API_KEY e with
                     | Some k => Some k
                     | None => Burn.ISSUE_API_KEY e
                     end = configured) as ->.
  { subst configured. by destruct (Burn.ADMIN_API_KEY e). }
  case_bool_decide as Hkey.
  { split; [done|]. split; [done|]. simpl. intros [? | ?]; done. }
  destruct (Validate.parse_bearer _) as [token|].
  - case_bool_decide as Htok.
    + subst token. split; [done|]. split; [done|]. done.
    + split; [done|]. split; [done|]. simpl. intros [? | ?]; done.
  - split; [done|]. split; [done|]. simpl. intros [? | ?]; done.
Qed.

Lemma burn_is_closed_without_the_key_witness :
  Burn.POST (Burn.mkEnv (Some " ") (Some "issue-key")) (Sample.db Sample.id_digest) 90%Z
    (Burn.mkRequest (Some "Bearer issue-key") (Some (Json.Str Sample.fresh)) None)
  = (Sample.db Sample.id_digest,
     Burn.mkResponse 500 (Burn.Failure "Admin auth not configured")).
Proof.
  destruct (burn_is_closed_without_the_key (Burn.mkEnv (Some " ") (Some "issue-key"))
              (Sample.db Sample.id_digest) 90%Z
              (Burn.mkRequest (Some "Bearer issue-key") (Some (Json.Str Sample.fresh)) None))
    as (H & _).
  apply H. vm_compute. reflexivity.
Defined.

(** The issue handler is its authorization check followed by the rest, and
    the rest never answers 401. *)
Lemma issue_unauthorized (e : Issue.env) (w : Issue.collaborators) (st : store)
    (now : timestamp) (req : Issue.request) :
  let unauthorized :=
    match Issue.ISSUE_API_KEY e with
    | Some requiredKey =>
        if bool_decide (requiredKey = "") then false
        else
          match Validate.parse_bearer (default "" (Issue.authorization req)) with
          | Some token => negb (bool_decide (token = requiredKey))
          | None => true
          end
    | None => false
    end in
  if unauthorized
  then Issue.POST e w st now req = (st, Issue.mkResponse 401 (Issue.Failure "Unauthorized"), [])
  else Issue.http_status (Issue.POST e w st now req).1.2 ≠ 401.
Proof.
  intros unauthorized. unfold Issue.POST. fold unauthorized.
  destruct unauthorized; [done|].
  destruct (Issue.ticketTypeId req) as [type_text|]; [|done].
  destruct (Issue.email req) as [to_|]; [|done].
  destruct (_ || _); [done|].
  destruct (Issue.connect w); [done|].
  destruct (uuid_in type_text); [|done].
  destruct (Issue.select_ticket_type st _); [|done].
  destruct (tickets st !! Issue.new_id w); [done|].
  destruct (if negb _ then _ else _) as [msg | [png fx0]]; [done|].
  by destruct (Issue.notify _ _ _ _ _ _ _ _) as [[meta res] fx'].
Qed.

(** X11: the key check of the issue route.  With [ISSUE_API_KEY] unset or
    empty the route is open: no request is answered 401.  With a key
    configured, a request passes the check exactly when its bearer token is
    the configured text itself; the token is read without the white space
    around it while the configured text is compared as it is, so a
    configured key with white space at either end locks every request out
    (401, nothing written, nothing sent). *)
Theorem issue_key_check (e : Issue.env) (w : Issue.collaborators) (st : store)
    (now : timestamp) (req : Issue.request) :
  let out := Issue.POST e w st now req in
  let presented := Validate.parse_bearer (default "" (Issue.authorization req)) in
  (Issue.ISSUE_API_KEY e = None ∨ Issue.ISSUE_API_KEY e = Some "" →
   Issue.http_status out.1.2 ≠ 401)
  ∧ (∀ k, Issue.ISSUE_API_KEY e = Some k → k ≠ "" →
       (Issue.http_status out.1.2 ≠ 401 ↔ presented = Some k) ∧
       (presented ≠ Some k →
        out = (st, Issue.mkResponse 401 (Issue.Failure "Unauthorized"), [])) ∧
       (Js.trim k ≠ k → presented ≠ Some k)).
Proof.
  intros out presented. subst out presented.
  pose proof (issue_unauthorized e w st now req) as H. cbv zeta in H.
  split.
  - intros [Hk | Hk]; rewrite Hk in H; done.
  - intros k Hk Hne. rewrite Hk, (bool_decide_eq_false_2 _ Hne) in H.
    destruct (Validate.parse_bearer _) as [token|] eqn:Htok.
    + case_bool_decide as Heq; simpl in H.
      * subst token. split; [done|]. split; [done|].
        intros Htrim _. by apply parse_bearer_trimmed in Htok as [_ ?].
      * rewrite H. simpl. split; [|split]; [split; [done|congruence] | done | congruence].
    + rewrite H. simpl. split; [|split]; [split; done | done | done].
Qed.

Lemma issue_key_check_witness :
  Issue.POST (Issue.mkEnv (Some "issue-key ") None None None None None) Sample.working
    (Sample.db Sample.id_digest) 70%Z
    (Issue.mkRequest "https://tickets.example" (Some "Bearer issue-key ")
       (Some Sample.type_a) (Some "d@hi.is") None None None)
  = (Sample.db Sample.id_digest, Issue.mkResponse 401 (Issue.Failure "Unauthorized"), []).
Proof.
  destruct (issue_key_check (Issue.mkEnv (Some "issue-key ") None None None None None)
              Sample.working (Sample.db Sample.id_digest) 70%Z
              (Issue.mkRequest "https://tickets.example" (Some "Bearer issue-key ")
                 (Some Sample.type_a) (Some "d@hi.is") None None None)) as (_ & H).
  destruct (H "issue-key ") as (_ & Hout & Hlock); [reflexivity | discriminate |].
  apply Hout, Hlock. vm_compute. discriminate.
Defined.

(** ** What the issue route does not check, and what it does not send *)

(** The issue handler on a request that passes the checks, a store that has
    the ticket type and a free id, and a QR encoder that does not throw. *)
Lemma issue_accepts (e : Issue.env) (w : Issue.collaborators) (st : store)
    (now : timestamp) (req : Issue.request) (type_text to_ : string) (type_id : uuid)
    (ty : ticket_type) :
  Issue.http_status (Issue.POST e w st now req).1.2 ≠ 401 →
  Issue.ticketTypeId req = Some type_text → Issue.email req = Some to_ →
  type_text ≠ "" → to_ ≠ "" →
  Issue.connect w = None →
  uuid_in type_text = Some type_id →
  ticket_types st !! type_id = Some ty → is_Some (events st !! tt_event_id ty) →
  tickets st !! Issue.new_id w = None →
  (Issue.toBooleanOrUndefined (Issue.linkOnly req) = Some false →
   ∃ png, Issue.qr_png_base64 w (Issue.new_id w) = inr png) →
  ∃ r fx,
    Issue.POST e w st now req =
      (insert_ticket st (Issue.new_id w) type_id to_ (Issue.name req) now,
       Issue.mkResponse 200 (Issue.Issued r), fx) ∧
    Issue.ticketId r = Issue.new_id w.
Proof.
  intros Hauth Hty Hto Hne1 Hne2 Hconn Hid Htype [ev Hev] Hfree Hqr.
  revert Hauth. unfold Issue.POST.
  destruct (match Issue.ISSUE_API_KEY e with Some _ => _ | None => _ end).
  { simpl. done. }
  intros _. rewrite Hty, Hto.
  rewrite (bool_decide_eq_false_2 _ Hne1), (bool_decide_eq_false_2 _ Hne2).
  cbn [orb]. rewrite Hconn, Hid.
  unfold Issue.select_ticket_type. rewrite Htype, Hev, Hfree.
  destruct (Issue.toBooleanOrUndefined (Issue.linkOnly req)) as [[]|] eqn:Hlink;
    cbn [default from_option id negb].
  - destruct (Issue.notify _ _ _ _ _ _ _ _) as [[meta res] fx']. eauto.
  - destruct Hqr as [png ->]; [done|].
    destruct (Issue.notify _ _ _ _ _ _ _ _) as [[meta res] fx']. eauto.
  - destruct (Issue.notify _ _ _ _ _ _ _ _) as [[meta res] fx']. eauto.
Qed.

(** X12: the issue route does not look for an earlier ticket of the same
    address.  When a request was answered 200, the same request sent again
    is answered 200 again as soon as the store is reachable, draws a fresh
    id and the QR step does not throw: the store then holds two unused
    tickets with the two ids and the same address and type. *)
Theorem issue_twice_gives_two_tickets (e : Issue.env) (w1 w2 : Issue.collaborators)
    (st st1 : store) (now1 now2 : timestamp) (req : Issue.request)
    (r1 : Issue.issued) (fx1 : list Issue.effect) :
  Issue.POST e w1 st now1 req = (st1, Issue.mkResponse 200 (Issue.Issued r1), fx1) →
  Issue.connect w2 = None →
  tickets st1 !! Issue.new_id w2 = None →
  (Issue.toBooleanOrUndefined (Issue.linkOnly req) = Some false →
   ∃ png, Issue.qr_png_base64 w2 (Issue.new_id w2) = inr png) →
  ∃ st2 r2 fx2 t1 t2,
    Issue.POST e w2 st1 now2 req = (st2, Issue.mkResponse 200 (Issue.Issued r2), fx2) ∧
    Issue.ticketId r1 ≠ Issue.ticketId r2 ∧
    tickets st2 !! Issue.ticketId r1 = Some t1 ∧
    tickets st2 !! Issue.ticketId r2 = Some t2 ∧
    Issue.email req = Some (email t1) ∧ email t2 = email t1 ∧
    ticket_type_id t2 = ticket_type_id t1 ∧
    used t1 = false ∧ used t2 = false.
Proof.
  intros H1 Hconn Hfree Hqr.
  assert (Issue.http_status (Issue.POST e w2 st1 now2 req).1.2 ≠ 401) as Hauth.
  { pose proof (issue_unauthorized e w1 st now1 req) as Ha.
    pose proof (issue_unauthorized e w2 st1 now2 req) as Hb. cbv zeta in Ha, Hb.
    destruct (match Issue.ISSUE_API_KEY e with Some _ => _ | None => _ end); [|done].
    rewrite H1 in Ha. done. }
  apply issue_ok_inv in H1
    as (type_text & to_ & type_id & ty & Hty & Hto & Hne1 & Hne2 & Hid & Htype & Hev
        & Hfree1 & -> & Hr1 & _).
  destruct (issue_accepts e w2
              (insert_ticket st (Issue.new_id w1) type_id to_ (Issue.name req) now1)
              now2 req type_text to_ type_id ty)
    as (r2 & fx2 & Hpost & Hr2); try done.
  assert (Issue.new_id w1 ≠ Issue.new_id w2) as Hdiff.
  { intros Heq. rewrite <- Heq in Hfree. unfold insert_ticket in Hfree. simpl in Hfree.
    by rewrite lookup_insert_eq in Hfree. }
  eexists _, r2, fx2, _, _. split; [exact Hpost|].
  rewrite Hr1, Hr2. split; [done|].
  unfold insert_ticket. simpl.
  rewrite lookup_insert_ne by done. rewrite !lookup_insert_eq.
  repeat split; done.
Qed.

Lemma issue_twice_gives_two_tickets_witness :
  ∃ st2 r2 fx2 t1 t2,
    Issue.POST Sample.issue_env Cases.second_draw Cases.after_issue 71%Z Sample.issue_plain =
      (st2, Issue.mkResponse 200 (Issue.Issued r2), fx2) ∧
    Sample.absent ≠ Issue.ticketId r2 ∧
    tickets st2 !! Sample.absent = Some t1 ∧
    tickets st2 !! Issue.ticketId r2 = Some t2 ∧
    email t2 = email t1.
Proof.
  destruct (issue_twice_gives_two_tickets Sample.issue_env Sample.working Cases.second_draw
              (Sample.db Sample.id_digest) Cases.after_issue 70%Z 71%Z Sample.issue_plain
              Cases.issued_answer Cases.issued_effects)
    as (st2 & r2 & fx2 & t1 & t2 & H2 & Hne & Ht1 & Ht2 & _ & He & _).
  - vm_compute. reflexivity.
  - reflexivity.
  - vm_compute. reflexivity.
  - intros Hl. vm_compute in Hl. discriminate.
  - exists st2, r2, fx2, t1, t2.
    split; [exact H2|]. split; [exact Hne|].
    split; [exact Ht1|]. split; [exact Ht2 | exact He].
Defined.

(** What the notification step does when the request asks to skip the
    message or no transport is configured. *)
Lemma notify_skipped (e : Issue.env) (w : Issue.collaborators) (req : Issue.request)
    (to_ id url : string) (shouldAttachQr : bool) (png : option string) :
  default false (Issue.toBooleanOrUndefined (Issue.skipEmail req)) = true ∨
  is_Some (Issue.getSmtpTransport w) →
  ∃ meta err,
    Issue.notify e w req to_ id url shouldAttachQr png =
      (meta, Issue.EmailFailed err (Some true), []).
Proof.
  unfold Issue.notify. intros [-> | [err Herr]]; [eauto|].
  destruct (default false _); [eauto|]. rewrite Herr. eauto.
Qed.

(** X13: a request with a [skipEmail] member that reads as true, or a
    deployment whose SMTP transport cannot be built, hands nothing to the
    mailer.  The ticket is issued all the same when the request is good: the
    row is in the store, and the 200 answer reports the message as skipped
    rather than sent. *)
Theorem skipEmail_hands_nothing (e : Issue.env) (w : Issue.collaborators) (st : store)
    (now : timestamp) (req : Issue.request) :
  default false (Issue.toBooleanOrUndefined (Issue.skipEmail req)) = true ∨
  is_Some (Issue.getSmtpTransport w) →
  (∀ m, Issue.MailHanded m ∉ (Issue.POST e w st now req).2) ∧
  (∀ r, (Issue.POST e w st now req).1.2 = Issue.mkResponse 200 (Issue.Issued r) →
        is_Some (tickets (Issue.POST e w st now req).1.1 !! Issue.ticketId r) ∧
        ∃ err, Issue.email_sub_result r = Issue.EmailFailed err (Some true)).
Proof.
  intros Hskip. unfold Issue.POST.
  destruct (match Issue.ISSUE_API_KEY e with Some _ => _ | None => _ end);
    [split; [intros m; apply not_elem_of_nil | done]|].
  destruct (Issue.ticketTypeId req) as [type_text|];
    [|split; [intros m; apply not_elem_of_nil | done]].
  destruct (Issue.email req) as [to_|];
    [|split; [intros m; apply not_elem_of_nil | done]].
  destruct (_ || _); [split; [intros m; apply not_elem_of_nil | done]|].
  destruct (Issue.connect w); [split; [intros m; apply not_elem_of_nil | done]|].
  destruct (uuid_in type_text); [|split; [intros m; apply not_elem_of_nil | done]].
  destruct (Issue.select_ticket_type st _);
    [|split; [intros m; apply not_elem_of_nil | done]].
  destruct (tickets st !! Issue.new_id w);
    [split; [intros m; apply not_elem_of_nil | done]|].
  destruct (if negb _ then _ else _) as [msg | [png fx0]] eqn:Hqr;
    [split; [intros m; apply not_elem_of_nil | done]|].
  assert (∀ m, Issue.MailHanded m ∉ fx0) as Hfx0.
  { intros m. destruct (negb _); [|injection Hqr as _ <-; apply not_elem_of_nil].
    destruct (Issue.qr_png_base64 w _); [done|]. injection Hqr as _ <-.
    by intros ?%list_elem_of_singleton. }
  match goal with
  | |- context [Issue.notify ?a ?b ?c ?d ?i ?u ?q ?p] =>
      destruct (notify_skipped a b c d i u q p Hskip) as (meta & err & ->)
  end.
  simpl. split.
  - intros m. rewrite app_nil_r. apply Hfx0.
  - intros r [= <-]. simpl. unfold insert_ticket. simpl.
    rewrite lookup_insert_eq. eauto.
Qed.

Lemma skipEmail_hands_nothing_witness :
  (Issue.POST Sample.issue_env Sample.working (Sample.db Sample.id_digest) 70%Z
     Cases.issue_quietly).2 = [] ∧
  ∃ r, (Issue.POST Sample.issue_env Sample.working (Sample.db Sample.id_digest) 70%Z
          Cases.issue_quietly).1.2 = Issue.mkResponse 200 (Issue.Issued r) ∧
       Issue.email_sub_result r = Issue.EmailFailed "Skipped" (Some true).
Proof.
  destruct (skipEmail_hands_nothing Sample.issue_env Sample.working
              (Sample.db Sample.id_digest) 70%Z Cases.issue_quietly) as [Hnone Hok].
  - left. vm_compute. reflexivity.
  - split; [vm_compute; reflexivity|].
    eexists. split; vm_compute; reflexivity.
Defined.

(** ** The retrying fetch, for every service *)

Section RetryEnds.

Import Retry.

Variables (net : nat → attempt_outcome) (max : nat) (base : Z).

Lemma retried_snoc (a n : nat) :
  (Fetch a :: Sleep (delay base a) :: retried base (S a) n)%list = retried base a (S n).
Proof. done. Qed.

(** From any attempt on, the loop ends with some attempt [k] within the
    ceiling, after transient failures only. *)
Lemma attempts_end (rem a : nat) (lastErr : option string) :
  a + rem = S max → 1 ≤ rem →
  ∃ k, a ≤ k ≤ max ∧
       (attempts net max base rem a lastErr).2 = (retried base a (k - a) ++ [Fetch k])%list ∧
       (∀ i, a ≤ i < k → transient (net i) = true) ∧
       (ok (attempts net max base rem a lastErr).1 = true ↔
        ∃ s body, net k = Responded s body ∧ status_ok s = true) ∧
       (k < max → transient (net k) = false).
Proof.
  revert a lastErr. induction rem as [|rem IH]; intros a lastErr Hsum Hrem; [lia|].
  assert (∀ lastErr',
            a ≠ max → transient (net a) = true →
            ∃ k, a ≤ k ≤ max ∧
              (Fetch a :: Sleep (delay base a) ::
                 (attempts net max base rem (S a) lastErr').2)%list =
                (retried base a (k - a) ++ [Fetch k])%list ∧
              (∀ i, a ≤ i < k → transient (net i) = true) ∧
              (ok (attempts net max base rem (S a) lastErr').1 = true ↔
               ∃ s body, net k = Responded s body ∧ status_ok s = true) ∧
              (k < max → transient (net k) = false)) as Hgo.
  { intros lastErr' Hne Htr.
    destruct (IH (S a) lastErr') as (k & Hk & Htrace & Hpre & Hok & Hlast); [lia..|].
    exists k. split; [lia|]. split.
    - rewrite Htrace. replace (k - a) with (S (k - S a)) by lia. done.
    - split; [|done]. intros i Hi. destruct (decide (i = a)) as [-> | Hia]; [done|].
      apply Hpre. lia. }
  cbn [attempts].
  destruct (net a) as [s body | message] eqn:Hnet.
  - destruct (status_ok s) eqn:Hs.
    { exists a. rewrite Nat.sub_diag, Hnet. simpl. rewrite Hs.
      split; [lia|]. split; [done|]. split; [intros i Hi; lia|].
      split; [|done]. split; [eauto | done]. }
    destruct (negb (shouldRetry s) || (a =? max)) eqn:Hstop.
    + exists a. rewrite Nat.sub_diag, Hnet. simpl. rewrite Hs.
      split; [lia|]. split; [done|]. split; [intros i Hi; lia|].
      split.
      * split; [done|]. intros (s' & body' & [= <- _] & Hs'). congruence.
      * intros Hlt. apply orb_true_iff in Hstop as [Hre | Hmax].
        -- apply negb_true_iff in Hre. by rewrite Hre.
        -- apply Nat.eqb_eq in Hmax. lia.
    + apply orb_false_iff in Hstop as [Hre Hmax].
      apply negb_false_iff in Hre. apply Nat.eqb_neq in Hmax.
      destruct (Hgo lastErr) as (k & Hk); [done | by try rewrite Hnet; simpl; rewrite Hs, Hre|].
      exists k. by destruct (attempts net max base rem (S a) lastErr).
  - destruct (a =? max) eqn:Hmax.
    + apply Nat.eqb_eq in Hmax. exists a. rewrite Nat.sub_diag, Hnet. simpl.
      split; [lia|]. split; [done|]. split; [intros i Hi; lia|].
      split; [|lia]. split; [done|]. by intros (s' & body' & [=] & _).
    + apply Nat.eqb_neq in Hmax.
      destruct (Hgo (Some message)) as (k & Hk); [done | by try rewrite Hnet|].
      exists k. by destruct (attempts net max base rem (S a) (Some message)).
Qed.

End RetryEnds.

(** X14: whatever the service does, a call of [fetchJsonWithRetry] ends
    within the ceiling.  With a ceiling of zero it makes no attempt and
    reports a failure.  Otherwise it ends with some attempt [k] between 1
    and the ceiling: the attempts before [k] all failed transiently, its
    trace is the [k] attempts with the doubling pauses between them, it
    reports success exactly when attempt [k] got a response with a success
    status, and it stops before the ceiling only on an attempt that did not
    fail transiently. *)
Theorem fetchJsonWithRetry_within_ceiling (net : nat → Retry.attempt_outcome)
    (o : Retry.opts) :
  let max := default 5 (Retry.maxAttempts o) in
  let base := default 800%Z (Retry.baseDelayMs o) in
  let out := Retry.fetchJsonWithRetry net o in
  (max = 0 → out = (Retry.gave_up None, []))
  ∧ (0 < max →
     ∃ k, 1 ≤ k ≤ max ∧ out.2 = Retry.backoff base k ∧
          (∀ i, 1 ≤ i < k → Retry.transient (net i) = true) ∧
          (Retry.ok out.1 = true ↔
           ∃ s body, net k = Retry.Responded s body ∧ Retry.status_ok s = true) ∧
          (k < max → Retry.transient (net k) = false)).
Proof.
  intros max base out. subst out. unfold Retry.fetchJsonWithRetry. fold max. fold base.
  split.
  - intros ->. done.
  - intros Hmax.
    destruct (attempts_end net max base max 1 None) as (k & Hk & Htrace & Hrest); [lia..|].
    exists k. split; [done|]. split; [|done]. by rewrite Htrace.
Qed.

Lemma fetchJsonWithRetry_within_ceiling_witness :
  ∃ k, 1 ≤ k ≤ 6 ∧
       (Retry.fetchJsonWithRetry Sample.flaky Sample.six_attempts).2 = Retry.backoff 800 k ∧
       (k < 6 → Retry.transient (Sample.flaky k) = false).
Proof.
  destruct (fetchJsonWithRetry_within_ceiling Sample.flaky Sample.six_attempts)
    as [_ H].
  destruct H as (k & Hk & Htrace & _ & _ & Hlast); [simpl; lia|].
  exists k. split; [exact Hk|]. split; [exact Htrace | exact Hlast].
Defined.

(** ** What the ledger remembers *)

Section LedgerExact.

Import Pipeline.

Lemma ledgerRecord_truthy (startedAt : string) (r : row) (res : Retry.result) :
  Json.truthy (Json.get (Some (ledgerRecord startedAt r res)) "ok") = succeeded res.
Proof.
  unfold ledgerRecord, succeeded.
  destruct (Retry.ok res); cbn [negb orb andb].
  - destruct (Json.truthy (Json.get (Some (Retry.json res)) "ok")); cbn [negb].
    + rewrite get_object_here; [done|]. repeat constructor; discriminate.
    + rewrite get_object_here; [done|]. repeat constructor; discriminate.
  - rewrite get_object_here; [done|]. repeat constructor; discriminate.
Qed.

(** The addresses read back from the records of a run are those of the rows
    whose call succeeded. *)
Lemma records_marks net clock (rows : list row) (i : nat) (x : string) :
  (∀ r, r ∈ rows → email r ≠ "" ∧ normalizeEmail (email r) = email r) →
  x ∈ readJsonlSet (Entry <$> records net clock i rows) ↔
  ∃ j r, rows !! j = Some r ∧ email r = x ∧ succeeded (result_at net (i + j)) = true.
Proof.
  revert i. induction rows as [|r rows IH]; intros i Hnorm.
  - cbn [records fmap list_fmap]. split.
    + intros H. by apply elem_of_empty in H.
    + by intros (j & r & Hj & _).
  - cbn [records]. rewrite fmap_cons.
    match goal with
    | |- context [readJsonlSet (?a :: ?l)] => change (a :: l) with ([a] ++ l)%list
    end.
    rewrite readJsonlSet_app, IH
      by (intros r' Hr'; apply Hnorm, elem_of_cons; by right).
    destruct (Hnorm r) as [Hne Hn]; [apply elem_of_cons; by left|].
    rewrite elem_of_readJsonlSet. split.
    + intros [(l & Hl & obj & -> & Hok & Hem & ->) | (j & r' & Hj & Hx & Hs)].
      * apply list_elem_of_singleton in Hl. injection Hl as ->.
        rewrite ledgerRecord_truthy in Hok. rewrite ledgerRecord_email. simpl.
        exists 0, r. rewrite Nat.add_0_r. by rewrite Hn.
      * exists (S j), r'. replace (i + S j) with (S i + j) by lia. done.
    + intros ([|j] & r' & Hj & Hx & Hs).
      * injection Hj as <-. rewrite Nat.add_0_r in Hs. left.
        eexists. split; [apply list_elem_of_singleton; reflexivity|].
        eexists. split; [done|]. rewrite ledgerRecord_truthy, ledgerRecord_email.
        simpl. rewrite bool_decide_eq_false_2 by done. by rewrite Hn.
      * right. exists j, r'. replace (S i + j) with (i + S j) by lia. done.
Qed.

End LedgerExact.

(** X15: after a run of the bulk sender, the addresses the ledger marks as
    sent are those it marked before together with the recipients of the
    calls of this run that succeeded, and no others: an address whose call
    failed is not marked, so the next run takes it up again. *)
Theorem ledger_marks_exactly_the_successes (cfg : Pipeline.config)
    (types_net : nat → Retry.attempt_outcome)
    (net : nat → nat → Retry.attempt_outcome) (clock : nat → string)
    (ledger0 : list Pipeline.line) (run : Pipeline.outcome) (x : string) :
  Pipeline.main cfg types_net net clock ledger0 = inr run →
  x ∈ Pipeline.readJsonlSet (Pipeline.log run) ↔
  x ∈ Pipeline.readJsonlSet ledger0 ∨
  ∃ i body, Pipeline.calls run !! i = Some body ∧ Pipeline.recipient body = x ∧
            Pipeline.succeeded (Pipeline.result_at net i) = true.
Proof.
  rewrite main_spec.
  destruct (Pipeline.plan cfg types_net) as [code|deduped] eqn:Hplan; [done|].
  destruct (plan_rows _ _ _ Hplan) as [_ Hnormal].
  intros [= <-]. simpl.
  set (rows := Pipeline.to_send cfg deduped ledger0).
  assert (∀ r, r ∈ rows →
            Pipeline.email r ≠ "" ∧ Pipeline.normalizeEmail (Pipeline.email r) = Pipeline.email r)
    as Hrows.
  { intros r [Hr _]%to_send_not_sent. by apply Hnormal. }
  rewrite readJsonlSet_app, (records_marks net clock rows 0 x Hrows).
  split; (intros [H | H]; [by left | right]).
  - destruct H as (j & r & Hj & Hx & Hs). exists j, (Pipeline.issueBody r).
    rewrite list_lookup_fmap, Hj. split; [done|].
    rewrite issueBody_recipient. split; [|done].
    destruct (Hrows r) as [_ ->]; [by eapply list_elem_of_lookup_2 | done].
  - destruct H as (j & body & Hj & Hx & Hs).
    rewrite list_lookup_fmap in Hj.
    destruct (rows !! j) as [r|] eqn:Hr; [|done]. injection Hj as <-.
    exists j, r. split; [done|]. split; [|done].
    rewrite issueBody_recipient in Hx.
    destruct (Hrows r) as [_ Hn]; [by eapply list_elem_of_lookup_2 | congruence].
Qed.

Lemma ledger_marks_exactly_the_successes_witness :
  "a@b.is" ∈ Pipeline.readJsonlSet (Pipeline.log Cases.first_run).
Proof.
  apply (ledger_marks_exactly_the_successes Sample.campaign Sample.types_service
           Sample.issue_service Sample.wall_clock [] Cases.first_run "a@b.is").
  - vm_compute. reflexivity.
  - right. exists 0. eexists. split; [vm_compute; reflexivity|].
    split; vm_compute; reflexivity.
Defined.

(** X16: the two switches of the bulk sender.  A dry run posts nothing and
    leaves the ledger as it found it.  With [--max] the run posts at most
    that many bodies.  In every run, one record is appended per posted body
    and [sentCount] is at most their number. *)
Theorem dry_run_and_max (cfg : Pipeline.config)
    (types_net : nat → Retry.attempt_outcome)
    (net : nat → nat → Retry.attempt_outcome) (clock : nat → string)
    (ledger0 : list Pipeline.line) (run : Pipeline.outcome) :
  Pipeline.main cfg types_net net clock ledger0 = inr run →
  (Pipeline.dryRun cfg = true → run = Pipeline.mkOutcome ledger0 [] 0)
  ∧ (0 < Pipeline.max cfg → length (Pipeline.calls run) ≤ Pipeline.max cfg)
  ∧ length (Pipeline.log run) = length ledger0 + length (Pipeline.calls run)
  ∧ Pipeline.sentCount run ≤ length (Pipeline.calls run).
Proof.
  rewrite main_spec.
  destruct (Pipeline.plan cfg types_net) as [code|deduped] eqn:Hplan; [done|].
  intros [= <-]. simpl. split; [|split; [|split]].
  - unfold Pipeline.to_send. intros ->. simpl. by rewrite app_nil_r.
  - intros Hmax. rewrite length_fmap. unfold Pipeline.to_send.
    destruct (Pipeline.dryRun cfg); [simpl; lia|].
    apply Nat.ltb_lt in Hmax. rewrite Hmax, length_take. lia.
  - by rewrite length_app, !length_fmap, records_length.
  - rewrite length_fmap. apply successes_le.
Qed.

Lemma dry_run_and_max_witness :
  length (Pipeline.calls Cases.capped_run) ≤ 1.
Proof.
  destruct (dry_run_and_max Cases.capped Sample.types_service Sample.issue_service
              Sample.wall_clock [] Cases.capped_run) as (_ & H & _).
  - vm_compute. reflexivity.
  - apply H. simpl. lia.
Defined.

(** ** The attendance export, read back *)

Section CsvRoundTrip.

Import BulkIssue.

Lemma parseCsv_quoted (f rest : list ascii) (p : parser) :
  match rest with [] => True | c :: _ => c = ","%char ∨ c = "010"%char end →
  parseCsv_from (Attendance.double_quotes f ++ Pipeline.dquote :: rest) true p =
    parseCsv_from rest false (mkParser (rows p) (row p) (rev f ++ field p)).
Proof.
  intros Hrest. revert p. induction f as [|c f IH]; intros p.
  - cbn [Attendance.double_quotes app parseCsv_from rev].
    rewrite bool_decide_eq_true_2 by done.
    destruct rest as [|next r]; [by destruct p|].
    rewrite bool_decide_eq_false_2; [by destruct p|].
    by destruct Hrest as [-> | ->].
  - cbn [Attendance.double_quotes]. case_bool_decide as Hc.
    + subst c. cbn [app parseCsv_from].
      rewrite !bool_decide_eq_true_2 by done.
      rewrite IH. cbn [add rows row field rev]. by rewrite <- app_assoc.
    + cbn [app parseCsv_from]. rewrite bool_decide_eq_false_2 by done.
      rewrite IH. cbn [add rows row field rev]. by rewrite <- app_assoc.
Qed.

Lemma parseCsv_plain (f rest : list ascii) (p : parser) :
  Attendance.needs_quotes f = false →
  parseCsv_from (f ++ rest) false p =
    parseCsv_from rest false (mkParser (rows p) (row p) (rev f ++ field p)).
Proof.
  revert p. induction f as [|c f IH]; intros p Hf.
  - by destruct p.
  - cbn [Attendance.needs_quotes existsb] in Hf.
    apply orb_false_iff in Hf as [Hc Hf].
    apply orb_false_iff in Hc as [Hc Hcomma]. apply orb_false_iff in Hc as [Hc Hq].
    apply orb_false_iff in Hc as [Hlf Hcr].
    cbn [app parseCsv_from]. rewrite Hq, Hcomma, Hlf, Hcr.
    rewrite IH by done. cbn [add rows row field rev]. by rewrite <- app_assoc.
Qed.

Lemma parseCsv_field (f rest : list ascii) (p : parser) :
  match rest with [] => True | c :: _ => c = ","%char ∨ c = "010"%char end →
  parseCsv_from (Attendance.escape_chars f ++ rest) false p =
    parseCsv_from rest false (mkParser (rows p) (row p) (rev f ++ field p)).
Proof.
  intros Hrest. unfold Attendance.escape_chars.
  destruct (Attendance.needs_quotes f) eqn:Hq; [|by apply parseCsv_plain].
  cbn [app parseCsv_from]. rewrite bool_decide_eq_true_2 by done.
  rewrite <- app_assoc. cbn [app]. by apply parseCsv_quoted.
Qed.

Lemma chars_join_cons (sep p q : string) (ps : list string) :
  Js.chars (Json.join_with sep (p :: q :: ps)) =
    (Js.chars p ++ Js.chars sep ++ Js.chars (Json.join_with sep (q :: ps)))%list.
Proof. by rewrite join_with_cons, !chars_append. Qed.

(** The fields of a line, written by [escape] and joined by commas, are
    read as the fields: after them the parser holds the last field, and
    pushing it leaves the row with all of them. *)
Lemma parseCsv_line (fs : list string) (f : string) (p : parser) :
  field p = [] →
  ∃ q, (∀ rest, match rest with [] => True | c :: _ => c = ","%char ∨ c = "010"%char end →
          parseCsv_from
            (Js.chars (Json.join_with "," (map (λ x, Attendance.escape (Some x)) (f :: fs)))
               ++ rest) false p = parseCsv_from rest false q) ∧
       pushField q = mkParser (rows p) (rev (f :: fs) ++ row p)%list [].
Proof.
  revert f p. induction fs as [|g fs IH]; intros f p Hp.
  - exists (mkParser (rows p) (row p) (rev (Js.chars f))). split.
    + intros rest Hrest. cbn [map Json.join_with fold_left].
      unfold Attendance.escape. cbn [default from_option id].
      rewrite chars_of_chars, parseCsv_field by done. by rewrite Hp, app_nil_r.
    + unfold pushField. cbn [rows row field rev app].
      by rewrite rev_involutive, of_chars_chars.
  - destruct (IH g (mkParser (rows p) (f :: row p) [])) as (q & Hq & Hpush); [done|].
    exists q. split.
    + intros rest Hrest. cbn [map]. rewrite chars_join_cons.
      unfold Attendance.escape at 1. cbn [default from_option id].
      rewrite chars_of_chars, <- !app_assoc.
      rewrite parseCsv_field by (by left).
      change (Js.chars ",") with [","%char]. cbn [app parseCsv_from].
      rewrite bool_decide_eq_false_2 by done. rewrite bool_decide_eq_true_2 by done.
      rewrite <- (Hq rest Hrest). cbn [map]. f_equal.
      unfold pushField. cbn [rows row field]. rewrite Hp, app_nil_r.
      by rewrite rev_involutive, of_chars_chars.
    + rewrite Hpush. cbn [rows row rev]. by rewrite <- !app_assoc.
Qed.

Lemma pushRow_push (p : parser) :
  rows p ≠ [] ∨ (∀ f, row p ≠ [f]) ∨ row p ≠ [""] →
  pushRow p = mkParser (rev (row p) :: rows p) [] (field p).
Proof.
  unfold pushRow. intros H.
  destruct (row p) as [|f [|g r]] eqn:Hrow; [done| |done].
  destruct (rows p) as [|x xs] eqn:Hrows; [|done].
  case_bool_decide as Hf; [|done]. subst f.
  destruct H as [H | [H | H]]; [done | by destruct (H "") | done].
Qed.

(** A table of lines, each written as above and joined by line feeds, is
    read as the table, after the rows the parser already held. *)
Lemma parseCsv_table (table : list (list string)) (r : list string) (p : parser) :
  field p = [] → row p = [] →
  r ≠ [] → Forall (λ x, x ≠ []) table →
  rows p ≠ [] ∨ r ≠ [""] →
  rows (pushRow (pushField (parseCsv_from
    (Js.chars (Json.join_with Issue.newline
       (map (λ fields, Json.join_with "," (map (λ x, Attendance.escape (Some x)) fields))
            (r :: table)))) false p))) = (rev (r :: table) ++ rows p)%list.
Proof.
  set (line := λ fields, Json.join_with "," (map (λ x, Attendance.escape (Some x)) fields)).
  revert r p. induction table as [|r2 table IH]; intros r p Hfield Hrow Hr Hall Hfirst.
  - destruct r as [|f fs]; [done|].
    destruct (parseCsv_line fs f p Hfield) as (q & Hq & Hpush).
    change (Json.join_with Issue.newline (map line [f :: fs])) with (line (f :: fs)).
    specialize (Hq [] I). rewrite app_nil_r in Hq. cbn [parseCsv_from] in Hq. subst line. cbv beta.
    rewrite Hq, Hpush.
    rewrite pushRow_push.
    + cbn [rows row rev app]. rewrite Hrow, app_nil_r.
      change (rev fs ++ [f])%list with (rev (f :: fs)). by rewrite rev_involutive.
    + cbn [rows row]. rewrite Hrow, app_nil_r.
      destruct Hfirst as [H | H]; [by left|]. right. right.
      intros Heq. apply H. apply (f_equal (@rev string)) in Heq.
      by rewrite rev_involutive in Heq.
  - destruct r as [|f fs]; [done|].
    destruct (parseCsv_line fs f p Hfield) as (q & Hq & Hpush).
    change (Json.join_with "," (map _ (f :: fs))) with (line (f :: fs)) in Hq.
    change (map line ((f :: fs) :: r2 :: table))
      with (line (f :: fs) :: line r2 :: map line table).
    rewrite chars_join_cons.
    change (line r2 :: map line table) with (map line (r2 :: table)).
    change (Js.chars Issue.newline) with ["010"%char]. cbn [app].
    rewrite Hq by (by right). cbn [app parseCsv_from].
    rewrite bool_decide_eq_false_2 by done. rewrite bool_decide_eq_false_2 by done.
    change (Js.code "010" =? 10)%N with true. cbv iota.
    rewrite Hrow, app_nil_r in Hpush. rewrite Hpush.
    rewrite (pushRow_push (mkParser (rows p) (rev (f :: fs)) [])).
    2:{ cbn [rows row].
        destruct Hfirst as [H | H]; [by left|]. right. right.
        intros Heq. apply H. apply (f_equal (@rev string)) in Heq.
        by rewrite rev_involutive in Heq. }
    cbn [rows row field]. rewrite rev_involutive.
    apply Forall_cons in Hall as [Hr2 Hall].
    rewrite (IH r2 (mkParser ((f :: fs) :: rows p) [] [])); try done; [|by left].
    cbn [rows rev]. by rewrite <- !app_assoc.
Qed.

End CsvRoundTrip.

(** X17: the attendance export is read back by the CSV reader of the
    importer.  Whatever the cells hold (commas, double quotes, line breaks,
    nothing at all), [parseCsv] of the text [toCsv] writes is the header row
    followed by one row per record, each with the text of its seven cells,
    a null cell read as the empty text. *)
Theorem toCsv_is_read_back (records : list Attendance.row) :
  BulkIssue.parseCsv (Attendance.toCsv records) =
    Attendance.headers ::
      map (λ r, map (λ h, default "" (r h)) Attendance.headers) records.
Proof.
  unfold BulkIssue.parseCsv, Attendance.toCsv.
  set (cells := λ r : Attendance.row, map (λ h, default "" (r h)) Attendance.headers).
  set (line := λ fields, Json.join_with "," (map (λ x, Attendance.escape (Some x)) fields)).
  assert (Json.join_with "," Attendance.headers :: map Attendance.line_of records =
          map line (Attendance.headers :: map cells records)) as ->.
  { cbn [map]. f_equal. rewrite map_map. apply map_ext. intros r.
    unfold Attendance.line_of, line, cells. by rewrite map_map. }
  subst line. rewrite parseCsv_table; try done.
  - cbn [BulkIssue.rows]. by rewrite app_nil_r, rev_involutive.
  - apply Forall_forall. intros x Hx.
    apply list_elem_of_In, in_map_iff in Hx as (r & <- & _). done.
  - by right.
Qed.

(** ** A quoted line, read by the bulk sender *)

Section CsvLine.

Import Pipeline.

Lemma parseCsvLine_quoted (f rest cur : list ascii) (out : list string) :
  match rest with [] => True | c :: _ => c = ","%char end →
  parseCsvLine_from (Attendance.double_quotes f ++ dquote :: rest) cur true out =
    parseCsvLine_from rest (rev f ++ cur) false out.
Proof.
  intros Hrest. revert cur. induction f as [|c f IH]; intros cur.
  - cbn [Attendance.double_quotes app parseCsvLine_from rev].
    rewrite bool_decide_eq_true_2 by done.
    destruct rest as [|next r]; [done|]. subst next.
    by rewrite bool_decide_eq_false_2.
  - cbn [Attendance.double_quotes]. case_bool_decide as Hc.
    + subst c. cbn [app parseCsvLine_from].
      rewrite !bool_decide_eq_true_2 by done.
      rewrite IH. cbn [rev]. by rewrite <- app_assoc.
    + cbn [app parseCsvLine_from]. rewrite bool_decide_eq_false_2 by done.
      rewrite IH. cbn [rev]. by rewrite <- app_assoc.
Qed.

Lemma parseCsvLine_plain (f rest cur : list ascii) (out : list string) :
  Attendance.needs_quotes f = false →
  parseCsvLine_from (f ++ rest) cur false out =
    parseCsvLine_from rest (rev f ++ cur) false out.
Proof.
  revert cur. induction f as [|c f IH]; intros cur Hf; [done|].
  cbn [Attendance.needs_quotes existsb] in Hf.
  apply orb_false_iff in Hf as [Hc Hf].
  apply orb_false_iff in Hc as [Hc Hcomma]. apply orb_false_iff in Hc as [_ Hq].
  cbn [app parseCsvLine_from]. rewrite Hq, Hcomma.
  rewrite IH by done. cbn [rev]. by rewrite <- app_assoc.
Qed.

Lemma parseCsvLine_field (f rest cur : list ascii) (out : list string) :
  match rest with [] => True | c :: _ => c = ","%char end →
  parseCsvLine_from (Attendance.escape_chars f ++ rest) cur false out =
    parseCsvLine_from rest (rev f ++ cur) false out.
Proof.
  intros Hrest. unfold Attendance.escape_chars.
  destruct (Attendance.needs_quotes f) eqn:Hq; [|by apply parseCsvLine_plain].
  cbn [app parseCsvLine_from]. rewrite bool_decide_eq_false_2 by done.
  rewrite bool_decide_eq_true_2 by done.
  rewrite <- app_assoc. cbn [app]. by apply parseCsvLine_quoted.
Qed.

Lemma parseCsvLine_fields (fs : list string) (f : string) (out : list string) :
  parseCsvLine_from
    (Js.chars (Json.join_with "," (map (λ x, Attendance.escape (Some x)) (f :: fs))))
    [] false out = (rev out ++ f :: fs)%list.
Proof.
  revert f out. induction fs as [|g fs IH]; intros f out.
  - cbn [map Json.join_with fold_left]. unfold Attendance.escape.
    cbn [default from_option id]. rewrite chars_of_chars.
    rewrite <- (app_nil_r (Attendance.escape_chars _)), parseCsvLine_field by done.
    cbn [parseCsvLine_from rev]. by rewrite app_nil_r, rev_involutive, of_chars_chars.
  - cbn [map]. rewrite chars_join_cons.
    unfold Attendance.escape at 1. cbn [default from_option id].
    rewrite chars_of_chars. change (Js.chars ",") with [","%char]. cbn [app].
    rewrite parseCsvLine_field by done. cbn [parseCsvLine_from].
    rewrite bool_decide_eq_true_2 by done.
    rewrite app_nil_r, rev_involutive, of_chars_chars.
    change (Attendance.escape (Some g) :: map _ fs)
      with (map (λ x, Attendance.escape (Some x)) (g :: fs)).
    rewrite IH. cbn [rev]. by rewrite <- app_assoc.
Qed.

End CsvLine.

(** X18: the line reader of the bulk sender undoes the usual CSV quoting.
    For any fields, at least one, written the way the attendance export
    writes a cell (in double quotes when the text holds a comma, a double
    quote or a line break, every double quote doubled) and joined by
    commas, [parseCsvLine] gives back the fields. *)
Theorem parseCsvLine_reads_quoted_fields (fields : list string) :
  fields ≠ [] →
  Pipeline.parseCsvLine
    (Json.join_with "," (map (λ x, Attendance.escape (Some x)) fields)) = fields.
Proof.
  destruct fields as [|f fs]; [done|]. intros _.
  unfold Pipeline.parseCsvLine. by rewrite parseCsvLine_fields.
Qed.

Lemma parseCsvLine_reads_quoted_fields_witness :
  Pipeline.parseCsvLine
    (Json.join_with ","
       (map (λ x, Attendance.escape (Some x)) ["Jonsdottir, Anna"; "a@hi.is"; ""]))
  = ["Jonsdottir, Anna"; "a@hi.is"; ""].
Proof. apply parseCsvLine_reads_quoted_fields. discriminate. Defined.

(** ** Blank lines in the guest list *)

Section CsvBlankLines.

Import BulkIssue.







End CsvBlankLines.



(** ** The scanning page *)

Lemma first_uuid_cons (a : ascii) (r : list ascii) :
  Scan.first_uuid (a :: r) =
    if Scan.match_prefix hyphenated_hex (a :: r) then Some (take 36 (a :: r))
    else Scan.first_uuid r.
Proof. done. Qed.

Lemma match_classes_length (cls : list (ascii → bool)) (l : list ascii) :
  match_classes cls l = true → length l = length cls.
Proof.
  revert l. induction cls as [|p cls IH]; intros [|c l]; simpl; try done.
  intros [_ H]%andb_true_iff. by rewrite (IH l H).
Qed.

Lemma match_prefix_classes (cls : list (ascii → bool)) (l : list ascii) :
  Scan.match_prefix cls l = true ↔
  match_classes cls (take (length cls) l) = true.
Proof.
  revert l. induction cls as [|p cls IH]; intros l; simpl; [done|].
  destruct l as [|c l]; simpl; [done|].
  by rewrite !andb_true_iff, IH.
Qed.

Lemma match_prefix_app (cls : list (ascii → bool)) (m post : list ascii) :
  match_classes cls m = true → Scan.match_prefix cls (m ++ post) = true.
Proof.
  intros H. apply match_prefix_classes.
  rewrite <- (match_classes_length _ _ H), take_app_length. done.
Qed.

(** A match cannot run over a character that no class of the shape
    accepts. *)
Lemma match_prefix_stop (cls : list (ascii → bool)) (l X : list ascii) (c : ascii) :
  Forall (λ p, p c = false) cls →
  Scan.match_prefix cls (l ++ c :: X) = true → Scan.match_prefix cls l = true.
Proof.
  intros Hc. revert l. induction Hc as [|p cls Hp Hc IH]; intros l; [done|].
  destruct l as [|a l]; simpl.
  - by rewrite Hp.
  - intros [Ha H]%andb_true_iff. rewrite Ha. simpl. by apply IH.
Qed.

Lemma first_uuid_None_cons (a : ascii) (l : list ascii) :
  Scan.first_uuid (a :: l) = None →
  Scan.match_prefix hyphenated_hex (a :: l) = false ∧ Scan.first_uuid l = None.
Proof.
  rewrite first_uuid_cons. by destruct (Scan.match_prefix hyphenated_hex (a :: l)).
Qed.

Lemma first_uuid_skip (B X : list ascii) (c : ascii) :
  Forall (λ p, p c = false) hyphenated_hex →
  Scan.first_uuid B = None →
  Scan.first_uuid (B ++ c :: X) = Scan.first_uuid X.
Proof.
  intros Hc. induction B as [|a B IH]; intros HB.
  - cbn [app]. rewrite first_uuid_cons.
    destruct (Scan.match_prefix hyphenated_hex (c :: X)) eqn:Hm; [|done].
    apply (match_prefix_stop _ [] X c Hc) in Hm. done.
  - apply first_uuid_None_cons in HB as [Hm HB].
    cbn [app]. rewrite first_uuid_cons.
    destruct (Scan.match_prefix hyphenated_hex (a :: B ++ c :: X)) eqn:Hm'; [|by apply IH].
    apply (match_prefix_stop _ (a :: B) X c Hc) in Hm'. congruence.
Qed.

Lemma first_uuid_suffix (pre l : list ascii) :
  Scan.first_uuid (pre ++ l) = None → Scan.first_uuid l = None.
Proof.
  induction pre as [|a pre IH]; [done|]. cbn [app].
  intros [_ H]%first_uuid_None_cons. by apply IH.
Qed.

Lemma first_uuid_here (m post : list ascii) :
  match_classes hyphenated_hex m = true →
  Scan.first_uuid (m ++ post) = Some m.
Proof.
  intros H. pose proof (match_classes_length _ _ H) as Hlen.
  pose proof (match_prefix_app _ m post H) as Hm.
  destruct m as [|a m]; [done|]. cbn [app] in *. rewrite first_uuid_cons, Hm.
  f_equal. change (a :: m ++ post)%list with ((a :: m) ++ post)%list.
  change 36 with (length hyphenated_hex). rewrite <- Hlen. apply take_app_length.
Qed.

(** The leftmost match, and that there is none. *)
Lemma first_uuid_Some (l m : list ascii) :
  Scan.first_uuid l = Some m →
  match_classes hyphenated_hex m = true ∧ ∃ pre post, l = (pre ++ m ++ post)%list.
Proof.
  induction l as [|a l IH].
  - done.
  - rewrite first_uuid_cons.
    destruct (Scan.match_prefix hyphenated_hex (a :: l)) eqn:Hm.
    + intros [= <-]. split; [by apply match_prefix_classes in Hm|].
      exists [], (drop 36 (a :: l)).
      change (a :: l = take 36 (a :: l) ++ drop 36 (a :: l))%list. by rewrite take_drop.
    + intros (Hmatch & pre & post & ->)%IH. split; [done|]. by exists (a :: pre), post.
Qed.


Lemma is_hex_not_space (c : ascii) : is_hex c = true → Js.is_space c = false.
Proof. by destruct c as [[] [] [] [] [] [] [] []]. Qed.

Lemma is_dash_not_space (c : ascii) : is_dash c = true → Js.is_space c = false.
Proof. by destruct c as [[] [] [] [] [] [] [] []]. Qed.

Lemma hyphenated_hex_ends (m : list ascii) :
  match_classes hyphenated_hex m = true →
  ∃ a body z, m = (a :: body ++ [z])%list ∧ Js.is_space a = false ∧ Js.is_space z = false.
Proof.
  intros H. pose proof (match_classes_length _ _ H) as Hlen.
  do 36 (destruct m as [|? m]; [discriminate Hlen|]).
  destruct m; [|discriminate Hlen].
  cbn in H. repeat (apply andb_true_iff in H as [? H]).
  eexists _, [_;_;_;_;_;_;_;_;_;_;_;_;_;_;_;_;_;_;_;_;_;_;_;_;_;_;_;_;_;_;_;_;_;_], _.
  split; [reflexivity|]. split; by apply is_hex_not_space.
Qed.

Lemma trim_chars_fixed (a z : ascii) (body : list ascii) :
  Js.is_space a = false → Js.is_space z = false →
  Js.trim_chars (a :: body ++ [z]) = (a :: body ++ [z])%list.
Proof.
  intros Ha Hz. unfold Js.trim_chars.
  rewrite (drop_spaces_fixed (a :: body ++ [z])) by done.
  rewrite (drop_spaces_fixed (rev _)); [by rewrite rev_involutive|].
  cbn [rev]. rewrite rev_app_distr. exact Hz.
Qed.

Lemma trim_hyphenated_hex (m : list ascii) :
  match_classes hyphenated_hex m = true → Js.trim_chars m = m.
Proof.
  intros (a & body & z & -> & Ha & Hz)%hyphenated_hex_ends. by apply trim_chars_fixed.
Qed.

Lemma extractTicketId_chars (raw : string) :
  Js.chars (Scan.extractTicketId raw) =
    match Scan.first_uuid (Js.trim_chars (Js.chars raw)) with
    | Some m => m
    | None => Js.trim_chars (Js.chars raw)
    end.
Proof.
  unfold Scan.extractTicketId.
  assert (Js.chars (Js.trim raw) = Js.trim_chars (Js.chars raw)) as Ht
    by apply chars_of_chars.
  rewrite Ht.
  destruct (Scan.first_uuid _) as [m|] eqn:Hm; unfold Js.trim at 1; rewrite chars_of_chars.
  - rewrite chars_of_chars. apply first_uuid_Some in Hm as [Hm _].
    by apply trim_hyphenated_hex.
  - rewrite Ht. apply trim_chars_idem.
Qed.

Lemma chars_inj (a b : string) : Js.chars a = Js.chars b → a = b.
Proof.
  intros H. apply (f_equal Js.of_chars) in H. by rewrite !of_chars_chars in H.
Qed.



Lemma drop_spaces_app_stop (B X : list ascii) (c : ascii) :
  Js.is_space c = false →
  Js.drop_spaces (B ++ c :: X) = (Js.drop_spaces B ++ c :: X)%list.
Proof.
  intros Hc. induction B as [|a B IH]; cbn [app Js.drop_spaces].
  - by rewrite Hc.
  - by destruct (Js.is_space a).
Qed.

(** The text of a ticket link: a base without a part of the shape, [/t/]
    and an id of the shape. *)
Lemma extractTicketId_link (base id : string) :
  match_classes hyphenated_hex (Js.chars id) = true →
  Scan.first_uuid (Js.chars base) = None →
  Scan.extractTicketId (base +:+ "/t/" +:+ id) = id.
Proof.
  intros Hid Hbase. apply chars_inj. rewrite extractTicketId_chars.
  rewrite !chars_append. change (Js.chars "/t/") with ["/"; "t"; "/"]%char.
  destruct (hyphenated_hex_ends _ Hid) as (a & body & z & Hm & Ha & Hz).
  destruct (drop_spaces_split (Js.chars base)) as [sp Hsp].
  assert (Js.trim_chars (Js.chars base ++ ["/"; "t"; "/"]%char ++ Js.chars id) =
          (Js.drop_spaces (Js.chars base) ++ "/"%char :: "t"%char :: "/"%char :: Js.chars id)%list)
    as ->.
  { unfold Js.trim_chars. cbn [app]. rewrite drop_spaces_app_stop by done.
    assert ((Js.drop_spaces (Js.chars base) ++ "/"%char :: "t"%char :: "/"%char :: Js.chars id)
            = (Js.drop_spaces (Js.chars base) ++ "/"%char :: "t"%char :: "/"%char :: a :: body)
              ++ [z])%list as Hz'
      by (rewrite Hm, <- app_assoc; done).
    rewrite (drop_spaces_fixed (rev _)); [by rewrite rev_involutive|].
    rewrite Hz', rev_app_distr. exact Hz. }
  assert (Scan.first_uuid (Js.drop_spaces (Js.chars base)) = None) as Hbase'.
  { rewrite Hsp in Hbase. by apply first_uuid_suffix in Hbase. }
  rewrite first_uuid_skip;
    [|cbv [hyphenated_hex repeat app]; repeat (constructor; [reflexivity|]); constructor
     |done].
  rewrite first_uuid_cons. change (Scan.match_prefix _ ("t"%char :: _)) with false.
  cbv iota. rewrite first_uuid_cons.
  change (Scan.match_prefix _ ("/"%char :: _)) with false. cbv iota.
  rewrite <- (app_nil_r (Js.chars id)) at 1. by rewrite first_uuid_here.
Qed.

Lemma uuid_test_hyphenated (s : string) :
  uuid_test s = true → match_classes hyphenated_hex (Js.chars s) = true.
Proof.
  intros H. pose proof (uuid_test_uuid_in s H) as Hin. unfold uuid_in in Hin.
  by destruct (match_classes hyphenated_hex (Js.chars s)).
Qed.

(** X21: the link of an issued ticket, scanned at the door, reads as the
    ticket.  When the issue route answers 200 with an id of the canonical
    shape, and the public base address holds no text of that shape, the
    scanning page takes the id of the ticket from the text of the link, and
    from the bare id as well. *)
Theorem scan_reads_issued_link (e : Issue.env) (w : Issue.collaborators)
    (st st' : store) (now : timestamp) (req : Issue.request) (r : Issue.issued)
    (fx : list Issue.effect) :
  Issue.POST e w st now req = (st', Issue.mkResponse 200 (Issue.Issued r), fx) →
  uuid_test (Issue.ticketId r) = true →
  Scan.first_uuid
    (Js.chars (default (Issue.origin req) (Issue.TICKETS_PUBLIC_BASE_URL e))) = None →
  Scan.extractTicketId (Issue.ticketUrl r) = Issue.ticketId r ∧
  Scan.extractTicketId (Issue.ticketId r) = Issue.ticketId r ∧
  is_Some (tickets st' !! Scan.extractTicketId (Issue.ticketUrl r)).
Proof.
  intros Hpost Hid%uuid_test_hyphenated Hbase.
  apply issue_ok_inv in Hpost
    as (_ & to_ & type_id & _ & _ & _ & _ & _ & _ & _ & _ & _ & -> & Hr & _ & Hurl).
  rewrite Hurl, Hr in *.
  rewrite (extractTicketId_link _ _ Hid Hbase). split; [done|]. split.
  - apply chars_inj. rewrite extractTicketId_chars.
    rewrite (trim_hyphenated_hex _ Hid).
    rewrite <- (app_nil_r (Js.chars _)) at 1. by rewrite first_uuid_here.
  - unfold insert_ticket. simpl. rewrite lookup_insert_eq. eauto.
Qed.

Lemma scan_reads_issued_link_witness :
  Scan.extractTicketId (Issue.ticketUrl Cases.issued_answer) = Sample.absent.
Proof.
  apply (scan_reads_issued_link Sample.issue_env Sample.working
           (Sample.db Sample.id_digest) Cases.after_issue 70%Z Sample.issue_plain
           Cases.issued_answer Cases.issued_effects); vm_compute; reflexivity.
Defined.

(** The callback, from a given [lastSeenRef] on. *)
Lemma on_results_cons (last : option Scan.last_seen) (raw : string) (now : Z)
    (rest : list (string * Z)) :
  Scan.on_results last ((raw, now) :: rest) =
    match Scan.on_result last raw now with
    | (last', Some id) => (id, now) :: Scan.on_results last' rest
    | (last', None) => Scan.on_results last' rest
    end.
Proof. done. Qed.

Lemma on_result_value (last : option Scan.last_seen) (raw : string) (now : Z) :
  ∃ l, (Scan.on_result last raw now).1 = Some l ∧
       Scan.value l = Scan.extractTicketId raw ∧
       match (Scan.on_result last raw now).2 with
       | Some id => id = Scan.extractTicketId raw ∧ Scan.at_ms l = now ∧
                    ∀ l0, last = Some l0 → Scan.value l0 = id → (1500 ≤ now - Scan.at_ms l0)%Z
       | None => last = Some l ∧ (now - Scan.at_ms l < 1500)%Z
       end.
Proof.
  unfold Scan.on_result. destruct last as [l0|]; [|eexists; repeat split; done].
  case_bool_decide as Hv; simpl.
  - destruct (now - Scan.at_ms l0 <? 1500)%Z eqn:Hlt; simpl.
    + exists l0. apply Z.ltb_lt in Hlt. done.
    + eexists. repeat split; try done. intros l1 [= <-] _. apply Z.ltb_ge in Hlt. lia.
  - eexists. repeat split; try done. intros l1 [= <-] Heq. done.
Qed.

(** X22: the debounce of the scanning page.  Every id it hands to
    [validateTicket] is the id of a decoded frame, with the time of that
    frame.  Two calls in a row for the same id are at least 1500 ms apart.
    And a frame whose id differs from the id of the frame decoded just
    before it is always handed on. *)
Theorem debounce_spaces_repeats (frames : list (string * Z)) :
  let calls := Scan.on_results None frames in
  (∀ id t, (id, t) ∈ calls → ∃ raw, (raw, t) ∈ frames ∧ id = Scan.extractTicketId raw)
  ∧ (∀ i id t1 t2, calls !! i = Some (id, t1) → calls !! S i = Some (id, t2) →
       (1500 ≤ t2 - t1)%Z)
  ∧ (∀ pre raw1 t1 raw2 t2 post,
       frames = (pre ++ (raw1, t1) :: (raw2, t2) :: post)%list →
       Scan.extractTicketId raw1 ≠ Scan.extractTicketId raw2 →
       (Scan.extractTicketId raw2, t2) ∈ calls).
Proof.
  intros calls. subst calls.
  assert (∀ frames last,
            (∀ id t, (id, t) ∈ Scan.on_results last frames →
               ∃ raw, (raw, t) ∈ frames ∧ id = Scan.extractTicketId raw)
            ∧ (∀ id t l0, Scan.on_results last frames !! 0 = Some (id, t) →
                 last = Some l0 → Scan.value l0 = id → (1500 ≤ t - Scan.at_ms l0)%Z)
            ∧ (∀ i id t1 t2, Scan.on_results last frames !! i = Some (id, t1) →
                 Scan.on_results last frames !! S i = Some (id, t2) → (1500 ≤ t2 - t1)%Z)
            ∧ (∀ raw t l0 rest, frames = (raw, t) :: rest → last = Some l0 →
                 Scan.value l0 ≠ Scan.extractTicketId raw →
                 (Scan.extractTicketId raw, t) ∈ Scan.on_results last frames)
            ∧ (∀ pre raw1 t1 raw2 t2 post,
                 frames = (pre ++ (raw1, t1) :: (raw2, t2) :: post)%list →
                 Scan.extractTicketId raw1 ≠ Scan.extractTicketId raw2 →
                 (Scan.extractTicketId raw2, t2) ∈ Scan.on_results last frames)) as H.
  { clear frames. intros frames.
    induction frames as [|[raw now] rest IH]; intros last.
    { cbn [Scan.on_results]. split; [by intros ?? ?%elem_of_nil|].
      split; [done|]. split; [done|]. split; [done|].
      intros [] ?????; done. }
    rewrite on_results_cons.
    destruct (on_result_value last raw now) as (l & Hlast & Hval & Hout).
    destruct (Scan.on_result last raw now) as [last' [id|]]; simpl in Hlast, Hout; subst last'.
    - destruct Hout as (-> & Hat & Hgap).
      destruct (IH (Some l)) as (IH1 & IH2 & IH3 & IH4 & IH5).
      split; [|split; [|split; [|split]]].
      + intros id t [[= -> ->] | Hin]%elem_of_cons.
        * exists raw. split; [apply elem_of_cons; by left | done].
        * destruct (IH1 _ _ Hin) as (raw' & Hin' & ->).
          exists raw'. split; [apply elem_of_cons; by right | done].
      + intros id t l0 [= <- <-] Hl0 Hv. by apply (Hgap l0).
      + intros [|i] id t1 t2 H1 H2.
        * injection H1 as <- <-. cbn [lookup list_lookup] in H2.
          specialize (IH2 _ _ l H2 eq_refl Hval). lia.
        * by apply (IH3 i id).
      + intros raw' t l0 rest' [= <- <- <-] _ _. apply elem_of_cons. by left.
      + intros [|[raw0 t0] pre] raw1 t1 raw2 t2 post Heq Hne.
        * injection Heq as <- <- ->. apply elem_of_cons. right.
          apply (IH4 raw2 t2 l post eq_refl eq_refl). congruence.
        * injection Heq as <- <- ->. apply elem_of_cons. right. by eapply IH5.
    - destruct Hout as [-> Hlt].
      destruct (IH (Some l)) as (IH1 & IH2 & IH3 & IH4 & IH5).
      split; [|split; [|split; [|split]]].
      + intros id t Hin. destruct (IH1 _ _ Hin) as (raw' & Hin' & ->).
        exists raw'. split; [apply elem_of_cons; by right | done].
      + intros id t l0 H0 [= <-] Hv. by apply (IH2 id t l).
      + done.
      + intros raw' t l0 rest' [= <- <- <-] [= <-] Hne. done.
      + intros [|[raw0 t0] pre] raw1 t1 raw2 t2 post Heq Hne.
        * injection Heq as <- <- ->.
          apply (IH4 raw2 t2 l post eq_refl eq_refl). congruence.
        * injection Heq as <- <- ->. by eapply IH5. }
  destruct (H frames None) as (H1 & _ & H3 & _ & H5). done.
Qed.

(** ** Letter case of a ticket id *)












(** ** Ticket types by name in the importer *)

Lemma normalizeTypeName_idem (s : string) :
  BulkIssue.normalizeTypeName (BulkIssue.normalizeTypeName s) = BulkIssue.normalizeTypeName s.
Proof. apply normalizeEmail_idem. Qed.

Lemma trim_idem (s : string) : Js.trim (Js.trim s) = Js.trim s.
Proof. unfold Js.trim. by rewrite chars_of_chars, trim_chars_idem. Qed.

(** X24: how the importer finds the ticket type of a row.  The id it gives
    is never one the type table does not hold: it is the id under the name
    of the row, trimmed and in lower case, or else the id under the
    canonical name of one of the four synonyms; a name that is in the table
    wins over a synonym; and a name that is neither in the table nor one of
    the four synonyms gets no type.  White space around the name and its
    letter case do not matter. *)
Theorem resolveTicketTypeId_sound (typeMap : gmap string string) (raw : option string) :
  let key := BulkIssue.normalizeTypeName (default "" raw) in
  let id := BulkIssue.resolveTicketTypeId typeMap raw in
  (id ≠ "" →
   typeMap !! key = Some id ∨
   ∃ canonical, (key, canonical) ∈ BulkIssue.synonymToCanonical ∧
                typeMap !! BulkIssue.normalizeTypeName canonical = Some id)
  ∧ (∀ direct, typeMap !! key = Some direct → direct ≠ "" → id = direct)
  ∧ (typeMap !! key = None → key ∉ BulkIssue.synonymToCanonical.*1 → id = "")
  ∧ BulkIssue.resolveTicketTypeId typeMap (Some key) = id.
Proof.
  intros key id.
  assert (BulkIssue.normalizeTypeName (Js.trim (default "" raw)) = key) as Hkey.
  { subst key. unfold BulkIssue.normalizeTypeName. by rewrite trim_idem. }
  assert (BulkIssue.normalizeTypeName (Js.trim key) = key) as Hkey'.
  { subst key. unfold BulkIssue.normalizeTypeName at 1.
    rewrite trim_idem. apply normalizeTypeName_idem. }
  subst id. unfold BulkIssue.resolveTicketTypeId.
  cbn [default from_option id]. rewrite Hkey, Hkey'.
  destruct (typeMap !! key) as [direct|] eqn:Hdirect; cbn [default from_option id].
  - case_bool_decide as Hempty; cbn [negb].
    + subst direct.
      destruct (find _ BulkIssue.synonymToCanonical) as [[k canonical]|] eqn:Hfind;
        cbn [fmap option_fmap option_map snd].
      * apply find_some in Hfind as [Hin Hk]. apply bool_decide_eq_true in Hk.
        simpl in Hk. subst k.
        destruct (typeMap !! BulkIssue.normalizeTypeName canonical) as [mapped|] eqn:Hm;
          cbn [default from_option id].
        -- case_bool_decide as Hm'; cbn [negb].
           ++ repeat split; try done. intros direct [= <-]. done.
           ++ repeat split; try done.
              ** intros _. right. exists canonical. split; [by apply list_elem_of_In | done].
              ** intros direct [= <-]. done.
        -- repeat split; try done. intros direct [= <-]. done.
      * repeat split; try done. intros direct [= <-]. done.
    + repeat split; try done.
      * intros _. by left.
      * by intros d [= <-].
  - rewrite bool_decide_eq_true_2 by done. cbn [negb].
    destruct (find _ BulkIssue.synonymToCanonical) as [[k canonical]|] eqn:Hfind;
      cbn [fmap option_fmap option_map snd].
    + apply find_some in Hfind as [Hin Hk]. apply bool_decide_eq_true in Hk.
      simpl in Hk. subst k.
      destruct (typeMap !! BulkIssue.normalizeTypeName canonical) as [mapped|] eqn:Hm;
        cbn [default from_option id].
      * case_bool_decide as Hm'; cbn [negb].
        -- repeat split; try done.
        -- repeat split; try done.
           ++ intros _. right. exists canonical. split; [by apply list_elem_of_In | done].
           ++ intros _ Hnot. destruct Hnot. apply list_elem_of_fmap.
              exists (key, canonical). split; [done | by apply list_elem_of_In].
      * repeat split; try done.
    + repeat split; try done.
Qed.

(** ** Sending the links again *)

Section ResendFacts.

Import Resend.

Lemma elem_of_readJsonl (r : Json.value) (file : list Pipeline.line) :
  r ∈ readJsonl file ↔ Pipeline.Entry r ∈ file.
Proof.
  unfold readJsonl. rewrite list_elem_of_omap. split.
  - intros ([v|] & Hin & Heq); [|done]. by injection Heq as ->.
  - intros Hin. by exists (Pipeline.Entry r).
Qed.

Lemma elem_of_already_from (x : string) (rs : list Json.value) (acc : gset string) :
  x ∈ foldl (λ acc r,
               if ok_true r && Json.truthy (Json.get (Some r) "email")
               then {[ Js.toLowerCase
                         (Json.to_String_or (Json.get (Some r) "email") "") ]} ∪ acc
               else acc) acc rs
  ↔ x ∈ acc ∨ ∃ r, r ∈ rs ∧ ok_true r = true ∧
                   Json.truthy (Json.get (Some r) "email") = true ∧
                   x = Js.toLowerCase (Json.to_String_or (Json.get (Some r) "email") "").
Proof.
  revert acc. induction rs as [|r rs IH]; intros acc; cbn [foldl].
  - split; [by left|]. intros [H | (r & Hr & _)]; [done|]. by apply elem_of_nil in Hr.
  - rewrite IH. split.
    + intros [Hacc | (r' & Hr' & Hm)].
      * destruct (ok_true r && Json.truthy (Json.get (Some r) "email")) eqn:Hok;
          [|by left].
        apply elem_of_union in Hacc as [Hx | Hx]; [|by left].
        apply elem_of_singleton in Hx. apply andb_true_iff in Hok as [Hok Hem].
        right. exists r. split; [apply elem_of_cons; by left | done].
      * right. exists r'. split; [apply elem_of_cons; by right | done].
    + intros [Hacc | (r' & Hr' & Hok & Hem & ->)].
      * left. destruct (_ && _); [|done]. apply elem_of_union. by right.
      * apply elem_of_cons in Hr' as [-> | Hr']; [|right; eauto 6].
        left. rewrite Hok, Hem. cbn [andb]. apply elem_of_union. left.
        by apply elem_of_singleton.
Qed.

Lemma elem_of_already (x : string) (out : list Pipeline.line) :
  x ∈ already out ↔
  ∃ r, Pipeline.Entry r ∈ out ∧ ok_true r = true ∧
       Json.truthy (Json.get (Some r) "email") = true ∧
       x = Js.toLowerCase (Json.to_String_or (Json.get (Some r) "email") "").
Proof.
  unfold already. rewrite elem_of_already_from. setoid_rewrite elem_of_readJsonl.
  split; [intros [H | H]; [by apply elem_of_empty in H | done] | by right].
Qed.

(** A record of a dry run, or of a message the transport took, marks its
    address. *)
Lemma record_marks (cfg : config) (startedAt : string) (r : Json.value)
    (result : option (string + Json.value)) :
  email_of r ≠ "" →
  (∀ err, result ≠ Some (inl err)) →
  ok_true (record cfg startedAt r result) = true ∧
  Json.truthy (Json.get (Some (record cfg startedAt r result)) "email") = true ∧
  Json.to_String_or (Json.get (Some (record cfg startedAt r result)) "email") "" =
    email_of r.
Proof.
  intros Hne Hres. unfold ok_true, record.
  destruct result as [[err|info]|]; [by destruct (Hres err)| |].
  - rewrite get_object_here by (repeat constructor; discriminate).
    do 2 (rewrite get_object_skip by discriminate).
    rewrite get_object_here by (repeat constructor; discriminate).
    simpl. by rewrite bool_decide_eq_false_2.
  - rewrite get_object_here by (repeat constructor; discriminate).
    do 3 (rewrite get_object_skip by discriminate).
    rewrite get_object_here by (repeat constructor; discriminate).
    simpl. by rewrite bool_decide_eq_false_2.
Qed.

(** The loop keeps what it was given and only adds to it. *)
Lemma resend_grows cfg done sendMail clock (rows : list Json.value) (acc : outcome) :
  ∃ more sent_more,
    log (resend cfg done sendMail clock rows acc) = (log acc ++ more)%list ∧
    mails (resend cfg done sendMail clock rows acc) = (mails acc ++ sent_more)%list.
Proof.
  revert acc. induction rows as [|r rows IH]; intros acc; cbn [resend].
  - exists [], []. by rewrite !app_nil_r.
  - destruct (_ || _); [apply IH|].
    destruct (negb (due cfg done r)).
    { destruct (IH (mkOutcome (log acc) (mails acc) (attempted acc) (sent acc)
                      (S (skipped acc)))) as (more & sm & H1 & H2). eauto. }
    destruct (dryRun cfg).
    { match goal with |- context [resend _ _ _ _ _ ?a] =>
        destruct (IH a) as (more & sm & H1 & H2) end.
      cbn [log mails] in H1, H2. rewrite H1, H2, <- app_assoc. eauto. }
    destruct (sendMail (attempted acc) (message cfg r)).
    all: match goal with |- context [resend _ _ _ _ _ ?a] =>
           destruct (IH a) as (more & sm & H1 & H2) end.
    all: cbn [log mails] in H1, H2; rewrite H1, H2, <- !app_assoc; eauto.
Qed.

(** With nothing due, the loop adds nothing. *)
Lemma resend_nothing_due cfg done sendMail clock (rows : list Json.value) (acc : outcome) :
  (∀ r, r ∈ rows → email_of r = "" ∨ url_of r = "" ∨ due cfg done r = false) →
  log (resend cfg done sendMail clock rows acc) = log acc ∧
  mails (resend cfg done sendMail clock rows acc) = mails acc ∧
  attempted (resend cfg done sendMail clock rows acc) = attempted acc.
Proof.
  revert acc. induction rows as [|r rows IH]; intros acc Hnone; cbn [resend]; [done|].
  assert (∀ r', r' ∈ rows → email_of r' = "" ∨ url_of r' = "" ∨ due cfg done r' = false)
    as Hrest by (intros r' Hr'; apply Hnone, elem_of_cons; by right).
  destruct (bool_decide (email_of r = "") || bool_decide (url_of r = "")) eqn:Hempty;
    [by apply IH|].
  apply orb_false_iff in Hempty as [He Hu].
  apply bool_decide_eq_false in He. apply bool_decide_eq_false in Hu.
  destruct (Hnone r) as [? | [? | Hdue]]; [apply elem_of_cons; by left | done | done |].
  rewrite Hdue. cbn [negb]. by apply (IH (mkOutcome _ _ _ _ _)).
Qed.

(** A dry run appends a record for every row that is due. *)
Lemma resend_dry_records cfg done sendMail clock (rows : list Json.value) (acc : outcome)
    (r : Json.value) :
  dryRun cfg = true → r ∈ rows → due cfg done r = true →
  ∃ startedAt,
    Pipeline.Entry (record cfg startedAt r None) ∈ log (resend cfg done sendMail clock rows acc).
Proof.
  intros Hdry. revert acc. induction rows as [|r' rows IH]; intros acc Hin Hdue.
  { by apply elem_of_nil in Hin. }
  cbn [resend].
  apply elem_of_cons in Hin as [<- | Hin].
  - assert (bool_decide (email_of r = "") || bool_decide (url_of r = "") = false) as ->.
    { unfold due in Hdue. repeat (apply andb_true_iff in Hdue as [Hdue ?]).
      apply negb_true_iff in Hdue. rewrite Hdue. cbn [orb]. by apply negb_true_iff. }
    rewrite Hdue, Hdry. cbn [negb].
    match goal with |- context [resend _ _ _ _ _ ?a] =>
      destruct (resend_grows cfg done sendMail clock rows a) as (more & sm & H1 & _) end.
    cbn [log] in H1. eexists. rewrite H1. apply elem_of_app. left.
    apply elem_of_app. right. apply list_elem_of_singleton. reflexivity.
  - destruct (_ || _); [by apply IH|].
    destruct (negb (due cfg done r')); [by apply IH|].
    rewrite Hdry. by apply IH.
Qed.

(** A run that sends hands the mailer the message of every row that is
    due. *)
Lemma resend_mails cfg done sendMail clock (rows : list Json.value) (acc : outcome)
    (r : Json.value) :
  dryRun cfg = false → r ∈ rows → due cfg done r = true →
  message cfg r ∈ mails (resend cfg done sendMail clock rows acc).
Proof.
  intros Hdry. revert acc. induction rows as [|r' rows IH]; intros acc Hin Hdue.
  { by apply elem_of_nil in Hin. }
  cbn [resend].
  apply elem_of_cons in Hin as [<- | Hin].
  - assert (bool_decide (email_of r = "") || bool_decide (url_of r = "") = false) as ->.
    { unfold due in Hdue. repeat (apply andb_true_iff in Hdue as [Hdue ?]).
      apply negb_true_iff in Hdue. rewrite Hdue. cbn [orb]. by apply negb_true_iff. }
    rewrite Hdue, Hdry. cbn [negb].
    destruct (sendMail (attempted acc) (message cfg r)).
    all: match goal with |- context [resend _ _ _ _ _ ?a] =>
           destruct (resend_grows cfg done sendMail clock rows a) as (more & sm & _ & H2)
         end.
    all: cbn [mails] in H2; rewrite H2; apply elem_of_app; left;
         apply elem_of_app; right; by apply list_elem_of_singleton.
  - destruct (_ || _); [by apply IH|].
    destruct (negb (due cfg done r')); [by apply IH|].
    rewrite Hdry. destruct (sendMail _ _); by apply IH.
Qed.

Lemma resend_dry_no_mail cfg done sendMail clock (rows : list Json.value) (acc : outcome) :
  dryRun cfg = true →
  mails (resend cfg done sendMail clock rows acc) = mails acc.
Proof.
  intros Hdry. revert acc. induction rows as [|r rows IH]; intros acc; cbn [resend];
    [done|].
  destruct (_ || _); [by apply IH|].
  destruct (negb _); [by rewrite IH|].
  rewrite Hdry. by rewrite IH.
Qed.

End ResendFacts.

(** X25: a dry run of the resend script marks the addresses it lists as
    sent.  It hands nothing to the mailer but appends a record with
    [ok: true] for every address it would have written to, and the script
    reads every such record of the output log as a message that went out:
    a run after it over the same logs, with the same [--only] and [--skip]
    and without [--dry-run], hands nothing to the mailer and appends
    nothing. *)
Theorem dry_run_marks_addresses_as_sent (cfg1 cfg2 : Resend.config)
    (input output : list Pipeline.line)
    (sendMail1 sendMail2 : nat → Resend.mail → string + Json.value)
    (clock1 clock2 : nat → string) (run1 run2 : Resend.outcome) :
  Resend.dryRun cfg1 = true →
  Resend.only cfg2 = Resend.only cfg1 → Resend.skip cfg2 = Resend.skip cfg1 →
  Resend.main cfg1 input output sendMail1 clock1 = inr run1 →
  Resend.main cfg2 input (Resend.log run1) sendMail2 clock2 = inr run2 →
  Resend.mails run1 = [] ∧
  Resend.mails run2 = [] ∧ Resend.attempted run2 = 0 ∧
  Resend.log run2 = Resend.log run1.
Proof.
  intros Hdry Honly Hskip. unfold Resend.main.
  destruct (filter _ (Resend.readJsonl input)) as [|r0 rows']; [done|]. cbv iota.
  generalize (r0 :: rows'). clear r0 rows'. intros rows.
  destruct (negb (Resend.transport_ready cfg1) || _); [done|].
  destruct (negb (Resend.transport_ready cfg2) || _); [done|].
  intros [= <-] [= <-].
  set (acc1 := Resend.mkOutcome output [] 0 0 0).
  set (run1 := Resend.resend cfg1 (Resend.already output) sendMail1 clock1 rows acc1).
  assert (Resend.mails run1 = []) as Hmails1.
  { subst run1. by rewrite resend_dry_no_mail. }
  split; [done|].
  destruct (resend_nothing_due cfg2 (Resend.already (Resend.log run1)) sendMail2 clock2
              rows (Resend.mkOutcome (Resend.log run1) [] 0 0 0)) as (Hlog & Hm & Ha);
    [|done].
  intros r Hr.
  destruct (decide (Resend.email_of r = "")) as [|He]; [by left|].
  destruct (decide (Resend.url_of r = "")) as [|Hu]; [right; by left|].
  right. right.
  destruct (Resend.due cfg1 (Resend.already output) r) eqn:Hdue1.
  - destruct (resend_dry_records cfg1 (Resend.already output) sendMail1 clock1 rows acc1 r
                Hdry Hr Hdue1) as [startedAt Hrec].
    destruct (record_marks cfg1 startedAt r None He) as (Hok & Hem & Hto); [done|].
    assert (Js.toLowerCase (Resend.email_of r) ∈ Resend.already (Resend.log run1)) as Hin.
    { apply elem_of_already. eexists. split; [exact Hrec|]. by rewrite Hto. }
    unfold Resend.due. rewrite (bool_decide_eq_true_2 _ Hin). cbn [negb].
    by rewrite !andb_false_r.
  - assert (∀ x, x ∈ Resend.already output → x ∈ Resend.already (Resend.log run1)) as Hsub.
    { intros x (r' & Hr' & Hrest)%elem_of_already. apply elem_of_already.
      exists r'. split; [|done].
      destruct (resend_grows cfg1 (Resend.already output) sendMail1 clock1 rows acc1)
        as (more & sm & H1 & _).
      fold run1 in H1. rewrite H1. apply elem_of_app. by left. }
    revert Hdue1. unfold Resend.due. rewrite Honly, Hskip.
    rewrite (bool_decide_eq_false_2 _ He), (bool_decide_eq_false_2 _ Hu). cbn [negb andb].
    destruct (bool_decide (_ ∈ Resend.already output)) eqn:Hdone.
    + apply bool_decide_eq_true in Hdone. apply Hsub in Hdone.
      by rewrite (bool_decide_eq_true_2 _ Hdone).
    + cbn [negb andb]. intros Hrest.
      destruct (bool_decide (_ ∈ Resend.already (Resend.log run1))); [done|].
      exact Hrest.
Qed.

Lemma dry_run_marks_addresses_as_sent_witness :
  Resend.attempted Cases.dry = 2 ∧ Resend.mails Cases.after_dry = [] ∧
  Resend.log Cases.after_dry = Resend.log Cases.dry.
Proof.
  split; [vm_compute; reflexivity|].
  destruct (dry_run_marks_addresses_as_sent Cases.rehearsal Cases.sending Cases.ledger []
              Cases.transport Cases.transport Sample.wall_clock Sample.wall_clock
              Cases.dry Cases.after_dry) as (_ & Hm & _ & Hlog);
    [reflexivity | reflexivity | reflexivity | vm_compute; reflexivity
     | vm_compute; reflexivity |].
  split; [exact Hm | exact Hlog].
Defined.

(** ** From the ledger of the bulk sender to the resend script *)

Lemma trim_toLowerCase (s : string) :
  Js.trim (Js.toLowerCase s) = Js.toLowerCase (Js.trim s).
Proof.
  unfold Js.trim, Js.toLowerCase. by rewrite !chars_of_chars, trim_chars_lower.
Qed.

Lemma trim_normalized (e : string) : Pipeline.normalizeEmail e = e → Js.trim e = e.
Proof.
  unfold Pipeline.normalizeEmail. intros He.
  rewrite <- He at 1. by rewrite trim_toLowerCase, trim_idem.
Qed.

Lemma records_lookup net clock (rows : list Pipeline.row) (k j : nat) (r : Pipeline.row) :
  rows !! j = Some r →
  Pipeline.records net clock k rows !! j =
    Some (Pipeline.ledgerRecord (clock (k + j)) r (Pipeline.result_at net (k + j))).
Proof.
  revert k j. induction rows as [|r' rows IH]; intros k [|j]; simpl; try done.
  - intros [= ->]. by rewrite Nat.add_0_r.
  - intros Hj. rewrite (IH (S k) j Hj). by replace (S k + j) with (k + S j) by lia.
Qed.

Lemma ledgerRecord_ticketUrl (startedAt : string) (r : Pipeline.row) (res : Retry.result) :
  Pipeline.succeeded res = true →
  Json.get (Some (Pipeline.ledgerRecord startedAt r res)) "ticketUrl" =
    Json.get (Some (Retry.json res)) "ticketUrl".
Proof.
  unfold Pipeline.succeeded, Pipeline.ledgerRecord. intros H.
  apply andb_true_iff in H as [-> ->]. cbn [negb orb].
  do 6 (rewrite get_object_skip by discriminate).
  destruct (Json.get (Some (Retry.json res)) "ticketUrl") as [v|] eqn:Hv.
  - apply get_object_here. repeat constructor; discriminate.
  - change (Pipeline.object (("ticketUrl", None) :: ?rest)) with (Pipeline.object rest).
    apply get_object_absent. repeat constructor; discriminate.
Qed.


(** X26: the ledger the bulk sender leaves is what the resend script needs.
    For every call of a run of the bulk sender that succeeded with a link
    in its answer, a run of the resend script over the ledger of that run,
    with an empty output log, no [--only], no [--skip] and no [--dry-run],
    hands the mailer a message to the recipient of the call whose text is
    that link, under the configured subject. *)
Theorem resend_reaches_issued_addresses (cfg : Pipeline.config)
    (types_net : nat → Retry.attempt_outcome)
    (net : nat → nat → Retry.attempt_outcome) (clock : nat → string)
    (ledger0 : list Pipeline.line) (run : Pipeline.outcome)
    (cfgR : Resend.config) (sendMail : nat → Resend.mail → string + Json.value)
    (clockR : nat → string) (again : Resend.outcome)
    (i : nat) (body : Json.value) (url : string) :
  Pipeline.main cfg types_net net clock ledger0 = inr run →
  Resend.main cfgR (Pipeline.log run) [] sendMail clockR = inr again →
  Resend.dryRun cfgR = false → Resend.only cfgR = ∅ → Resend.skip cfgR = ∅ →
  Pipeline.calls run !! i = Some body →
  Pipeline.succeeded (Pipeline.result_at net i) = true →
  Json.get (Some (Retry.json (Pipeline.result_at net i))) "ticketUrl" = Some (Json.Str url) →
  Js.trim url ≠ "" →
  ∃ m, m ∈ Resend.mails again ∧
       Resend.mail_to m = Pipeline.recipient body ∧
       Resend.mail_text m = Js.trim url ∧
       Resend.mail_subject m = Resend.subject cfgR ∧
       Resend.mail_from m = Resend.from cfgR.
Proof.
  rewrite main_spec.
  destruct (Pipeline.plan cfg types_net) as [code|deduped] eqn:Hplan; [done|].
  destruct (plan_rows _ _ _ Hplan) as [_ Hnormal].
  intros [= <-]. cbn [Pipeline.log Pipeline.calls].
  set (rows := Pipeline.to_send cfg deduped ledger0).
  intros Hmain Hdry Honly Hskip Hcall Hok Hurl Hne.
  rewrite list_lookup_fmap in Hcall.
  destruct (rows !! i) as [r|] eqn:Hr; [|done]. injection Hcall as <-.
  destruct (Hnormal r) as [Hemail Hnorm].
  { apply (to_send_not_sent cfg deduped ledger0). by eapply list_elem_of_lookup_2. }
  set (rec := Pipeline.ledgerRecord (clock i) r (Pipeline.result_at net i)).
  assert (Pipeline.Entry rec ∈
            (ledger0 ++ (Pipeline.Entry <$> Pipeline.records net clock 0 rows))%list) as Hin.
  { apply elem_of_app. right. apply list_elem_of_fmap. exists rec. split; [done|].
    eapply list_elem_of_lookup_2. by rewrite (records_lookup net clock rows 0 i r Hr). }
  assert (Resend.email_of rec = Pipeline.email r) as Hto.
  { unfold Resend.email_of, rec. rewrite ledgerRecord_email. simpl.
    by apply trim_normalized. }
  assert (Resend.url_of rec = Js.trim url) as Htext.
  { unfold Resend.url_of, rec. by rewrite ledgerRecord_ticketUrl, Hurl. }
  assert (Resend.usable rec = true) as Huse.
  { unfold Resend.usable, Resend.ok_true, rec.
    rewrite (ledgerRecord_ok _ _ _ Hok), ledgerRecord_email, ledgerRecord_ticketUrl, Hurl
      by done.
    simpl. rewrite bool_decide_eq_false_2 by done.
    rewrite bool_decide_eq_false_2; [done|]. by intros ->. }
  revert Hmain. unfold Resend.main.
  destruct (filter _ (Resend.readJsonl _)) as [|r0 rows'] eqn:Hrows.
  { exfalso. assert (rec ∈ filter (λ r, Resend.usable r = true)
                       (Resend.readJsonl
                          (ledger0 ++ (Pipeline.Entry <$> Pipeline.records net clock 0 rows))))
      as Hrec by (apply list_elem_of_filter; split; [done | by apply elem_of_readJsonl]).
    rewrite Hrows in Hrec. by apply elem_of_nil in Hrec. }
  rewrite <- Hrows. destruct (negb _ || _); [done|]. intros [= <-].
  exists (Resend.message cfgR rec). split.
  - apply resend_mails; [done | |].
    + apply list_elem_of_filter. split; [done | by apply elem_of_readJsonl].
    + unfold Resend.due. rewrite Hto, Htext, Honly, Hskip.
      rewrite (bool_decide_eq_false_2 _ Hemail), (bool_decide_eq_false_2 _ Hne).
      rewrite (bool_decide_eq_true_2 (∅ = ∅)) by done.
      rewrite !bool_decide_eq_false_2; [done | set_solver |].
      intros (? & Hx & _)%elem_of_already. by apply elem_of_nil in Hx.
  - cbn [Resend.message Resend.mail_to Resend.mail_text Resend.mail_subject Resend.mail_from].
    rewrite Hto, Htext, issueBody_recipient, Hnorm. done.
Qed.

Lemma resend_reaches_issued_addresses_witness :
  ∃ m, m ∈ Resend.mails Cases.direct ∧ Resend.mail_to m = "a@b.is" ∧
       Resend.mail_text m = "https://tickets.example/t/T1".
Proof.
  destruct (resend_reaches_issued_addresses Sample.campaign Sample.types_service
              Sample.issue_service Sample.wall_clock [] Cases.first_run
              Cases.sending Cases.transport Sample.wall_clock Cases.direct
              0 (Pipeline.issueBody (Pipeline.mkRow "a@b.is" (Some "Anna") "Matur + ball"
                                       (Json.Str Sample.type_a)))
              "https://tickets.example/t/T1")
    as (m & Hin & Hto & Htext & _).
  all: try (vm_compute; reflexivity).
  - vm_compute. discriminate.
  - exists m. split; [exact Hin|]. split; [|exact Htext].
    rewrite Hto. vm_compute. reflexivity.
Defined.
